(** * Grover search API: a shallow embedding of [backend/grover_api.py]

    The development follows the Python module top to bottom: the
    configuration constants, request validation, the floating-point
    computation of the optimal iteration count, the construction of the
    oracle and of the complete Grover circuit as instruction lists, the
    state-vector semantics of those instructions, the four endpoints
    ([/grover/search], [/grover/analyze], [/grover/circuit],
    [/grover/iterations]), the examples of [/info], and the pure parts of
    the two hardware routes (the two-qubit circuit, the job tags and the
    extraction of a finished job's results).

    Conventions.
    - Python [int] is [Z]; [len] and qubit numbers are [nat].
    - Python [float] is IEEE binary64, embedded with Rocq's primitive
      floats, so the iteration count is computed bit for bit.
    - A Python [str] is a [string]: the development covers the strings
      of ASCII characters, where a byte of the text and a code point of
      the Python string are the same thing, so that [len] is
      [String.length] and [int] reads the digits 0 to 9.
    - Amplitudes are exact reals: every gate used by the module has a real
      matrix and the initial state is real.  A state vector is a function
      from the basis index to its amplitude; qubit [q] is bit [q] of the
      index (Qiskit's little-endian convention).  The module gets its
      probabilities from Qiskit's floating-point simulation, whose
      rounding is not modelled: the values proved here are those of the
      ideal gates, which the module returns up to rounding.
    - A Python exception is the [Raise] branch of [result]. *)

From Stdlib Require Import Floats.
From Stdlib Require Import ZArith List String Ascii Bool Lia.
From Stdlib Require Import Reals Lra Zfloor Machin Zpow_facts.
From Stdlib Require Import DecimalString.
From Stdlib Require Import FunctionalExtensionality.
Import ListNotations.

Local Open Scope Z_scope.

(** ** Exceptions and the result monad *)

Inductive exn : Type :=
| ValueError
| OverflowError
| ZeroDivisionError
| IndexError
| QiskitError
| HTTPException (status_code : Z).

Inductive result (A : Type) : Type :=
| Ok (a : A)
| Raise (e : exn).

Arguments Ok {A} a.
Arguments Raise {A} e.

Definition bind {A B : Type} (m : result A) (k : A -> result B) : result B :=
  match m with
  | Ok a => k a
  | Raise e => Raise e
  end.

Notation "x <- m ;; k" := (bind m (fun x => k))
  (at level 61, m at next level, right associativity).
Notation "' pat <- m ;; k" := (bind m (fun x => match x with pat => k end))
  (at level 61, pat pattern, m at next level, right associativity).

(** [for x in xs: body] threading a state through a fallible body. *)
Fixpoint for_each {A S : Type} (xs : list A) (body : A -> S -> result S)
  (s : S) : result S :=
  match xs with
  | [] => Ok s
  | x :: xs' => s' <- body x s ;; for_each xs' body s'
  end.

(** [try: ... except Exception as e: raise HTTPException(500, ...)]. *)
Definition except_500 {A : Type} (m : result A) : result A :=
  match m with
  | Ok a => Ok a
  | Raise _ => Raise (HTTPException 500)
  end.

(** ** Configuration (lines 65-66, environment defaults) *)

Definition MAX_QUBITS : nat := 8.
Definition MIN_QUBITS : nat := 1.

(** ** Python built-ins used by the module *)

(** [range(n)] over qubit numbers. *)
Definition range (n : nat) : list nat := seq 0 n.

(** [range(n)] over Python ints, for [n >= 0]; empty otherwise. *)
Definition zrange (n : Z) : list Z := map Z.of_nat (seq 0 (Z.to_nat n)).

(** [enumerate(xs)]. *)
Definition enumerate {A : Type} (xs : list A) : list (nat * A) :=
  combine (seq 0 (List.length xs)) xs.

(** [xs[i]] on a list: [IndexError] out of range (negative indices do not
    occur in the module). *)
Definition list_get {A : Type} (xs : list A) (i : Z) : result A :=
  if i <? 0 then Raise IndexError
  else match nth_error xs (Z.to_nat i) with
       | Some x => Ok x
       | None => Raise IndexError
       end.

(** [c in '01'] for a one-character string [c]. *)
Definition in_01 (c : ascii) : bool :=
  (Ascii.eqb c "0" || Ascii.eqb c "1")%bool.

(** [all(c in '01' for c in s)]. *)
Definition all_01 (s : string) : bool :=
  forallb in_01 (list_ascii_of_string s).

(** [int(c)] for a one-character ASCII string: decimal digits only. *)
Definition int_of_char (c : ascii) : result Z :=
  let k := Z.of_nat (nat_of_ascii c) in
  if (48 <=? k) && (k <=? 57) then Ok (k - 48) else Raise ValueError.

(** [int(s, 2)] on strings of binary digits, most significant digit first.
    Anything else raises [ValueError]; the endpoints have validated the
    string when they call it. *)
Fixpoint int_base2_from (acc : Z) (cs : list ascii) : result Z :=
  match cs with
  | [] => Ok acc
  | c :: cs' =>
      if Ascii.eqb c "0" then int_base2_from (2 * acc) cs'
      else if Ascii.eqb c "1" then int_base2_from (2 * acc + 1) cs'
      else Raise ValueError
  end.

Definition int_base2 (s : string) : result Z :=
  match list_ascii_of_string s with
  | [] => Raise ValueError
  | cs => int_base2_from 0 cs
  end.

(** Binary digits of a positive number, most significant first. *)
Fixpoint bin_digits (p : positive) : list ascii :=
  match p with
  | xH => ["1"%char]
  | xO p' => bin_digits p' ++ ["0"%char]
  | xI p' => bin_digits p' ++ ["1"%char]
  end.

(** [s.zfill(width)] on digit lists: pad with ['0'] on the left. *)
Definition zfill (width : nat) (cs : list ascii) : list ascii :=
  repeat "0"%char (width - List.length cs) ++ cs.

(** [format(i, f'0{width}b')]: binary, zero-padded to [width]; the sign of
    a negative number counts in the width. *)
Definition format_bin (width : nat) (i : Z) : string :=
  match i with
  | Z0 => string_of_list_ascii (zfill width ["0"%char])
  | Zpos p => string_of_list_ascii (zfill width (bin_digits p))
  | Zneg p =>
      string_of_list_ascii ("-"%char :: zfill (width - 1) (bin_digits p))
  end.

(** A Python [dict] with string keys, in insertion order; assigning to an
    existing key overwrites its value in place. *)
Definition dict (V : Type) : Type := list (string * V).

Fixpoint dict_set {V : Type} (k : string) (v : V) (d : dict V) : dict V :=
  match d with
  | [] => [(k, v)]
  | (k', v') :: d' =>
      if String.eqb k k' then (k', v) :: d' else (k', v') :: dict_set k v d'
  end.

Fixpoint dict_get {V : Type} (d : dict V) (k : string) : option V :=
  match d with
  | [] => None
  | (k', v') :: d' => if String.eqb k k' then Some v' else dict_get d' k
  end.

(** [{key(i): v for i, v in enumerate(vs)}]. *)
Definition dict_of_enumerate {V : Type} (key : Z -> string) (vs : list V)
  : dict V :=
  fold_left (fun d iv => dict_set (key (Z.of_nat (fst iv))) (snd iv) d)
            (enumerate vs) [].

Definition dict_keys {V : Type} (d : dict V) : list string := map fst d.
Definition dict_values {V : Type} (d : dict V) : list V := map snd d.

(** ** Request validation *)

(** The check at the head of the three GET handlers (lines 719-726,
    810-817, 895-902): format first, then length, both answered with
    [HTTPException(status_code=400)]. *)
Definition validate_target_state (target_state : string) : result unit :=
  if (String.length target_state =? 0)%nat || negb (all_01 target_state)
  then Raise (HTTPException 400)
  else if (String.length target_state <? MIN_QUBITS)%nat
          || (MAX_QUBITS <? String.length target_state)%nat
  then Raise (HTTPException 400)
  else Ok tt.

(** The declared constraint [pattern=f"^[01]{{{MIN_QUBITS},{MAX_QUBITS}}}$"]
    on the path parameter and on the request field: a full match of between
    [MIN_QUBITS] and [MAX_QUBITS] characters, each ['0'] or ['1']. *)
Definition pattern_match (target_state : string) : bool :=
  all_01 target_state
  && (MIN_QUBITS <=? String.length target_state)%nat
  && (String.length target_state <=? MAX_QUBITS)%nat.

(** What the client of a route sees: the body of a 200 response, the
    status of an error response, or the status of a redirect. *)
Inductive http_response (A : Type) : Type :=
| Response_200 (body : A)
| Response_error (status_code : Z)
| Response_redirect (status_code : Z).

Arguments Response_200 {A} body.
Arguments Response_error {A} status_code.
Arguments Response_redirect {A} status_code.

Definition respond {A : Type} (r : result A) : http_response A :=
  match r with
  | Ok a => Response_200 a
  | Raise (HTTPException code) => Response_error code
  | Raise _ => Response_error 500
  end.

(** ["/" in s]. *)
Definition contains_slash (s : string) : bool :=
  existsb (Ascii.eqb "/") (list_ascii_of_string s).

(** [s.rstrip("/")]; the characters are handled last one first. *)
Fixpoint strip_leading_slashes (cs : list ascii) : list ascii :=
  match cs with
  | c :: cs' => if Ascii.eqb c "/" then strip_leading_slashes cs' else cs
  | [] => []
  end.

Definition rstrip_slash (s : string) : string :=
  string_of_list_ascii
    (rev (strip_leading_slashes (rev (list_ascii_of_string s)))).

(** Whether the rest of the request path, after the fixed prefix of a
    route [/.../{target_state}], fills the parameter: the router matches
    the parameter with the regular expression [[^/]+], one or more
    characters other than a slash. *)
Definition segment_matches (segment : string) : bool :=
  negb (String.length segment =? 0)%nat && negb (contains_slash segment).

(** A GET route [/.../{target_state}] whose parameter is declared with
    [Path(..., pattern=...)], as the application's router serves it.
    When the path matches the route, a parameter that fails the pattern
    is refused by the framework with 422 before the handler runs (as
    [test_invalid_target_states] records), otherwise the handler runs.
    When it does not (the parameter is empty or holds a slash), the
    router, whose [redirect_slashes] is on, strips the trailing slashes
    of the path and answers with a 307 redirect if the stripped path
    matches the route; a path that does not end with a slash gets one
    appended instead, which never matches these routes.  Every other
    path is answered 404 (as [test_empty_target_state] records). *)
Definition get_route {A : Type} (handler : string -> result A)
  (target_state : string) : http_response A :=
  if segment_matches target_state then
    if negb (pattern_match target_state) then Response_error 422
    else respond (handler target_state)
  else if segment_matches (rstrip_slash target_state)
  then Response_redirect 307
  else Response_error 404.

(** ** Floating point: the optimal iteration count *)

(** [math.pi]. *)
Definition math_pi : float := 0x1.921fb54442d18p+1%float.

(** The least magnitude that rounds out of the finite binary64 range:
    half way between the largest finite float and [2^1024]. *)
Definition float_overflow_threshold : Z := 2 ^ 1024 - 2 ^ 970.

(** Conversion of a Python int to float: round to nearest even,
    [OverflowError] when the integer is too large. *)
Definition float_of_int (z : Z) : result float :=
  if float_overflow_threshold <=? Z.abs z then Raise OverflowError
  else Ok (SF2Prim (binary_normalize prec emax z 0 false)).

(** [a / b] on Python ints: the correctly rounded quotient,
    [OverflowError] when it is too large.  The quotient is computed to
    more than 64 bits with a sticky last bit and rounded once. *)
Definition int_truediv (a b : Z) : result float :=
  if b =? 0 then Raise ZeroDivisionError
  else if float_overflow_threshold * Z.abs b <=? Z.abs a
  then Raise OverflowError
  else
    let k := Z.max 0 (66 + Z.log2 (Z.abs b) - Z.log2 (Z.abs a)) in
    let q := (Z.abs a * 2 ^ k) / Z.abs b in
    let r := (Z.abs a * 2 ^ k) mod Z.abs b in
    let m := 2 * q + (if r =? 0 then 0 else 1) in
    let sm := if Z.sgn a * Z.sgn b <? 0 then - m else m in
    Ok (SF2Prim (binary_normalize prec emax sm (- k - 1) false)).

(** [math.sqrt(n)] on a Python int. *)
Definition math_sqrt_int (n : Z) : result float :=
  if n <? 0 then Raise ValueError
  else x <- float_of_int n ;; Ok (PrimFloat.sqrt x).

(** [math.sqrt(x)] on a float. *)
Definition math_sqrt (x : float) : result float :=
  if PrimFloat.ltb x 0%float then Raise ValueError
  else Ok (PrimFloat.sqrt x).

(** [int(x)] on a float: truncation toward zero. *)
Definition int_of_float (x : float) : result Z :=
  match Prim2SF x with
  | S754_zero _ => Ok 0
  | S754_finite s m e =>
      let v := if 0 <=? e then Z.pos m * 2 ^ e else Z.pos m / 2 ^ (- e) in
      Ok (if s then - v else v)
  | S754_infinity _ => Raise OverflowError
  | S754_nan => Raise ValueError
  end.

(** [max(1, int(math.pi / 4 * math.sqrt(N / M)))], line 404. *)
Definition optimal_iterations_N_over_M (N M : Z) : result Z :=
  four <- float_of_int 4 ;;
  ratio <- int_truediv N M ;;
  root <- math_sqrt ratio ;;
  k <- int_of_float (PrimFloat.mul (PrimFloat.div math_pi four) root) ;;
  Ok (Z.max 1 k).

(** [max(1, int(math.pi / 4 * math.sqrt(N)))], lines 730 and 907. *)
Definition optimal_iterations_N (N : Z) : result Z :=
  four <- float_of_int 4 ;;
  root <- math_sqrt_int N ;;
  k <- int_of_float (PrimFloat.mul (PrimFloat.div math_pi four) root) ;;
  Ok (Z.max 1 k).

(** ** Quantum circuits as instruction lists *)

(** The instructions the module emits.  Qubit and classical-bit numbers are
    those passed to the [QuantumCircuit] methods. *)
Inductive Instruction : Type :=
| GateH (q : nat)
| GateX (q : nat)
| GateZ (q : nat)
| GateCZ (control target : nat)
| GateCCZ (control1 control2 target : nat)
| GateMCX (controls : list nat) (target : nat)
| Barrier
| Measure (q c : nat).

Record QuantumCircuit : Type := mkCircuit {
  num_qubits : nat;
  num_clbits : nat;
  data : list Instruction
}.

(** [qc.<gate>(...)]: append at the end. *)
Definition qc_append (qc : QuantumCircuit) (gs : list Instruction)
  : QuantumCircuit :=
  mkCircuit (num_qubits qc) (num_clbits qc) (data qc ++ gs).

(** [qc.compose(other, inplace=True)]. *)
Definition qc_compose (qc other : QuantumCircuit) : QuantumCircuit :=
  qc_append qc (data other).

(** [qc.h(range(n))] and [qc.x(range(n))]. *)
Definition h_range (n : nat) : list Instruction := map GateH (range n).
Definition x_range (n : nat) : list Instruction := map GateX (range n).

(** The multi-controlled-Z block, written out three times in the module
    (lines 346-370, 432-449, 958-975): [z], [cz], [ccz] for one, two and
    three qubits, otherwise [h; mcx; h] on the last qubit.  The block is
    never reached with [n = 0]. *)
Definition multi_controlled_z (n : nat) : list Instruction :=
  match n with
  | 1%nat => [GateZ 0]
  | 2%nat => [GateCZ 0 1]
  | 3%nat => [GateCCZ 0 1 2]
  | _ =>
      let control_qubits := range (n - 1) in
      let target_qubit := (n - 1)%nat in
      if (List.length control_qubits =? 1)%nat
      then match control_qubits with
           | c :: _ => [GateCZ c target_qubit]
           | [] => []
           end
      else [GateH target_qubit; GateMCX control_qubits target_qubit;
            GateH target_qubit]
  end.

(** [for i, bit in enumerate(target_bits): if bit == 0: qc.x(i)]. *)
Definition x_where_zero (target_bits : list Z) : list Instruction :=
  flat_map (fun ib => if snd ib =? 0 then [GateX (fst ib)] else [])
           (enumerate target_bits).

(** [[int(bit) for bit in target_state[::-1]]]. *)
Fixpoint ints_of_chars (cs : list ascii) : result (list Z) :=
  match cs with
  | [] => Ok []
  | c :: cs' =>
      b <- int_of_char c ;; bs <- ints_of_chars cs' ;; Ok (b :: bs)
  end.

(** Lines 315-379. *)
Definition build_generalized_grover_oracle (target_state : string)
  : result QuantumCircuit :=
  let n := String.length target_state in
  let qc := mkCircuit n 0 [] in
  if (n <? MIN_QUBITS)%nat || (MAX_QUBITS <? n)%nat then Raise ValueError
  else
    target_bits <- ints_of_chars (rev (list_ascii_of_string target_state)) ;;
    let qc := qc_append qc (x_where_zero target_bits) in
    let qc := qc_append qc (multi_controlled_z n) in
    let qc := qc_append qc (x_where_zero target_bits) in
    Ok qc.

(** Lines 382-384. *)
Definition build_simple_grover_oracle (target_state : string)
  : result QuantumCircuit :=
  build_generalized_grover_oracle target_state.

(** The diffusion block of one iteration (lines 428-452 and 954-978). *)
Definition diffusion (n : nat) : list Instruction :=
  h_range n ++ x_range n ++ multi_controlled_z n ++ x_range n ++ h_range n.

(** Lines 386-466.  [qc.h(range(num_qubits))] on no qubit at all, which
    only the empty target gives, raises Qiskit's [CircuitError], a
    [QiskitError]. *)
Definition create_grover_circuit (target_state : string)
  : result (QuantumCircuit * Z) :=
  let n := String.length target_state in
  let N := 2 ^ Z.of_nat n in
  let M := 1 in
  optimal_iterations <- optimal_iterations_N_over_M N M ;;
  let qc := mkCircuit n n [] in
  qc <- (if (n =? 0)%nat then Raise QiskitError
         else Ok (qc_append qc (h_range n))) ;;
  oracle <- build_simple_grover_oracle target_state ;;
  let qc :=
    fold_left
      (fun qc (_ : Z) =>
         let qc := qc_compose qc oracle in
         let qc := qc_append qc (diffusion n) in
         qc_append qc [Barrier])
      (zrange optimal_iterations) qc in
  let qc := qc_append qc (map (fun q => Measure q q) (range n)) in
  Ok (qc, optimal_iterations).

(** ** State vectors *)

(** The amplitude of every basis index; qubit [q] is bit [q]. *)
Definition Statevector : Type := Z -> R.

Definition bit (j : Z) (q : nat) : bool := Z.testbit j (Z.of_nat q).
Definition flip (j : Z) (q : nat) : Z := Z.lxor j (2 ^ Z.of_nat q).
Definition set_bit (j : Z) (q : nat) : Z := Z.setbit j (Z.of_nat q).
Definition clear_bit (j : Z) (q : nat) : Z := Z.clearbit j (Z.of_nat q).

(** The entry [1/sqrt 2] of the Hadamard matrix. *)
Definition inv_sqrt2 : R := (1 / sqrt 2)%R.

(** Multiplication of one amplitude by [-1] when [b] holds. *)
Definition phase (b : bool) (a : R) : R := if b then (- a)%R else a.

(** The linear map of each instruction on the amplitudes.  [Barrier] does
    nothing; [Measure] is not a unitary and
    [Statevector.from_instruction] refuses it. *)
Definition apply_instruction (g : Instruction) (psi : Statevector)
  : result Statevector :=
  match g with
  | GateH q =>
      Ok (fun j => (inv_sqrt2 *
                    (psi (clear_bit j q) + phase (bit j q) (psi (set_bit j q))))%R)
  | GateX q => Ok (fun j => psi (flip j q))
  | GateZ q => Ok (fun j => phase (bit j q) (psi j))
  | GateCZ c t => Ok (fun j => phase (bit j c && bit j t) (psi j))
  | GateCCZ c1 c2 t =>
      Ok (fun j => phase (bit j c1 && bit j c2 && bit j t) (psi j))
  | GateMCX cs t =>
      Ok (fun j => if forallb (bit j) cs then psi (flip j t) else psi j)
  | Barrier => Ok psi
  | Measure _ _ => Raise QiskitError
  end.

Definition evolve (gs : list Instruction) (psi : Statevector)
  : result Statevector :=
  for_each gs apply_instruction psi.

(** The basis state with every qubit zero. *)
Definition zero_state : Statevector := fun j => if j =? 0 then 1%R else 0%R.

(** [Statevector.from_instruction(qc)], as the list of its [2^n]
    amplitudes in index order. *)
Definition Statevector_from_instruction (qc : QuantumCircuit)
  : result (list R) :=
  psi <- evolve (data qc) zero_state ;;
  Ok (map psi (zrange (2 ^ Z.of_nat (num_qubits qc)))).

(** [[abs(amplitude)**2 for amplitude in statevector]]. *)
Definition probabilities_of (statevector : list R) : list R :=
  map (fun amplitude => (Rabs amplitude ^ 2)%R) statevector.

(** ** [/grover/iterations/{target_state}] *)

Record IterationStep : Type := mkStep {
  step_name : string;
  iteration_number : Z;
  probabilities : dict R;
  target_probability : R
}.

Record GroverIterationResponse : Type := mkIterationResponse {
  gi_target_state : string;
  gi_num_qubits : nat;
  gi_optimal_iterations : Z;
  gi_search_space_size : Z;
  gi_steps : list IterationStep;
  gi_final_amplification : R
}.

(** One recorded step: simulate [qc], square the amplitudes, key them by
    [format(i, f'0{num_qubits}b')] and read the target's entry (lines
    920-929, 942-951, 980-989). *)
Definition record_step (name : string) (iteration : Z) (qc : QuantumCircuit)
  (target_index : Z) : result IterationStep :=
  statevector <- Statevector_from_instruction qc ;;
  let probs := probabilities_of statevector in
  let prob_dict := dict_of_enumerate (format_bin (num_qubits qc)) probs in
  target_prob <- list_get probs target_index ;;
  Ok (mkStep name iteration prob_dict target_prob).

(** The body of the loop at lines 937-991. *)
Definition iteration_body (n : nat) (oracle : QuantumCircuit)
  (target_index : Z) (iteration : Z)
  (st : QuantumCircuit * list IterationStep)
  : result (QuantumCircuit * list IterationStep) :=
  let '(qc, steps) := st in
  let qc := qc_compose qc oracle in
  oracle_step <- record_step "After Oracle" (iteration + 1) qc target_index ;;
  let steps := steps ++ [oracle_step] in
  let qc := qc_append qc (diffusion n) in
  diffusion_step <-
    record_step "After Diffusion" (iteration + 1) qc target_index ;;
  let steps := steps ++ [diffusion_step] in
  Ok (qc, steps).

(** [steps[-1]]. *)
Definition list_last {A : Type} (xs : list A) : result A :=
  match rev xs with
  | x :: _ => Ok x
  | [] => Raise IndexError
  end.

(** [round(x, 2)]: nearest multiple of 1/100, ties to the even one. *)
Definition round2 (x : R) : R :=
  let y := (x * 100)%R in
  let f := Zfloor y in
  let k := if Rlt_dec (y - IZR f) (1 / 2) then f
           else if Rlt_dec (1 / 2) (y - IZR f) then f + 1
           else if Z.even f then f else f + 1 in
  (IZR k / 100)%R.

(** Lines 866-1015. *)
Definition get_grover_iterations (target_state : string)
  : result GroverIterationResponse :=
  _ <- validate_target_state target_state ;;
  except_500
    (let n := String.length target_state in
     let N := 2 ^ Z.of_nat n in
     optimal_iterations <- optimal_iterations_N N ;;
     target_index <- int_base2 target_state ;;
     let qc := mkCircuit n 0 [] in
     let qc := qc_append qc (h_range n) in
     initial_step <-
       record_step "Initial Superposition" 0 qc target_index ;;
     let steps := [initial_step] in
     oracle <- build_simple_grover_oracle target_state ;;
     '(qc, steps) <-
       for_each (zrange optimal_iterations)
                (iteration_body n oracle target_index) (qc, steps) ;;
     let initial_target_prob := (1 / IZR N)%R in
     final_step <- list_last steps ;;
     let final_target_prob := target_probability final_step in
     let amplification := (final_target_prob / initial_target_prob)%R in
     Ok (mkIterationResponse target_state n optimal_iterations N steps
                             (round2 amplification))).

(** ** [/grover/analyze/{target_state}] *)

(** The fields computed with integer and basic float arithmetic.  The
    response also carries [theoretical_success_rate], computed with
    [math.sin] and [math.asin], and rounds [speedup_factor]; neither is
    embedded. *)
Record Analysis : Type := mkAnalysis {
  an_target_state : string;
  an_num_qubits : nat;
  an_search_space_size : Z;
  an_optimal_iterations : Z;
  an_classical_average_tries : float;
  an_quantum_operations : Z;
  an_speedup : float
}.

(** Lines 688-765. *)
Definition analyze_target_state (target_state : string) : result Analysis :=
  _ <- validate_target_state target_state ;;
  let n := String.length target_state in
  let N := 2 ^ Z.of_nat n in
  optimal_iterations <- optimal_iterations_N N ;;
  classical_average <- int_truediv N 2 ;;
  let quantum_operations := optimal_iterations in
  ops <- float_of_int quantum_operations ;;
  speedup <-
    (if PrimFloat.eqb ops 0%float then Raise ZeroDivisionError
     else Ok (PrimFloat.div classical_average ops)) ;;
  Ok (mkAnalysis target_state n N optimal_iterations classical_average
                 quantum_operations speedup).

(** ** [/grover/circuit/{target_state}] *)

(** The fields that do not depend on the transpiler or the drawer. *)
Record CircuitInfo : Type := mkCircuitInfo {
  ci_target_state : string;
  ci_num_qubits : nat;
  ci_num_classical_bits : nat;
  ci_optimal_iterations : Z
}.

(** Lines 777-854. *)
Definition get_circuit_info (target_state : string) : result CircuitInfo :=
  _ <- validate_target_state target_state ;;
  except_500
    ('(circuit, optimal_iterations) <- create_grover_circuit target_state ;;
     Ok (mkCircuitInfo target_state (num_qubits circuit)
                       (num_clbits circuit) optimal_iterations)).

(** The three routes as the client reaches them. *)
Definition GET_grover_analyze : string -> http_response Analysis :=
  get_route analyze_target_state.
Definition GET_grover_circuit : string -> http_response CircuitInfo :=
  get_route get_circuit_info.
Definition GET_grover_iterations
  : string -> http_response GroverIterationResponse :=
  get_route get_grover_iterations.

(** ** [/grover/search] *)

Record GroverRequest : Type := mkRequest {
  rq_target_state : string;
  rq_shots : Z;
  rq_backend : string
}.

Record GroverResponse : Type := mkResponse {
  gr_target_state : string;
  gr_num_qubits : nat;
  gr_optimal_iterations : Z;
  gr_shots : Z;
  gr_success_rate : float;
  gr_measurements : dict Z
}.

(** The [field_validator] of lines 153-165; its [ValueError] becomes a 422
    response. *)
Definition field_validate_target_state (v : string) : result string :=
  if (String.length v =? 0)%nat || negb (all_01 v) then Raise ValueError
  else if (String.length v <? MIN_QUBITS)%nat
          || (MAX_QUBITS <? String.length v)%nat
  then Raise ValueError
  else Ok v.

(** The declared constraints of [GroverRequest] (lines 136-151). *)
Definition request_valid (request : GroverRequest) : bool :=
  pattern_match (rq_target_state request)
  && match field_validate_target_state (rq_target_state request) with
     | Ok _ => true
     | Raise _ => false
     end
  && (100 <=? rq_shots request) && (rq_shots request <=? 10000)
  && String.eqb (rq_backend request) "simulator".

(** [counts.get(key, 0)]. *)
Definition dict_get_default {V : Type} (d : dict V) (k : string) (default : V)
  : V :=
  match dict_get d k with
  | Some v => v
  | None => default
  end.

Definition is_unitary (g : Instruction) : bool :=
  match g with
  | Measure _ _ => false
  | _ => true
  end.

Section MeasurementSampler.

(** The random source of one run: [uniform k] is the variate, in
    [[0, 1)], that decides shot [k]. *)
Variable uniform : nat -> R.

(** Modelled from the spec: the draw of one shot, which Qiskit Aer makes
    and which is not part of this repository.  Section 4.4 asks for
    inverse-CDF sampling from the final distribution: the first index
    whose cumulative probability exceeds the variate. *)
Fixpoint inverse_cdf (probs : list R) (u : R) (i : Z) : Z :=
  match probs with
  | [] => i
  | [_] => i
  | p :: rest =>
      if Rlt_dec u p then i else inverse_cdf rest (u - p) (i + 1)
  end.

(** Modelled from the spec: the tally of [shots] independent draws
    (section 4.4), each incrementing the count of its basis string.
    Stands for [result.get_counts()] of Qiskit Aer, whose keys list the
    classical bits most significant first. *)
Definition tally (n : nat) (probs : list R) (shots : Z) : dict Z :=
  fold_left
    (fun counts k =>
       let key := format_bin n (inverse_cdf probs (uniform k) 0) in
       dict_set key (dict_get_default counts key 0 + 1) counts)
    (seq 0 (Z.to_nat shots)) [].

(** Modelled from the spec: [simulator.run(circuit, shots=...)] followed
    by [job.result().get_counts()] (lines 644-646), which Qiskit Aer
    performs: the distribution before the final measurements is sampled
    [shots] times. *)
Definition simulator_run (circuit : QuantumCircuit) (shots : Z)
  : result (dict Z) :=
  statevector <-
    Statevector_from_instruction
      (mkCircuit (num_qubits circuit) (num_clbits circuit)
                 (filter is_unitary (data circuit))) ;;
  Ok (tally (num_qubits circuit) (probabilities_of statevector) shots).

(** Lines 608-677.  The circuit depth, the execution time and the time
    stamp of the response are not embedded. *)
Definition run_grover_search (request : GroverRequest)
  : result GroverResponse :=
  except_500
    ('(circuit, optimal_iterations) <-
       create_grover_circuit (rq_target_state request) ;;
     counts <- simulator_run circuit (rq_shots request) ;;
     let target_count :=
       dict_get_default counts (rq_target_state request) 0 in
     ratio <- int_truediv target_count (rq_shots request) ;;
     let success_rate := PrimFloat.mul ratio 100%float in
     Ok (mkResponse (rq_target_state request)
                    (String.length (rq_target_state request))
                    optimal_iterations (rq_shots request) success_rate
                    counts)).

(** The POST route: a request that fails its declared constraints is
    answered with 422 before the handler runs. *)
Definition POST_grover_search (request : GroverRequest)
  : http_response GroverResponse :=
  if negb (request_valid request) then Response_error 422
  else respond (run_grover_search request).

End MeasurementSampler.

(** ** Specification-side definitions *)

(** A target the endpoints accept: binary digits only, length within the
    configured bounds. *)
Definition valid_target (target_state : string) : Prop :=
  all_01 target_state = true
  /\ (MIN_QUBITS <= String.length target_state <= MAX_QUBITS)%nat.

(** The iteration count of the specification, over the reals:
    [max(1, floor(pi/4 * sqrt(N/M)))]. *)
Definition spec_optimal_iterations (N M : Z) : Z :=
  Z.max 1 (Zfloor (PI / 4 * sqrt (IZR N / IZR M))).

(** The direct sign flip of the specification's oracle. *)
Definition oracle_flip (target_index : Z) (psi : Statevector) : Statevector :=
  fun j => if j =? target_index then (- psi j)%R else psi j.

(** Sum of a list of reals, and the sum of the first [2^n] amplitudes. *)
Definition Rsum (xs : list R) : R := fold_right Rplus 0%R xs.

Definition amplitude_sum (n : nat) (psi : Statevector) : R :=
  Rsum (map psi (zrange (2 ^ Z.of_nat n))).

(** The mean of the specification's diffusion: [(sum amplitudes) / 2^n]. *)
Definition mean (n : nat) (psi : Statevector) : R :=
  (amplitude_sum n psi / 2 ^ n)%R.

(** Inversion about the average as the specification words it. *)
Definition inversion_about_mean (n : nat) (psi : Statevector) : Statevector :=
  fun j => (2 * mean n psi - psi j)%R.

(** The same reflection with the opposite overall sign. *)
Definition negated_inversion (n : nat) (psi : Statevector) : Statevector :=
  fun j => (psi j - 2 * mean n psi)%R.

(** Agreement of two state vectors on the [2^n] basis indices. *)
Definition agree (n : nat) (psi phi : Statevector) : Prop :=
  forall j, 0 <= j < 2 ^ Z.of_nat n -> psi j = phi j.

Definition Zsum (xs : list Z) : Z := fold_right Z.add 0 xs.

(** ** The two-qubit circuit sent to the hardware *)

(** [for i, bit in enumerate(rev_target): if bit == "0": qc.x(i)]
    (lines 1198-1200 and 1206-1208). *)
Definition x_where_char_zero (rev_target : list ascii) : list Instruction :=
  flat_map (fun ib => if Ascii.eqb (snd ib) "0" then [GateX (fst ib)] else [])
           (enumerate rev_target).

(** The circuit built inside [run_grover_on_ibm_hardware] (lines
    1187-1218): superposition, oracle, diffusion, [measure_all], which
    adds a barrier and measures every qubit into a new two-bit register.
    The request field is declared with [pattern="^[01]{2}$"], so the
    target has two characters when this code runs. *)
Definition hardware_grover_circuit (target : string) : QuantumCircuit :=
  let qc := mkCircuit 2 0 [] in
  let qc := qc_append qc [GateH 0; GateH 1] in
  let rev_target := rev (list_ascii_of_string target) in
  let qc := qc_append qc (x_where_char_zero rev_target) in
  let qc := qc_append qc [GateCZ 0 1] in
  let qc := qc_append qc (x_where_char_zero rev_target) in
  let qc := qc_append qc [GateH 0; GateH 1] in
  let qc := qc_append qc [GateX 0; GateX 1] in
  let qc := qc_append qc [GateCZ 0 1] in
  let qc := qc_append qc [GateX 0; GateX 1] in
  let qc := qc_append qc [GateH 0; GateH 1] in
  mkCircuit 2 2 (data qc ++ [Barrier; Measure 0 0; Measure 1 1]).

(** The declared constraint [pattern="^[01]{2}$"] of [IBMGroverRequest]. *)
Definition hardware_pattern_match (target_state : string) : bool :=
  all_01 target_state && (String.length target_state =? 2)%nat.

(** [str(n)] on a Python int. *)
Definition str_of_int (n : Z) : string := NilZero.string_of_int (Z.to_int n).

(** The tags stored on the submitted job (line 1255):
    [[f"target:{request.target_state}", f"shots:{request.shots}"]]. *)
Definition job_tags (target_state : string) (shots : Z) : list string :=
  [("target:" ++ target_state)%string; ("shots:" ++ str_of_int shots)%string].

(** ** Results of a finished hardware job (lines 1378-1420) *)

(** [s[::-1]]. *)
Definition str_reverse (s : string) : string :=
  string_of_list_ascii (rev (list_ascii_of_string s)).

(** [{bits[::-1]: n for bits, n in counts.items()}] (line 1382). *)
Definition reverse_count_keys (counts : dict Z) : dict Z :=
  fold_left (fun d kv => dict_set (str_reverse (fst kv)) (snd kv) d) counts [].

(** The text before the first [sep] and, when there is one, the text
    after it. *)
Fixpoint split_once (sep : ascii) (s : string) : string * option string :=
  match s with
  | EmptyString => (EmptyString, None)
  | String c s' =>
      if Ascii.eqb c sep then (EmptyString, Some s')
      else let '(before, after) := split_once sep s' in
           (String c before, after)
  end.

(** [s.split(sep, 1)] for a one-character separator. *)
Definition str_split_1 (sep : ascii) (s : string) : list string :=
  match split_once sep s with
  | (before, Some after) => [before; after]
  | (before, None) => [before]
  end.

(** The loop of lines 1387-1390: the first tag that starts with
    ["target:"] gives the target, and the loop stops there. *)
Fixpoint target_of_tags (tags : list string) : result (option string) :=
  match tags with
  | [] => Ok None
  | tag :: rest =>
      if String.prefix "target:" tag
      then target_state <- list_get (str_split_1 ":" tag) 1 ;;
           Ok (Some target_state)
      else target_of_tags rest
  end.

(** The entries of [job_result.results] that do not depend on the clock. *)
Record JobResults : Type := mkJobResults {
  jr_counts : dict Z;
  jr_success_rate : float;
  jr_target_state : option string;
  jr_total_shots : Z
}.

(** Lines 1380-1397, from the counts of the job's bit array and its tags. *)
Definition extract_job_results (raw_counts : dict Z) (tags : list string)
  : result JobResults :=
  let counts := reverse_count_keys raw_counts in
  target_state <- target_of_tags tags ;;
  let total_shots := Zsum (dict_values counts) in
  success_rate <-
    match target_state with
    | Some t =>
        if (String.length t =? 0)%nat then Ok 0%float
        else
          let success_count := dict_get_default counts t 0 in
          ratio <- int_truediv success_count total_shots ;;
          Ok (PrimFloat.mul ratio 100%float)
    | None => Ok 0%float
    end ;;
  Ok (mkJobResults counts success_rate target_state total_shots).

(** The [try ... except Exception] around the extraction (lines 1374 and
    1422-1423): a failure is logged and [results] stays [None]. *)
Definition job_results_or_none (raw_counts : dict Z) (tags : list string)
  : option JobResults :=
  match extract_job_results raw_counts tags with
  | Ok results => Some results
  | Raise _ => None
  end.

(** ** [/info]: the examples of the response (lines 531-568) *)

Record InfoExample : Type := mkInfoExample {
  ex_name : string;
  ex_target_state : string;
  ex_search_space : Z;
  ex_optimal_iterations : Z;
  ex_expected_success_rate : string
}.

Definition get_info_examples : list InfoExample :=
  [mkInfoExample "1_qubit" "1" 2 1 "~100%";
   mkInfoExample "2_qubit" "11" 4 1 "~100%";
   mkInfoExample "3_qubit" "101" 8 2 "~96%";
   mkInfoExample "4_qubit" "1010" 16 3 "~94%";
   mkInfoExample "5_qubit" "10101" 32 4 "~92%";
   mkInfoExample "8_qubit" "10101010" 256 12 "~88%"].

(** ** Definitions used by the proofs *)

Definition iterations_table (n : nat) : Z :=
  nth n [1; 1; 1; 2; 3; 4; 6; 8; 12] 1.

(** Little-endian bit lists. *)
Fixpoint le_value (bs : list bool) : Z :=
  match bs with
  | [] => 0
  | b :: bs' => Z.b2z b + 2 * le_value bs'
  end.

Definition bits_le (n : nat) (i : Z) : list bool :=
  map (fun q => Z.testbit i (Z.of_nat q)) (seq 0 n).

Definition is_one (c : ascii) : bool := Ascii.eqb c "1".
Definition char_of_bit (b : bool) : ascii := if b then "1"%char else "0"%char.

(** The index of a valid target and its bits. *)
Definition target_index_of (target_state : string) : Z :=
  le_value (rev (map is_one (list_ascii_of_string target_state))).

(** Total versions of [apply_instruction] and [evolve]. *)
Definition apply_unitary (g : Instruction) (psi : Statevector) : Statevector :=
  match apply_instruction g psi with
  | Ok phi => phi
  | Raise _ => psi
  end.

Definition run (gs : list Instruction) (psi : Statevector) : Statevector :=
  fold_left (fun psi g => apply_unitary g psi) gs psi.

(** The basis index has every one of the qubits [0 .. n-1] set. *)
Definition all_ones (n : nat) (j : Z) : bool := forallb (bit j) (range n).

(** The index mask of the [X] gates placed by [x_where_zero], the first
    bit of the list standing for qubit [k]. *)
Fixpoint zero_mask (k : nat) (bits : list Z) : Z :=
  match bits with
  | [] => 0
  | b :: bits' =>
      Z.lxor (if b =? 0 then 2 ^ Z.of_nat k else 0) (zero_mask (S k) bits')
  end.

Definition in_range (n : nat) (j : Z) : Prop := 0 <= j < 2 ^ Z.of_nat n.

(** The index marked by an [X]-conjugated multi-controlled [Z]: bit [p] is
    set where the [p]-th listed bit is not zero. *)
Definition marked_index (bits : list Z) : Z :=
  le_value (map (fun b => negb (b =? 0)) bits).

Definition target_bits_of (target_state : string) : list Z :=
  map (fun c => Z.b2z (is_one c)) (rev (list_ascii_of_string target_state)).

Definition oracle_gates (target_state : string) : list Instruction :=
  x_where_zero (target_bits_of target_state)
  ++ multi_controlled_z (String.length target_state)
  ++ x_where_zero (target_bits_of target_state).

Definition hadamard (q : nat) (psi : Statevector) : Statevector :=
  apply_unitary (GateH q) psi.

(** The step recorded for a state: squared amplitudes keyed by the
    formatted index, and the target's squared amplitude. *)
Definition step_of (name : string) (iteration : Z) (n : nat)
  (target_index : Z) (psi : Statevector) : IterationStep :=
  mkStep name iteration
         (map (fun i => (format_bin n i, (Rabs (psi i) ^ 2)%R))
              (zrange (2 ^ Z.of_nat n)))
         (Rabs (psi target_index) ^ 2)%R.

(** The instructions of the traced circuit after [r] complete rounds. *)
Fixpoint trace_data (t : string) (r : nat) : list Instruction :=
  match r with
  | O => h_range (String.length t)
  | S r' => trace_data t r' ++ oracle_gates t ++ diffusion (String.length t)
  end.

Definition state_at (t : string) (r : nat) : Statevector :=
  run (trace_data t r) zero_state.

Definition oracle_state_at (t : string) (r : nat) : Statevector :=
  run (oracle_gates t) (state_at t r).

(** The two steps recorded by round [r + 1]. *)
Definition round_steps (t : string) (r : nat) : list IterationStep :=
  [step_of "After Oracle" (Z.of_nat r + 1) (String.length t)
           (target_index_of t) (oracle_state_at t r);
   step_of "After Diffusion" (Z.of_nat r + 1) (String.length t)
           (target_index_of t) (state_at t (S r))].

Definition trace_steps (t : string) (k : nat) : list IterationStep :=
  step_of "Initial Superposition" 0 (String.length t) (target_index_of t)
          (state_at t 0)
  :: flat_map (round_steps t) (seq 0 k).

(** Sum of the squared amplitudes over the [2^n] basis indices. *)
Definition norm_sq (n : nat) (psi : Statevector) : R :=
  Rsum (map (fun i => (Rabs (psi i) ^ 2)%R) (zrange (2 ^ Z.of_nat n))).

(** ** Further definitions used by the proofs *)

(** A decimal digit, the characters [int(c)] accepts. *)
Definition is_digit (c : ascii) : bool :=
  (48 <=? Z.of_nat (nat_of_ascii c)) && (Z.of_nat (nat_of_ascii c) <=? 57).

(** A character of the ASCII range, where a byte of the text and a code
    point of the Python string are the same thing. *)
Definition is_ascii (c : ascii) : bool :=
  Z.of_nat (nat_of_ascii c) <? 128.

(** The constraints of [GroverRequest], as propositions. *)
Definition request_ok (request : GroverRequest) : Prop :=
  valid_target (rq_target_state request)
  /\ 100 <= rq_shots request <= 10000
  /\ rq_backend request = "simulator"%string.

(** A state with amplitude [a] on the target and [b] everywhere else. *)
Definition two_valued (target_index : Z) (a b : R) : Statevector :=
  fun j => if j =? target_index then a else b.

(** Grover's step on the pair (target amplitude, other amplitude), scaled
    to integers: after [r] rounds the amplitudes are these numerators
    times [(1/sqrt 2)^n / N^r], up to a common sign. *)
Fixpoint grover_numerators (N : Z) (r : nat) : Z * Z :=
  match r with
  | O => (1, 1)
  | S r' =>
      let '(A, B) := grover_numerators N r' in
      (- (N - 2) * A - 2 * (N - 1) * B, 2 * A - (N - 2) * B)
  end.

(** The probability of the target and of any other state after [r]
    rounds on [n] qubits. *)
Definition target_probability_after (n r : nat) : R :=
  (IZR (fst (grover_numerators (2 ^ Z.of_nat n) r) ^ 2)
   / IZR ((2 ^ Z.of_nat n) ^ (2 * Z.of_nat r + 1)))%R.

Definition other_probability_after (n r : nat) : R :=
  (IZR (snd (grover_numerators (2 ^ Z.of_nat n) r) ^ 2)
   / IZR ((2 ^ Z.of_nat n) ^ (2 * Z.of_nat r + 1)))%R.

(** * Lemmas *)

Lemma optimal_iterations_default (n : nat) :
  (1 <= n <= 8)%nat ->
  optimal_iterations_N (2 ^ Z.of_nat n) = Ok (iterations_table n)
  /\ optimal_iterations_N_over_M (2 ^ Z.of_nat n) 1 = Ok (iterations_table n).
Proof.
  intros Hn.
  do 9 (destruct n as [|n]; [try lia; split; vm_compute; reflexivity|]).
  lia.
Qed.

Lemma PI_bounds : (3.14 < PI < 3.15)%R.
Proof.
  pose proof (PI_2_3_7_ineq 1) as H.
  unfold sum_f_R0, tg_alt, PI_2_3_7_tg, Ratan_seq in H.
  simpl in H.
  lra.
Qed.

Lemma sqrt2_bounds : (1.41 < sqrt 2 < 1.42)%R.
Proof.
  split.
  - replace 1.41%R with (sqrt (1.41 * 1.41)) by (apply sqrt_square; lra).
    apply sqrt_lt_1; lra.
  - replace 1.42%R with (sqrt (1.42 * 1.42)) by (apply sqrt_square; lra).
    apply sqrt_lt_1; lra.
Qed.

Lemma PI_sqrt2_bounds : (4.4 < PI * sqrt 2 < 4.5)%R.
Proof.
  pose proof PI_bounds as [P1 P2]. pose proof sqrt2_bounds as [S1 S2].
  split; nra.
Qed.

Lemma sqrt_even_pow (k : R) : (0 <= k)%R -> sqrt (k * k) = k.
Proof. intros; now apply sqrt_square. Qed.

Lemma sqrt_odd_pow (k : R) : (0 <= k)%R -> sqrt (k * k * 2) = (k * sqrt 2)%R.
Proof.
  intros Hk. rewrite sqrt_mult by nra. now rewrite sqrt_square.
Qed.

Lemma spec_optimal_iterations_default (n : nat) :
  (1 <= n <= 8)%nat ->
  spec_optimal_iterations (2 ^ Z.of_nat n) 1 = iterations_table n.
Proof.
  intros Hn. unfold spec_optimal_iterations.
  pose proof PI_bounds as [P1 P2]. pose proof PI_sqrt2_bounds as [Q1 Q2].
  rewrite Rdiv_1_r.
  assert (Hc : (n = 1 \/ n = 2 \/ n = 3 \/ n = 4 \/ n = 5 \/ n = 6
               \/ n = 7 \/ n = 8)%nat) by lia.
  destruct Hc as [->|[->|[->|[->|[->|[->|[->| ->]]]]]]].
  - change (2 ^ Z.of_nat 1) with 2.
    rewrite (Zfloor_eq 1); [reflexivity|]. lra.
  - change (2 ^ Z.of_nat 2) with 4.
    replace (IZR 4) with (2 * 2)%R by lra. rewrite sqrt_even_pow by lra.
    rewrite (Zfloor_eq 1); [reflexivity|]. lra.
  - change (2 ^ Z.of_nat 3) with 8.
    replace (IZR 8) with (2 * 2 * 2)%R by lra. rewrite sqrt_odd_pow by lra.
    rewrite (Zfloor_eq 2); [reflexivity|]. lra.
  - change (2 ^ Z.of_nat 4) with 16.
    replace (IZR 16) with (4 * 4)%R by lra. rewrite sqrt_even_pow by lra.
    rewrite (Zfloor_eq 3); [reflexivity|]. lra.
  - change (2 ^ Z.of_nat 5) with 32.
    replace (IZR 32) with (4 * 4 * 2)%R by lra. rewrite sqrt_odd_pow by lra.
    rewrite (Zfloor_eq 4); [reflexivity|]. lra.
  - change (2 ^ Z.of_nat 6) with 64.
    replace (IZR 64) with (8 * 8)%R by lra. rewrite sqrt_even_pow by lra.
    rewrite (Zfloor_eq 6); [reflexivity|]. lra.
  - change (2 ^ Z.of_nat 7) with 128.
    replace (IZR 128) with (8 * 8 * 2)%R by lra. rewrite sqrt_odd_pow by lra.
    rewrite (Zfloor_eq 8); [reflexivity|]. lra.
  - change (2 ^ Z.of_nat 8) with 256.
    replace (IZR 256) with (16 * 16)%R by lra. rewrite sqrt_even_pow by lra.
    rewrite (Zfloor_eq 12); [reflexivity|]. lra.
Qed.

Lemma le_value_range bs : 0 <= le_value bs < 2 ^ Z.of_nat (List.length bs).
Proof.
  induction bs as [|b bs IH]; simpl List.length; [cbn; lia|].
  rewrite Nat2Z.inj_succ, Z.pow_succ_r by lia.
  cbn [le_value]. destruct b; cbn [Z.b2z]; lia.
Qed.

Lemma le_value_app bs b :
  le_value (bs ++ [b]) = le_value bs + Z.b2z b * 2 ^ Z.of_nat (List.length bs).
Proof.
  induction bs as [|c bs IH]; simpl List.length.
  - simpl. lia.
  - rewrite Nat2Z.inj_succ, Z.pow_succ_r by lia.
    cbn [app le_value]. rewrite IH. lia.
Qed.

Lemma testbit_le_value bs (q : nat) :
  Z.testbit (le_value bs) (Z.of_nat q) = nth q bs false.
Proof.
  revert q. induction bs as [|b bs IH]; intros q.
  - simpl. rewrite Z.testbit_0_l. now destruct q.
  - cbn [le_value]. rewrite Z.add_comm. destruct q as [|q].
    + simpl. apply Z.testbit_0_r.
    + rewrite Nat2Z.inj_succ, Z.testbit_succ_r by lia. simpl. apply IH.
Qed.

Lemma bits_le_cons n a b :
  bits_le (S n) (Z.b2z b + 2 * a) = b :: bits_le n a.
Proof.
  replace (Z.b2z b + 2 * a) with (2 * a + Z.b2z b) by lia.
  unfold bits_le. cbn [seq map]. f_equal.
  - apply Z.testbit_0_r.
  - rewrite <- seq_shift, map_map. apply map_ext. intros q.
    rewrite Nat2Z.inj_succ, Z.testbit_succ_r by lia. reflexivity.
Qed.

Lemma bits_le_le_value bs : bits_le (List.length bs) (le_value bs) = bs.
Proof.
  induction bs as [|b bs IH]; [reflexivity|].
  cbn [List.length le_value]. now rewrite bits_le_cons, IH.
Qed.

Lemma bits_le_zero n : bits_le n 0 = repeat false n.
Proof.
  unfold bits_le. induction n as [|n IH]; [reflexivity|].
  rewrite seq_S, map_app, IH. simpl. rewrite Z.testbit_0_l.
  now rewrite repeat_cons.
Qed.

Lemma bits_le_length n i : List.length (bits_le n i) = n.
Proof. unfold bits_le. now rewrite length_map, length_seq. Qed.

(** A non-negative number below [2^n] has no bit at or above [n]. *)
Lemma testbit_high (n : nat) (i q : Z) :
  0 <= i < 2 ^ Z.of_nat n -> Z.of_nat n <= q -> Z.testbit i q = false.
Proof.
  intros Hi Hq. destruct (Z.eq_dec i 0) as [->|Hz]; [apply Z.testbit_0_l|].
  apply Z.bits_above_log2; [lia|].
  assert (Z.log2 i < Z.of_nat n) by (apply Z.log2_lt_pow2; lia). lia.
Qed.

Lemma below_pow2_of_bits (n : nat) (i : Z) :
  0 <= i -> (forall q, Z.of_nat n <= q -> Z.testbit i q = false) ->
  i < 2 ^ Z.of_nat n.
Proof.
  intros Hi Hb. destruct (Z.eq_dec i 0) as [->|Hz]; [apply Z.pow_pos_nonneg; lia|].
  apply Z.log2_lt_pow2; [lia|].
  destruct (Z_lt_le_dec (Z.log2 i) (Z.of_nat n)) as [|Hge]; [assumption|].
  specialize (Hb _ Hge). rewrite Z.bit_log2 in Hb by lia. discriminate.
Qed.

Lemma le_value_bits_le (n : nat) (i : Z) :
  0 <= i < 2 ^ Z.of_nat n -> le_value (bits_le n i) = i.
Proof.
  intros Hi. apply Z.bits_inj'. intros q Hq.
  rewrite <- (Z2Nat.id q) by lia. rewrite testbit_le_value.
  destruct (Nat.lt_ge_cases (Z.to_nat q) n) as [Hlt|Hge].
  - unfold bits_le.
    rewrite (nth_indep _ false (Z.testbit i (Z.of_nat 0)))
      by now rewrite length_map, length_seq.
    rewrite (map_nth (fun q => Z.testbit i (Z.of_nat q))), seq_nth by lia.
    reflexivity.
  - rewrite nth_overflow by now rewrite bits_le_length.
    symmetry. apply (testbit_high n); lia.
Qed.

(** Parsing. *)
Lemma int_base2_from_value cs acc :
  forallb in_01 cs = true ->
  int_base2_from acc cs =
  Ok (acc * 2 ^ Z.of_nat (List.length cs) + le_value (rev (map is_one cs))).
Proof.
  revert acc. induction cs as [|c cs IH]; intros acc Hcs.
  - cbn. f_equal. lia.
  - cbn [forallb] in Hcs. apply andb_true_iff in Hcs as [Hc Hcs].
    unfold in_01 in Hc. cbn [int_base2_from map rev].
    rewrite le_value_app, length_rev, length_map.
    cbn [List.length]. rewrite Nat2Z.inj_succ, Z.pow_succ_r by lia.
    unfold is_one at 2.
    destruct (Ascii.eqb c "0") eqn:E0.
    + apply Ascii.eqb_eq in E0. subst c. cbn [Ascii.eqb Bool.eqb].
      rewrite IH by assumption. f_equal. cbn [Z.b2z]. lia.
    + cbn [orb] in Hc. rewrite Hc. rewrite IH by assumption. f_equal.
      cbn [Z.b2z]. lia.
Qed.

Lemma char_of_bit_is_one cs :
  forallb in_01 cs = true -> map char_of_bit (map is_one cs) = cs.
Proof.
  induction cs as [|c cs IH]; intros H; [reflexivity|].
  simpl in H. apply andb_true_iff in H as [Hc H]. simpl. rewrite IH by assumption.
  f_equal. unfold in_01 in Hc. apply orb_true_iff in Hc as [Hc|Hc];
    apply Ascii.eqb_eq in Hc; subst c; reflexivity.
Qed.

Lemma is_one_char_of_bit bs : map is_one (map char_of_bit bs) = bs.
Proof.
  induction bs as [|b bs IH]; [reflexivity|]. simpl. rewrite IH.
  now destruct b.
Qed.

Lemma in_01_char_of_bit bs : forallb in_01 (map char_of_bit bs) = true.
Proof. induction bs as [|b bs IH]; [reflexivity|]. simpl. rewrite IH. now destruct b. Qed.

(** Formatting. *)
Lemma bin_digits_length p : List.length (bin_digits p) = Pos.size_nat p.
Proof.
  induction p as [p IH|p IH|]; simpl; [| |reflexivity];
    rewrite length_app, IH; simpl; lia.
Qed.

Lemma zfill_snoc n cs c :
  (List.length cs < S n)%nat ->
  zfill (S n) (cs ++ [c]) = zfill n cs ++ [c].
Proof.
  intros H. unfold zfill. rewrite length_app. simpl List.length.
  replace (S n - (List.length cs + 1))%nat with (n - List.length cs)%nat by lia.
  now rewrite app_assoc.
Qed.

Lemma zfill_bin_digits p (n : nat) :
  (Pos.size_nat p <= n)%nat ->
  zfill n (bin_digits p) = map char_of_bit (rev (bits_le n (Zpos p))).
Proof.
  revert n. induction p as [p IH|p IH|]; intros n Hn; simpl in Hn.
  - destruct n as [|n]; [lia|].
    change (Z.pos p~1) with (Z.b2z true + 2 * Z.pos p).
    rewrite bits_le_cons. simpl rev. rewrite map_app. simpl bin_digits.
    rewrite zfill_snoc by (rewrite bin_digits_length; lia).
    rewrite IH by lia. reflexivity.
  - destruct n as [|n]; [lia|].
    change (Z.pos p~0) with (Z.b2z false + 2 * Z.pos p).
    rewrite bits_le_cons. simpl rev. rewrite map_app. simpl bin_digits.
    rewrite zfill_snoc by (rewrite bin_digits_length; lia).
    rewrite IH by lia. reflexivity.
  - destruct n as [|n]; [lia|].
    change 1 with (Z.b2z true + 2 * 0).
    rewrite bits_le_cons, bits_le_zero. simpl rev. rewrite map_app, rev_repeat.
    unfold zfill. simpl. rewrite Nat.sub_0_r.
    rewrite map_repeat. reflexivity.
Qed.

Lemma format_bin_chars (n : nat) (i : Z) :
  (1 <= n)%nat -> 0 <= i < 2 ^ Z.of_nat n ->
  list_ascii_of_string (format_bin n i) = map char_of_bit (rev (bits_le n i)).
Proof.
  intros Hn Hi. unfold format_bin. destruct i as [|p|p]; [| |lia].
  - rewrite list_ascii_of_string_of_list_ascii, bits_le_zero, rev_repeat,
      map_repeat.
    unfold zfill. cbn [List.length char_of_bit].
    replace n with (n - 1 + 1)%nat at 2 by lia.
    now rewrite repeat_app.
  - rewrite list_ascii_of_string_of_list_ascii.
    apply zfill_bin_digits. apply Zpower2_Psize. lia.
Qed.

Lemma string_length_chars s : String.length s = List.length (list_ascii_of_string s).
Proof. induction s as [|c s IH]; [reflexivity|]. cbn. now rewrite IH. Qed.

Lemma format_bin_length (n : nat) (i : Z) :
  (1 <= n)%nat -> 0 <= i < 2 ^ Z.of_nat n ->
  String.length (format_bin n i) = n.
Proof.
  intros Hn Hi.
  rewrite string_length_chars, format_bin_chars by assumption.
  now rewrite length_map, length_rev, bits_le_length.
Qed.

Lemma format_bin_all_01 (n : nat) (i : Z) :
  (1 <= n)%nat -> 0 <= i < 2 ^ Z.of_nat n -> all_01 (format_bin n i) = true.
Proof.
  intros Hn Hi. unfold all_01. rewrite format_bin_chars by assumption.
  apply in_01_char_of_bit.
Qed.

Lemma int_base2_chars s :
  s <> EmptyString -> all_01 s = true ->
  int_base2 s = Ok (le_value (rev (map is_one (list_ascii_of_string s)))).
Proof.
  intros Hs H. unfold int_base2.
  destruct (list_ascii_of_string s) as [|c cs] eqn:E.
  - destruct s; [congruence|discriminate].
  - unfold all_01 in H. rewrite E in H.
    rewrite int_base2_from_value by assumption. f_equal.
Qed.

Lemma int_base2_format_bin (n : nat) (i : Z) :
  (1 <= n)%nat -> 0 <= i < 2 ^ Z.of_nat n ->
  int_base2 (format_bin n i) = Ok i.
Proof.
  intros Hn Hi. rewrite int_base2_chars.
  - rewrite format_bin_chars, is_one_char_of_bit, rev_involutive by assumption.
    now rewrite le_value_bits_le.
  - intros E. pose proof (format_bin_length n i Hn Hi) as L.
    rewrite E in L. cbn in L. lia.
  - now apply format_bin_all_01.
Qed.

Lemma format_bin_inj (n : nat) (i j : Z) :
  (1 <= n)%nat -> 0 <= i < 2 ^ Z.of_nat n -> 0 <= j < 2 ^ Z.of_nat n ->
  format_bin n i = format_bin n j -> i = j.
Proof.
  intros Hn Hi Hj E.
  pose proof (int_base2_format_bin n i Hn Hi) as Ei.
  rewrite E, int_base2_format_bin in Ei by assumption. congruence.
Qed.

Lemma valid_target_nonempty t : valid_target t -> t <> EmptyString.
Proof. intros [_ [H _]] ->. unfold MIN_QUBITS in H. cbn in H. lia. Qed.

Lemma int_base2_valid t :
  valid_target t -> int_base2 t = Ok (target_index_of t).
Proof.
  intros Hv. apply int_base2_chars; [now apply valid_target_nonempty|apply Hv].
Qed.

Lemma target_index_range t :
  0 <= target_index_of t < 2 ^ Z.of_nat (String.length t).
Proof.
  unfold target_index_of.
  pose proof (le_value_range (rev (map is_one (list_ascii_of_string t)))) as H.
  now rewrite length_rev, length_map, <- string_length_chars in H.
Qed.

Lemma format_bin_target_index t :
  valid_target t -> format_bin (String.length t) (target_index_of t) = t.
Proof.
  intros Hv. pose proof Hv as [H01 [Hmin _]].
  rewrite <- (string_of_list_ascii_of_string (format_bin _ _)).
  rewrite format_bin_chars by (unfold MIN_QUBITS in Hmin; auto using target_index_range; lia).
  unfold target_index_of.
  replace (String.length t)
    with (List.length (rev (map is_one (list_ascii_of_string t))))
    by now rewrite length_rev, length_map, <- string_length_chars.
  rewrite bits_le_le_value, rev_involutive, char_of_bit_is_one by apply H01.
  apply string_of_list_ascii_of_string.
Qed.

(** [[int(bit) for bit in target_state[::-1]]] on binary digits. *)
Lemma ints_of_chars_01 cs :
  forallb in_01 cs = true ->
  ints_of_chars cs = Ok (map (fun c => Z.b2z (is_one c)) cs).
Proof.
  induction cs as [|c cs IH]; intros H; [reflexivity|].
  cbn [forallb] in H. apply andb_true_iff in H as [Hc H].
  cbn [ints_of_chars map]. rewrite IH by assumption.
  unfold in_01 in Hc. apply orb_true_iff in Hc as [Hc|Hc];
    apply Ascii.eqb_eq in Hc; subst c; reflexivity.
Qed.

(** *** Bits *)

Lemma bit_pow2 (q p : nat) : bit (2 ^ Z.of_nat q) p = (q =? p)%nat.
Proof.
  unfold bit. rewrite Z.pow2_bits_eqb by lia.
  destruct (Nat.eqb_spec q p) as [->|Hne]; [apply Z.eqb_refl|].
  apply Z.eqb_neq. lia.
Qed.

Lemma bit_flip j (q p : nat) : bit (flip j q) p = xorb (bit j p) (q =? p)%nat.
Proof. unfold flip. unfold bit at 1. rewrite Z.lxor_spec. fold (bit j p).
  fold (bit (2 ^ Z.of_nat q) p). now rewrite bit_pow2. Qed.

Lemma bit_set_bit j (q p : nat) : bit (set_bit j q) p = ((q =? p)%nat || bit j p)%bool.
Proof.
  unfold bit, set_bit. rewrite Z.setbit_eqb by lia. f_equal.
  destruct (Nat.eqb_spec q p) as [->|Hne]; [apply Z.eqb_refl|].
  apply Z.eqb_neq. lia.
Qed.

Lemma bit_clear_bit j (q p : nat) :
  bit (clear_bit j q) p = (bit j p && negb (q =? p)%nat)%bool.
Proof.
  unfold bit, clear_bit. rewrite Z.clearbit_eqb by lia. f_equal. f_equal.
  destruct (Nat.eqb_spec q p) as [->|Hne]; [apply Z.eqb_refl|].
  apply Z.eqb_neq. lia.
Qed.

(** Two integers with the same bits at every qubit position are equal. *)
Lemma bit_ext (a b : Z) : (forall p : nat, bit a p = bit b p) -> a = b.
Proof.
  intros H. apply Z.bits_inj'. intros q Hq.
  specialize (H (Z.to_nat q)). unfold bit in H. now rewrite Z2Nat.id in H by lia.
Qed.

Ltac bits :=
  apply bit_ext; intros ?p;
  repeat first [rewrite bit_flip | rewrite bit_set_bit | rewrite bit_clear_bit];
  repeat match goal with
         | |- context [(?a =? ?b)%nat] => destruct (Nat.eqb_spec a b); subst
         end;
  repeat match goal with
         | H : bit _ _ = _ |- _ => rewrite H
         end;
  repeat match goal with
         | |- context [bit ?j ?p] => destruct (bit j p)
         end;
  try reflexivity; try congruence.

Lemma set_bit_set j q : bit j q = true -> set_bit j q = j.
Proof. intros H. bits. Qed.

Lemma clear_bit_clear j q : bit j q = false -> clear_bit j q = j.
Proof. intros H. bits. Qed.

Lemma set_set j q : set_bit (set_bit j q) q = set_bit j q.
Proof. bits. Qed.
Lemma set_clear j q : set_bit (clear_bit j q) q = set_bit j q.
Proof. bits. Qed.
Lemma clear_set j q : clear_bit (set_bit j q) q = clear_bit j q.
Proof. bits. Qed.
Lemma clear_clear j q : clear_bit (clear_bit j q) q = clear_bit j q.
Proof. bits. Qed.
Lemma flip_clear j q : flip (clear_bit j q) q = set_bit j q.
Proof. bits. Qed.
Lemma flip_set j q : flip (set_bit j q) q = clear_bit j q.
Proof. bits. Qed.

Lemma set_bit_comm j a b : set_bit (set_bit j a) b = set_bit (set_bit j b) a.
Proof. bits. Qed.
Lemma clear_bit_comm j a b :
  clear_bit (clear_bit j a) b = clear_bit (clear_bit j b) a.
Proof. bits. Qed.
Lemma set_clear_comm j a b :
  a <> b -> set_bit (clear_bit j a) b = clear_bit (set_bit j b) a.
Proof. intros H. bits. Qed.

(** *** Basis indices below [2^n] *)

Lemma in_range_bits n j :
  in_range n j <-> 0 <= j /\ forall p, (n <= p)%nat -> bit j p = false.
Proof.
  unfold in_range, bit. split.
  - intros H. split; [lia|]. intros p Hp. apply (testbit_high n); lia.
  - intros [H0 Hb]. split; [assumption|]. apply below_pow2_of_bits; [assumption|].
    intros q Hq. specialize (Hb (Z.to_nat q)). rewrite Z2Nat.id in Hb by lia.
    apply Hb. lia.
Qed.

Lemma in_range_set_bit n j q : (q < n)%nat -> in_range n j -> in_range n (set_bit j q).
Proof.
  intros Hq Hj. apply in_range_bits in Hj as [H0 Hb]. apply in_range_bits. split.
  - unfold set_bit. rewrite Z.setbit_spec'. apply Z.lor_nonneg. split; [assumption|].
    apply Z.pow_nonneg. lia.
  - intros p Hp. rewrite bit_set_bit, Hb by assumption.
    destruct (Nat.eqb_spec q p); [lia|reflexivity].
Qed.

Lemma in_range_clear_bit n j q : in_range n j -> in_range n (clear_bit j q).
Proof.
  intros Hj. apply in_range_bits in Hj as [H0 Hb]. apply in_range_bits. split.
  - unfold clear_bit. rewrite Z.clearbit_spec'. apply Z.ldiff_nonneg. now left.
  - intros p Hp. now rewrite bit_clear_bit, Hb.
Qed.

Lemma in_range_lxor n j m : in_range n j -> in_range n m -> in_range n (Z.lxor j m).
Proof.
  intros Hj Hm. apply in_range_bits in Hj as [H0 Hb].
  apply in_range_bits in Hm as [M0 Mb]. apply in_range_bits. split.
  - apply Z.lxor_nonneg. lia.
  - intros p Hp. unfold bit. rewrite Z.lxor_spec. fold (bit j p) (bit m p).
    now rewrite Hb, Mb.
Qed.

Lemma in_range_pow2 n q : (q < n)%nat -> in_range n (2 ^ Z.of_nat q).
Proof.
  intros Hq. split; [apply Z.pow_nonneg; lia|].
  apply Z.pow_lt_mono_r; lia.
Qed.

Lemma in_range_eq n a b :
  in_range n a -> in_range n b ->
  (forall p, (p < n)%nat -> bit a p = bit b p) -> a = b.
Proof.
  intros Ha Hb H. apply in_range_bits in Ha as [_ Ha].
  apply in_range_bits in Hb as [_ Hb]. apply bit_ext. intros p.
  destruct (Nat.lt_ge_cases p n) as [Hlt|Hge]; [now apply H|].
  now rewrite Ha, Hb.
Qed.

(** *** Evolution of instruction lists *)

Lemma run_app gs hs psi : run (gs ++ hs) psi = run hs (run gs psi).
Proof. unfold run. apply fold_left_app. Qed.

Lemma evolve_run gs psi :
  forallb is_unitary gs = true -> evolve gs psi = Ok (run gs psi).
Proof.
  revert psi. induction gs as [|g gs IH]; intros psi H; [reflexivity|].
  cbn [forallb] in H. apply andb_true_iff in H as [Hg H].
  unfold evolve. cbn [for_each]. unfold run. cbn [fold_left].
  unfold apply_unitary at 2.
  destruct g; try discriminate; cbn [apply_instruction bind]; apply IH; assumption.
Qed.

Lemma is_unitary_app gs hs :
  forallb is_unitary (gs ++ hs) = (forallb is_unitary gs && forallb is_unitary hs)%bool.
Proof. apply forallb_app. Qed.

Lemma is_unitary_h_range n : forallb is_unitary (h_range n) = true.
Proof. unfold h_range. apply forallb_forall. intros g Hg. apply in_map_iff in Hg as [q [<- _]]. reflexivity. Qed.

Lemma is_unitary_x_range n : forallb is_unitary (x_range n) = true.
Proof. unfold x_range. apply forallb_forall. intros g Hg. apply in_map_iff in Hg as [q [<- _]]. reflexivity. Qed.

Lemma is_unitary_mcz n : forallb is_unitary (multi_controlled_z n) = true.
Proof.
  destruct n as [|[|[|[|n]]]]; reflexivity.
Qed.

Lemma is_unitary_x_where_zero bits : forallb is_unitary (x_where_zero bits) = true.
Proof.
  unfold x_where_zero. apply forallb_forall. intros g Hg.
  apply in_flat_map in Hg as [[i b] [_ Hg]]. cbn [fst snd] in Hg.
  destruct (b =? 0); [|contradiction]. destruct Hg as [<-|[]]. reflexivity.
Qed.

Lemma is_unitary_diffusion n : forallb is_unitary (diffusion n) = true.
Proof.
  unfold diffusion. rewrite !is_unitary_app, !is_unitary_h_range,
    !is_unitary_x_range, is_unitary_mcz. reflexivity.
Qed.

(** *** The [X] layers *)

Lemma run_x_where_zero_from k bits psi :
  run (flat_map (fun ib : nat * Z => if snd ib =? 0 then [GateX (fst ib)] else [])
                (combine (seq k (List.length bits)) bits)) psi
  = fun j => psi (Z.lxor j (zero_mask k bits)).
Proof.
  revert k psi. induction bits as [|b bits IH]; intros k psi.
  - cbn. extensionality j. now rewrite Z.lxor_0_r.
  - cbn [List.length seq combine flat_map fst snd zero_mask].
    rewrite run_app, IH. extensionality j.
    destruct (b =? 0).
    + unfold run, apply_unitary. cbn [fold_left apply_instruction].
      unfold flip. f_equal.
      rewrite (Z.lxor_comm (2 ^ Z.of_nat k)). now rewrite Z.lxor_assoc.
    + unfold run. cbn [fold_left]. now rewrite Z.lxor_0_l.
Qed.

Lemma run_x_where_zero bits psi :
  run (x_where_zero bits) psi = fun j => psi (Z.lxor j (zero_mask 0 bits)).
Proof. apply run_x_where_zero_from. Qed.

Lemma bit_zero_mask k bits p :
  bit (zero_mask k bits) p
  = ((k <=? p)%nat && (p <? k + List.length bits)%nat
     && (nth (p - k) bits 1 =? 0))%bool.
Proof.
  revert k. induction bits as [|b bits IH]; intros k.
  - cbn [zero_mask List.length]. unfold bit. rewrite Z.testbit_0_l.
    destruct (Nat.leb_spec k p), (Nat.ltb_spec p (k + 0)); try reflexivity; lia.
  - cbn [zero_mask List.length]. unfold bit. rewrite Z.lxor_spec.
    fold (bit (zero_mask (S k) bits) p). rewrite IH.
    fold (bit (if b =? 0 then 2 ^ Z.of_nat k else 0) p).
    assert (Hb : bit (if b =? 0 then 2 ^ Z.of_nat k else 0) p
                 = ((k =? p)%nat && (b =? 0))%bool).
    { destruct (b =? 0); [rewrite bit_pow2; now rewrite andb_true_r|].
      unfold bit. rewrite Z.testbit_0_l. now rewrite andb_false_r. }
    rewrite Hb. clear Hb.
    destruct (Nat.eqb_spec k p) as [E|Hne]; [subst k|].
    + replace (p - p)%nat with 0%nat by lia. cbn [nth].
      destruct (Nat.leb_spec (S p) p); [lia|].
      destruct (Nat.leb_spec p p); [|lia].
      destruct (Nat.ltb_spec p (p + S (List.length bits))); [|lia].
      cbn. now rewrite xorb_false_r.
    + destruct (Nat.leb_spec (S k) p), (Nat.leb_spec k p); try lia; cbn [andb xorb].
      * replace (p - k)%nat with (S (p - S k)) by lia. cbn [nth].
        replace (k + S (List.length bits))%nat with (S k + List.length bits)%nat by lia.
        reflexivity.
      * reflexivity.
Qed.

(** *** The multi-controlled [Z] block *)

Lemma inv_sqrt2_sq : (2 * (inv_sqrt2 * inv_sqrt2) = 1)%R.
Proof.
  unfold inv_sqrt2. assert (H : (sqrt 2 * sqrt 2 = 2)%R) by (apply sqrt_def; lra).
  assert (Hp : (0 < sqrt 2)%R) by (apply sqrt_lt_R0; lra).
  field_simplify; [|lra]. rewrite <- Rsqr_pow2. unfold Rsqr. rewrite H. field.
Qed.

Lemma all_ones_S n j : all_ones (S n) j = (all_ones n j && bit j n)%bool.
Proof.
  unfold all_ones, range. rewrite seq_S, forallb_app. cbn. now rewrite andb_true_r.
Qed.

Lemma forallb_bit_clear j t cs :
  ~ In t cs -> forallb (bit (clear_bit j t)) cs = forallb (bit j) cs.
Proof.
  intros H. induction cs as [|c cs IH]; [reflexivity|].
  cbn [forallb]. rewrite IH by (intros X; apply H; now right).
  rewrite bit_clear_bit. destruct (Nat.eqb_spec t c) as [->|_].
  - exfalso. apply H. now left.
  - now rewrite andb_true_r.
Qed.

Lemma forallb_bit_set j t cs :
  ~ In t cs -> forallb (bit (set_bit j t)) cs = forallb (bit j) cs.
Proof.
  intros H. induction cs as [|c cs IH]; [reflexivity|].
  cbn [forallb]. rewrite IH by (intros X; apply H; now right).
  rewrite bit_set_bit. destruct (Nat.eqb_spec t c) as [->|_].
  - exfalso. apply H. now left.
  - reflexivity.
Qed.

Lemma run_h_mcx_h cs t psi :
  ~ In t cs ->
  run [GateH t; GateMCX cs t; GateH t] psi
  = fun j => phase (forallb (bit j) cs && bit j t) (psi j).
Proof.
  intros Ht. extensionality j. cbn.
  rewrite forallb_bit_clear, forallb_bit_set by assumption.
  rewrite flip_clear, flip_set.
  rewrite ?set_set, ?clear_set, ?set_clear, ?clear_clear.
  rewrite ?bit_set_bit, ?bit_clear_bit, ?Nat.eqb_refl.
  rewrite ?andb_false_r, ?orb_true_l.
  pose proof inv_sqrt2_sq as Hh.
  assert (Hs : bit j t = true -> psi (set_bit j t) = psi j)
    by (intros Hb; now rewrite set_bit_set).
  assert (Hc : bit j t = false -> psi (clear_bit j t) = psi j)
    by (intros Hb; now rewrite clear_bit_clear).
  destruct (forallb (bit j) cs), (bit j t); cbn [andb phase];
    rewrite ?Hs, ?Hc by reflexivity.
  - transitivity (- (2 * (inv_sqrt2 * inv_sqrt2)) * psi j)%R; [ring|].
    rewrite Hh. ring.
  - transitivity ((2 * (inv_sqrt2 * inv_sqrt2)) * psi j)%R; [ring|].
    rewrite Hh. ring.
  - transitivity ((2 * (inv_sqrt2 * inv_sqrt2)) * psi j)%R; [ring|].
    rewrite Hh. ring.
  - transitivity ((2 * (inv_sqrt2 * inv_sqrt2)) * psi j)%R; [ring|].
    rewrite Hh. ring.
Qed.

Lemma run_multi_controlled_z n psi :
  (1 <= n)%nat ->
  run (multi_controlled_z n) psi = fun j => phase (all_ones n j) (psi j).
Proof.
  intros Hn. destruct n as [|[|[|[|n]]]]; [lia| | | |].
  - extensionality j. cbn. now rewrite andb_true_r.
  - extensionality j. cbn. now rewrite andb_true_r.
  - extensionality j. cbn. now rewrite andb_true_r, andb_assoc.
  - unfold multi_controlled_z.
    replace (S (S (S (S n))) - 1)%nat with (S (S (S n))) by lia.
    unfold range at 1. rewrite length_seq. cbn [Nat.eqb].
    rewrite run_h_mcx_h.
    + extensionality j. now rewrite all_ones_S.
    + unfold range. rewrite in_seq. lia.
Qed.

(** *** [X] layer, multi-controlled [Z], [X] layer *)

Lemma run_x_mcz_x bits psi :
  (1 <= List.length bits)%nat ->
  run (x_where_zero bits ++ multi_controlled_z (List.length bits)
         ++ x_where_zero bits) psi
  = fun j => phase (all_ones (List.length bits) (Z.lxor j (zero_mask 0 bits)))
                   (psi j).
Proof.
  intros Hn. rewrite !run_app, !run_x_where_zero, run_multi_controlled_z by assumption.
  extensionality j. f_equal.
  rewrite Z.lxor_assoc, Z.lxor_nilpotent. now rewrite Z.lxor_0_r.
Qed.

Lemma all_ones_true n j :
  all_ones n j = true <-> forall p, (p < n)%nat -> bit j p = true.
Proof.
  unfold all_ones, range. rewrite forallb_forall. split.
  - intros H p Hp. apply H. apply in_seq. lia.
  - intros H p Hp. apply H. apply in_seq in Hp. lia.
Qed.

Lemma bit_marked_index bits p :
  bit (marked_index bits) p = negb (nth p bits 0 =? 0).
Proof.
  unfold marked_index, bit. rewrite testbit_le_value.
  change false with ((fun b => negb (b =? 0)) 0). now rewrite map_nth.
Qed.

Lemma marked_index_in_range bits : in_range (List.length bits) (marked_index bits).
Proof.
  unfold in_range, marked_index.
  pose proof (le_value_range (map (fun b => negb (b =? 0)) bits)) as H.
  now rewrite length_map in H.
Qed.

Lemma all_ones_lxor_mask bits j :
  in_range (List.length bits) j ->
  all_ones (List.length bits) (Z.lxor j (zero_mask 0 bits))
  = (j =? marked_index bits).
Proof.
  intros Hj.
  assert (Hbit : forall p, (p < List.length bits)%nat ->
            bit (Z.lxor j (zero_mask 0 bits)) p
            = negb (xorb (bit j p) (bit (marked_index bits) p))).
  { intros p Hp. unfold bit at 1. rewrite Z.lxor_spec.
    fold (bit j p) (bit (zero_mask 0 bits) p).
    rewrite bit_zero_mask, bit_marked_index. cbn [Nat.leb andb Nat.add].
    replace (p - 0)%nat with p by lia.
    destruct (Nat.ltb_spec p (List.length bits)); [|lia]. cbn [andb].
    rewrite (nth_indep bits 1 0) by assumption.
    destruct (bit j p), (nth p bits 0 =? 0); reflexivity. }
  destruct (Z.eqb_spec j (marked_index bits)) as [->|Hne].
  - apply all_ones_true. intros p Hp. rewrite Hbit by assumption.
    now rewrite xorb_nilpotent.
  - apply not_true_is_false. intros H. apply Hne.
    apply (in_range_eq (List.length bits)); [assumption|apply marked_index_in_range|].
    intros p Hp. rewrite all_ones_true in H. specialize (H p Hp).
    rewrite Hbit in H by assumption.
    destruct (bit j p), (bit (marked_index bits) p); cbn in H; congruence.
Qed.

Lemma run_x_mcz_x_flip bits psi :
  (1 <= List.length bits)%nat ->
  agree (List.length bits)
        (run (x_where_zero bits ++ multi_controlled_z (List.length bits)
                ++ x_where_zero bits) psi)
        (oracle_flip (marked_index bits) psi).
Proof.
  intros Hn j Hj. rewrite run_x_mcz_x by assumption. unfold oracle_flip.
  rewrite all_ones_lxor_mask by assumption.
  now destruct (j =? marked_index bits).
Qed.

(** *** The oracle circuit *)

Lemma target_bits_length t : List.length (target_bits_of t) = String.length t.
Proof.
  unfold target_bits_of. now rewrite length_map, length_rev, <- string_length_chars.
Qed.

Lemma marked_index_target_bits t : marked_index (target_bits_of t) = target_index_of t.
Proof.
  unfold marked_index, target_bits_of, target_index_of.
  rewrite map_map, map_rev. f_equal. f_equal. apply map_ext. intros c.
  now destruct (is_one c).
Qed.

Lemma valid_target_bounds t :
  valid_target t -> (1 <= String.length t <= 8)%nat.
Proof. intros [_ H]. exact H. Qed.

Lemma build_oracle_valid t :
  valid_target t ->
  build_generalized_grover_oracle t
  = Ok (mkCircuit (String.length t) 0 (oracle_gates t)).
Proof.
  intros Hv. pose proof (valid_target_bounds t Hv) as Hn. destruct Hv as [H01 _].
  unfold build_generalized_grover_oracle, MIN_QUBITS, MAX_QUBITS.
  destruct (Nat.ltb_spec (String.length t) 1); [lia|].
  destruct (Nat.ltb_spec 8 (String.length t)); [lia|]. cbn [orb].
  rewrite ints_of_chars_01.
  - cbn [bind]. unfold qc_append. cbn [num_qubits num_clbits data app].
    unfold oracle_gates, target_bits_of. now rewrite <- !app_assoc.
  - rewrite forallb_forall. intros c Hc. apply in_rev in Hc.
    unfold all_01 in H01. rewrite forallb_forall in H01. now apply H01.
Qed.

Lemma is_unitary_oracle_gates t : forallb is_unitary (oracle_gates t) = true.
Proof.
  unfold oracle_gates.
  now rewrite !is_unitary_app, !is_unitary_x_where_zero, is_unitary_mcz.
Qed.

Lemma run_oracle_gates t psi :
  valid_target t ->
  agree (String.length t) (run (oracle_gates t) psi)
        (oracle_flip (target_index_of t) psi).
Proof.
  intros Hv. pose proof (valid_target_bounds t Hv) as Hn.
  unfold oracle_gates. rewrite <- marked_index_target_bits.
  rewrite <- (target_bits_length t).
  apply run_x_mcz_x_flip. rewrite target_bits_length. lia.
Qed.

(** The oracle changes no squared amplitude, at any index. *)
Lemma run_oracle_gates_sq t psi j :
  valid_target t ->
  (Rabs (run (oracle_gates t) psi j) ^ 2 = Rabs (psi j) ^ 2)%R.
Proof.
  intros Hv. pose proof (valid_target_bounds t Hv) as Hn.
  unfold oracle_gates. rewrite <- (target_bits_length t).
  rewrite run_x_mcz_x by (rewrite target_bits_length; lia).
  destruct (all_ones _ _); cbn [phase]; [|reflexivity].
  now rewrite Rabs_Ropp.
Qed.

(** *** The Hadamard layer *)

Lemma run_map_H_cons q qs psi :
  run (map GateH (q :: qs)) psi = run (map GateH qs) (hadamard q psi).
Proof. reflexivity. Qed.

Lemma phase_plus b x y : (phase b (x + y) = phase b x + phase b y)%R.
Proof. destruct b; cbn; ring. Qed.

Lemma phase_mult b c x : (phase b (c * x) = c * phase b x)%R.
Proof. destruct b; cbn; ring. Qed.

Lemma hadamard_linear q (a b : Statevector) (c : R) :
  hadamard q (fun j => (a j + c * b j)%R)
  = fun j => (hadamard q a j + c * hadamard q b j)%R.
Proof.
  extensionality j. unfold hadamard, apply_unitary. cbn [apply_instruction].
  rewrite phase_plus, phase_mult. ring.
Qed.

Lemma run_H_linear qs (a b : Statevector) (c : R) :
  run (map GateH qs) (fun j => (a j + c * b j)%R)
  = fun j => (run (map GateH qs) a j + c * run (map GateH qs) b j)%R.
Proof.
  revert a b. induction qs as [|q qs IH]; intros a b; [reflexivity|].
  rewrite !run_map_H_cons, hadamard_linear. apply IH.
Qed.

Lemma hadamard_involutive q psi : hadamard q (hadamard q psi) = psi.
Proof.
  extensionality j. unfold hadamard, apply_unitary. cbn [apply_instruction].
  rewrite ?set_set, ?clear_set, ?set_clear, ?clear_clear.
  rewrite ?bit_set_bit, ?bit_clear_bit, ?Nat.eqb_refl.
  rewrite ?andb_false_r, ?orb_true_l. cbn [phase].
  pose proof inv_sqrt2_sq as Hh.
  assert (Hs : bit j q = true -> psi (set_bit j q) = psi j)
    by (intros Hb; now rewrite set_bit_set).
  assert (Hc : bit j q = false -> psi (clear_bit j q) = psi j)
    by (intros Hb; now rewrite clear_bit_clear).
  destruct (bit j q); cbn [phase]; rewrite ?Hs, ?Hc by reflexivity.
  - transitivity ((2 * (inv_sqrt2 * inv_sqrt2)) * psi j)%R; [ring|].
    rewrite Hh. ring.
  - transitivity ((2 * (inv_sqrt2 * inv_sqrt2)) * psi j)%R; [ring|].
    rewrite Hh. ring.
Qed.

Lemma hadamard_comm a b psi :
  hadamard a (hadamard b psi) = hadamard b (hadamard a psi).
Proof.
  destruct (Nat.eq_dec a b) as [->|Hab]; [reflexivity|].
  extensionality j. unfold hadamard, apply_unitary. cbn [apply_instruction].
  rewrite ?bit_set_bit, ?bit_clear_bit.
  destruct (Nat.eqb_spec a b) as [|_]; [contradiction|].
  destruct (Nat.eqb_spec b a) as [E|_]; [symmetry in E; contradiction|].
  rewrite ?andb_true_r, ?orb_false_l.
  rewrite (set_bit_comm j b a), (clear_bit_comm j b a).
  rewrite (set_clear_comm j a b) by assumption.
  rewrite (set_clear_comm j b a) by (intros E; apply Hab; now symmetry).
  destruct (bit j a), (bit j b); cbn [phase]; ring.
Qed.

Lemma hadamard_run_comm q qs psi :
  hadamard q (run (map GateH qs) psi) = run (map GateH qs) (hadamard q psi).
Proof.
  revert psi. induction qs as [|p qs IH]; intros psi; [reflexivity|].
  rewrite !run_map_H_cons, IH. now rewrite hadamard_comm.
Qed.

Lemma run_H_involutive qs psi :
  run (map GateH qs) (run (map GateH qs) psi) = psi.
Proof.
  revert psi. induction qs as [|q qs IH]; intros psi; [reflexivity|].
  rewrite !run_map_H_cons, <- hadamard_run_comm, IH.
  apply hadamard_involutive.
Qed.

Lemma hadamard_agree n q psi phi :
  (q < n)%nat -> agree n psi phi -> agree n (hadamard q psi) (hadamard q phi).
Proof.
  intros Hq H j Hj. unfold hadamard, apply_unitary. cbn [apply_instruction].
  rewrite (H (clear_bit j q)) by now apply in_range_clear_bit.
  rewrite (H (set_bit j q)) by now apply in_range_set_bit.
  reflexivity.
Qed.

Lemma run_H_agree n qs psi phi :
  Forall (fun q => (q < n)%nat) qs -> agree n psi phi ->
  agree n (run (map GateH qs) psi) (run (map GateH qs) phi).
Proof.
  intros Hqs. revert psi phi. induction Hqs as [|q qs Hq Hqs IH]; intros psi phi H.
  - exact H.
  - rewrite !run_map_H_cons. apply IH. now apply hadamard_agree.
Qed.

Lemma range_lt n : Forall (fun q => (q < n)%nat) (range n).
Proof. apply Forall_forall. intros q Hq. unfold range in Hq. apply in_seq in Hq. lia. Qed.

(** *** Sums over the basis indices *)

Lemma Rsum_nil : Rsum [] = 0%R.
Proof. reflexivity. Qed.

Lemma Rsum_cons x xs : Rsum (x :: xs) = (x + Rsum xs)%R.
Proof. reflexivity. Qed.

Lemma Rsum_app xs ys : (Rsum (xs ++ ys) = Rsum xs + Rsum ys)%R.
Proof.
  induction xs as [|x xs IH]; cbn [app]; rewrite ?Rsum_nil, ?Rsum_cons; [ring|].
  rewrite IH. ring.
Qed.

Lemma Rsum_map_plus {A : Type} (f g : A -> R) xs :
  (Rsum (map (fun x => f x + g x) xs) = Rsum (map f xs) + Rsum (map g xs))%R.
Proof.
  induction xs as [|x xs IH]; cbn [map]; rewrite ?Rsum_nil, ?Rsum_cons; [ring|].
  rewrite IH. ring.
Qed.

Lemma Rsum_map_scal {A : Type} (c : R) (f : A -> R) xs :
  (Rsum (map (fun x => c * f x) xs) = c * Rsum (map f xs))%R.
Proof.
  induction xs as [|x xs IH]; cbn [map]; rewrite ?Rsum_nil, ?Rsum_cons; [ring|].
  rewrite IH. ring.
Qed.

Lemma Rsum_map_const {A : Type} (c : R) (xs : list A) :
  (Rsum (map (fun _ => c) xs) = INR (List.length xs) * c)%R.
Proof.
  induction xs as [|x xs IH]; cbn [map List.length];
    rewrite ?Rsum_nil, ?Rsum_cons; [cbn; ring|].
  rewrite IH, S_INR. ring.
Qed.

Lemma Rsum_map_ext {A : Type} (f g : A -> R) xs :
  (forall x, In x xs -> f x = g x) -> Rsum (map f xs) = Rsum (map g xs).
Proof. intros H. f_equal. now apply map_ext_in. Qed.

Lemma zrange_length n : 0 <= n -> List.length (zrange n) = Z.to_nat n.
Proof. intros _. unfold zrange. now rewrite length_map, length_seq. Qed.

Lemma in_zrange n j : In j (zrange n) <-> 0 <= j < n.
Proof.
  unfold zrange. rewrite in_map_iff. split.
  - intros [k [<- Hk]]. apply in_seq in Hk. lia.
  - intros Hj. exists (Z.to_nat j). split; [lia|]. apply in_seq. lia.
Qed.

Lemma seq_add_map k n : seq k n = map (Nat.add k) (seq 0 n).
Proof.
  induction k as [|k IH]; [now rewrite map_id|].
  rewrite <- seq_shift, IH, map_map. reflexivity.
Qed.

Lemma zrange_double n :
  0 <= n -> zrange (2 * n) = zrange n ++ map (fun k => n + k) (zrange n).
Proof.
  intros Hn. unfold zrange.
  replace (Z.to_nat (2 * n)) with (Z.to_nat n + Z.to_nat n)%nat by lia.
  rewrite seq_app, map_app. f_equal. cbn [Nat.add].
  rewrite (seq_add_map (Z.to_nat n)), !map_map. apply map_ext. intros k. lia.
Qed.

Lemma pow2_pos (n : nat) : 0 < 2 ^ Z.of_nat n.
Proof. apply Z.pow_pos_nonneg; lia. Qed.

Lemma pow2_S (n : nat) : 2 ^ Z.of_nat (S n) = 2 * 2 ^ Z.of_nat n.
Proof. rewrite Nat2Z.inj_succ. apply Z.pow_succ_r. lia. Qed.

Lemma h_range_S n : h_range (S n) = h_range n ++ [GateH n].
Proof. unfold h_range, range. now rewrite seq_S, map_app. Qed.

Lemma run_h_range_S n psi :
  run (h_range (S n)) psi = hadamard n (run (h_range n) psi).
Proof. now rewrite h_range_S, run_app. Qed.

Lemma bit_mul_pow2_low c (m : nat) : bit (c * 2 ^ Z.of_nat (S m)) m = false.
Proof. unfold bit. apply Z.mul_pow2_bits_low. lia. Qed.

Lemma set_bit_add j (m : nat) :
  bit j m = false -> set_bit j m = j + 2 ^ Z.of_nat m.
Proof.
  intros Hb. unfold set_bit. rewrite Z.setbit_spec'.
  assert (Hl : Z.land j (2 ^ Z.of_nat m) = 0).
  { apply Z.bits_inj'. intros p Hp. rewrite Z.land_spec, Z.bits_0.
    rewrite Z.pow2_bits_eqb by lia.
    destruct (Z.eqb_spec (Z.of_nat m) p) as [<-|_]; [|apply andb_false_r].
    fold (bit j m). now rewrite Hb. }
  rewrite <- Z.lxor_lor by assumption. symmetry. now apply Z.add_nocarry_lxor.
Qed.

(** The Hadamard layer at a multiple of [2^m]: the scaled sum of the block
    of [2^m] amplitudes starting there. *)
Lemma run_h_range_block m psi c :
  run (h_range m) psi (c * 2 ^ Z.of_nat m)
  = (inv_sqrt2 ^ m
     * Rsum (map (fun k => psi (c * 2 ^ Z.of_nat m + k)%Z)
                 (zrange (2 ^ Z.of_nat m)%Z)))%R.
Proof.
  revert c. induction m as [|m IH]; intros c.
  - change (2 ^ Z.of_nat 0) with 1.
    change (run (h_range 0) psi (c * 1)) with (psi (c * 1)).
    change (zrange 1) with [0].
    cbn [map pow]. rewrite Rsum_cons, Rsum_nil, Z.add_0_r. ring.
  - rewrite run_h_range_S. unfold hadamard, apply_unitary. cbn [apply_instruction].
    rewrite bit_mul_pow2_low. cbn [phase].
    rewrite clear_bit_clear by apply bit_mul_pow2_low.
    rewrite set_bit_add by apply bit_mul_pow2_low.
    replace (c * 2 ^ Z.of_nat (S m)) with ((2 * c) * 2 ^ Z.of_nat m)
      by (rewrite pow2_S; ring).
    replace (2 * c * 2 ^ Z.of_nat m + 2 ^ Z.of_nat m)
      with ((2 * c + 1) * 2 ^ Z.of_nat m) by ring.
    rewrite !IH. rewrite pow2_S, zrange_double by (pose proof (pow2_pos m); lia).
    rewrite map_app, Rsum_app, map_map. cbn [pow].
    replace (map (fun x => psi (2 * c * 2 ^ Z.of_nat m + (2 ^ Z.of_nat m + x)))
                 (zrange (2 ^ Z.of_nat m)))
      with (map (fun k => psi ((2 * c + 1) * 2 ^ Z.of_nat m + k))
                (zrange (2 ^ Z.of_nat m)))
      by (apply map_ext; intros k; f_equal; ring).
    ring.
Qed.

Lemma run_h_range_at_zero n psi :
  run (h_range n) psi 0 = (inv_sqrt2 ^ n * amplitude_sum n psi)%R.
Proof.
  pose proof (run_h_range_block n psi 0) as H. rewrite Z.mul_0_l in H.
  rewrite H. unfold amplitude_sum. f_equal.
Qed.

(** The Hadamard layer on the all-zero basis state: the uniform
    superposition on the first [2^m] indices. *)
Lemma run_h_range_zero_state m j :
  0 <= j ->
  run (h_range m) zero_state j
  = if j <? 2 ^ Z.of_nat m then (inv_sqrt2 ^ m)%R else 0%R.
Proof.
  revert j. induction m as [|m IH]; intros j Hj.
  - cbn. unfold zero_state.
    destruct (Z.eqb_spec j 0), (Z.ltb_spec j 1); try reflexivity; lia.
  - rewrite run_h_range_S. unfold hadamard, apply_unitary. cbn [apply_instruction].
    assert (Hc0 : 0 <= clear_bit j m).
    { unfold clear_bit. rewrite Z.clearbit_spec'. apply Z.ldiff_nonneg. now left. }
    assert (Hs0 : 0 <= set_bit j m).
    { unfold set_bit. rewrite Z.setbit_spec'. apply Z.lor_nonneg. split; [assumption|].
      apply Z.pow_nonneg. lia. }
    rewrite !IH by assumption.
    assert (Hset : (set_bit j m <? 2 ^ Z.of_nat m) = false).
    { apply Z.ltb_ge. destruct (Z_lt_le_dec (set_bit j m) (2 ^ Z.of_nat m)) as [Hlt|]; [|assumption].
      assert (Hr : in_range m (set_bit j m)) by (split; assumption).
      apply in_range_bits in Hr as [_ Hr]. specialize (Hr m (le_n m)).
      rewrite bit_set_bit, Nat.eqb_refl in Hr. discriminate. }
    rewrite Hset.
    assert (Hclr : (clear_bit j m <? 2 ^ Z.of_nat m) = (j <? 2 ^ Z.of_nat (S m))).
    { destruct (Z.ltb_spec j (2 ^ Z.of_nat (S m))) as [Hlt|Hge].
      - apply Z.ltb_lt.
        assert (Hr : in_range (S m) j) by (split; assumption).
        apply in_range_bits in Hr as [_ Hr].
        assert (Hr' : in_range m (clear_bit j m)).
        { apply in_range_bits. split; [assumption|]. intros p Hp.
          rewrite bit_clear_bit. destruct (Nat.eqb_spec m p) as [->|Hne].
          - apply andb_false_r.
          - rewrite Hr by lia. reflexivity. }
        apply Hr'.
      - apply Z.ltb_ge.
        destruct (Z_lt_le_dec (clear_bit j m) (2 ^ Z.of_nat m)) as [Hlt|]; [|assumption].
        exfalso.
        assert (Hr : in_range m (clear_bit j m)) by (split; assumption).
        apply in_range_bits in Hr as [_ Hr].
        assert (Hr' : in_range (S m) j).
        { apply in_range_bits. split; [assumption|]. intros p Hp.
          specialize (Hr p). rewrite bit_clear_bit in Hr.
          destruct (Nat.eqb_spec m p) as [->|Hne]; [lia|].
          rewrite andb_true_r in Hr. apply Hr. lia. }
        destruct Hr'. lia. }
    rewrite Hclr.
    destruct (j <? 2 ^ Z.of_nat (S m)); destruct (bit j m); cbn [phase pow]; ring.
Qed.

Lemma inv_sqrt2_pow_sq n : (inv_sqrt2 ^ n * inv_sqrt2 ^ n = 1 / 2 ^ n)%R.
Proof.
  induction n as [|n IH]; [cbn; field|].
  cbn [pow]. pose proof inv_sqrt2_sq as Hh.
  assert (Hp : (2 ^ n <> 0)%R) by (apply pow_nonzero; lra).
  transitivity ((inv_sqrt2 * inv_sqrt2) * (inv_sqrt2 ^ n * inv_sqrt2 ^ n))%R; [ring|].
  rewrite IH. replace (inv_sqrt2 * inv_sqrt2)%R with (1 / 2)%R by lra.
  field. assumption.
Qed.

(** *** The diffusion block *)

Lemma x_range_where_zero_from k n :
  flat_map (fun ib : nat * Z => if snd ib =? 0 then [GateX (fst ib)] else [])
           (combine (seq k n) (repeat 0 n))
  = map GateX (seq k n).
Proof.
  revert k. induction n as [|n IH]; intros k; [reflexivity|].
  cbn [seq repeat combine flat_map map fst snd Z.eqb app]. now rewrite IH.
Qed.

Lemma x_range_where_zero n : x_range n = x_where_zero (repeat 0 n).
Proof.
  unfold x_range, x_where_zero, enumerate, range. rewrite repeat_length.
  symmetry. apply x_range_where_zero_from.
Qed.

Lemma marked_index_zeros n : marked_index (repeat 0 n) = 0.
Proof.
  unfold marked_index. rewrite map_repeat. cbn [Z.eqb negb].
  induction n as [|n IH]; [reflexivity|]. cbn [repeat le_value Z.b2z]. rewrite IH. reflexivity.
Qed.

Lemma oracle_flip_zero phi :
  oracle_flip 0 phi = fun j => (phi j + (- 2 * phi 0%Z) * zero_state j)%R.
Proof.
  extensionality j. unfold oracle_flip, zero_state.
  destruct (Z.eqb_spec j 0) as [->|_]; ring.
Qed.

Lemma run_diffusion n psi :
  (1 <= n)%nat -> agree n (run (diffusion n) psi) (negated_inversion n psi).
Proof.
  intros Hn. unfold diffusion. rewrite run_app.
  rewrite !app_assoc, run_app, <- !app_assoc.
  set (phi := run (h_range n) psi).
  assert (Hmid : agree n (run (x_range n ++ multi_controlled_z n ++ x_range n) phi)
                         (fun j => (phi j + (- 2 * phi 0%Z) * zero_state j)%R)).
  { rewrite <- oracle_flip_zero, <- (marked_index_zeros n), x_range_where_zero.
    pose proof (run_x_mcz_x_flip (repeat 0 n) phi) as H.
    rewrite repeat_length in H. apply H. assumption. }
  apply (run_H_agree n (range n)) in Hmid; [|apply range_lt].
  rewrite (run_H_linear (range n) phi zero_state) in Hmid.
  assert (Hinv : run (map GateH (range n)) phi = psi)
    by (unfold phi, h_range; apply run_H_involutive).
  rewrite Hinv in Hmid. fold (h_range n) in Hmid.
  intros j Hj. rewrite (Hmid j Hj). unfold negated_inversion, mean.
  rewrite run_h_range_zero_state by lia.
  destruct (Z.ltb_spec j (2 ^ Z.of_nat n)); [|lia].
  unfold phi. rewrite run_h_range_at_zero.
  pose proof (inv_sqrt2_pow_sq n) as Hsq.
  transitivity (psi j - 2 * amplitude_sum n psi * (inv_sqrt2 ^ n * inv_sqrt2 ^ n))%R;
    [ring|]. rewrite Hsq. field. apply pow_nonzero. lra.
Qed.

(** *** Dictionaries *)

Lemma dict_set_fresh {V : Type} k (v : V) d :
  ~ In k (dict_keys d) -> dict_set k v d = d ++ [(k, v)].
Proof.
  induction d as [|[k' v'] d IH]; intros H; [reflexivity|].
  cbn [dict_set]. destruct (String.eqb_spec k k') as [->|Hne].
  - exfalso. apply H. now left.
  - cbn [app]. f_equal. apply IH. intros X. apply H. now right.
Qed.

Lemma dict_keys_app {V : Type} (d e : dict V) :
  dict_keys (d ++ e) = dict_keys d ++ dict_keys e.
Proof. apply map_app. Qed.

Lemma fold_dict_set_fresh {V : Type} (kvs : list (string * V)) (d : dict V) :
  NoDup (dict_keys d ++ map fst kvs) ->
  fold_left (fun d kv => dict_set (fst kv) (snd kv) d) kvs d = d ++ kvs.
Proof.
  revert d. induction kvs as [|[k v] kvs IH]; intros d H.
  - now rewrite app_nil_r.
  - cbn [fold_left fst snd]. cbn [map fst] in H.
    rewrite dict_set_fresh.
    + rewrite IH.
      * now rewrite <- app_assoc.
      * rewrite dict_keys_app. cbn. now rewrite <- app_assoc.
    + apply NoDup_remove_2 in H. intros X. apply H. apply in_or_app. now left.
Qed.

Lemma enumerate_map_zrange {V : Type} (f : Z -> V) (n : nat) :
  map (fun iv : nat * V => (Z.of_nat (fst iv), snd iv))
      (enumerate (map f (zrange (Z.of_nat n))))
  = map (fun i => (i, f i)) (zrange (Z.of_nat n)).
Proof.
  unfold enumerate, zrange. rewrite !length_map, length_seq, Nat2Z.id.
  rewrite !map_map.
  assert (H : forall k m,
             map (fun iv : nat * V => (Z.of_nat (fst iv), snd iv))
                 (combine (seq k m) (map (fun x => f (Z.of_nat x)) (seq k m)))
             = map (fun x => (Z.of_nat x, f (Z.of_nat x))) (seq k m)).
  { intros k m. revert k. induction m as [|m IH]; intros k; [reflexivity|].
    cbn [seq map combine fst snd]. now rewrite IH. }
  apply H.
Qed.

Lemma NoDup_map_inj_in {A B : Type} (f : A -> B) (xs : list A) :
  (forall x y, In x xs -> In y xs -> f x = f y -> x = y) ->
  NoDup xs -> NoDup (map f xs).
Proof.
  intros Hinj Hnd. induction Hnd as [|x xs Hx Hnd IH]; [constructor|].
  cbn [map]. constructor.
  - intros Hin. apply in_map_iff in Hin as [y [Hy Hin]].
    assert (y = x) by (apply Hinj; [now right|now left|assumption]).
    subst y. contradiction.
  - apply IH. intros a b Ha Hb. apply Hinj; now right.
Qed.

Lemma NoDup_zrange n : NoDup (zrange n).
Proof.
  unfold zrange. apply NoDup_map_inj_in; [|apply seq_NoDup].
  intros x y _ _ H. lia.
Qed.

Lemma NoDup_format_bin (n : nat) :
  (1 <= n)%nat -> NoDup (map (format_bin n) (zrange (2 ^ Z.of_nat n))).
Proof.
  intros Hn. apply NoDup_map_inj_in; [|apply NoDup_zrange].
  intros x y Hx Hy. apply in_zrange in Hx, Hy. now apply format_bin_inj.
Qed.

Lemma pow2_nat (n : nat) : 2 ^ Z.of_nat n = Z.of_nat (2 ^ n).
Proof.
  induction n as [|n IH]; [reflexivity|].
  rewrite pow2_S, IH. cbn [Nat.pow]. lia.
Qed.

Lemma dict_of_enumerate_format (n : nat) (f : Z -> R) :
  (1 <= n)%nat ->
  dict_of_enumerate (format_bin n) (map f (zrange (2 ^ Z.of_nat n)))
  = map (fun i => (format_bin n i, f i)) (zrange (2 ^ Z.of_nat n)).
Proof.
  intros Hn. unfold dict_of_enumerate.
  pose proof (NoDup_format_bin n Hn) as Hnd. revert Hnd.
  rewrite pow2_nat. intros Hnd.
  pose proof (enumerate_map_zrange f (2 ^ n)) as He.
  set (l := enumerate (map f (zrange (Z.of_nat (2 ^ n))))) in *.
  transitivity (fold_left (fun d kv => dict_set (fst kv) (snd kv) d)
                  (map (fun iv : nat * R => (format_bin n (Z.of_nat (fst iv)), snd iv)) l)
                  ([] : dict R)).
  - generalize ([] : dict R). clearbody l. clear.
    induction l as [|iv l IH]; intros d; [reflexivity|]. cbn [map fold_left fst snd].
    apply IH.
  - rewrite fold_dict_set_fresh.
    + cbn [app]. 
      replace (map (fun iv : nat * R => (format_bin n (Z.of_nat (fst iv)), snd iv)) l)
        with (map (fun kv : Z * R => (format_bin n (fst kv), snd kv))
                  (map (fun iv : nat * R => (Z.of_nat (fst iv), snd iv)) l))
        by now rewrite map_map.
      rewrite He, map_map. reflexivity.
    + cbn [dict_keys map app].
      replace (map fst (map (fun iv : nat * R => (format_bin n (Z.of_nat (fst iv)), snd iv)) l))
        with (map (format_bin n) (map fst (map (fun iv : nat * R => (Z.of_nat (fst iv), snd iv)) l)))
        by (rewrite !map_map; reflexivity).
      rewrite He, !map_map. cbn [fst]. exact Hnd.
Qed.

Lemma list_get_map_zrange (f : Z -> R) (N i : Z) :
  0 <= i < N -> list_get (map f (zrange N)) i = Ok (f i).
Proof.
  intros Hi. unfold list_get. destruct (Z.ltb_spec i 0); [lia|].
  unfold zrange. rewrite map_map.
  rewrite nth_error_map, nth_error_seq.
  destruct (Nat.ltb_spec (Z.to_nat i) (Z.to_nat N)); [|lia].
  cbn. now rewrite Z2Nat.id by lia.
Qed.

Lemma is_unitary_trace_data t r : forallb is_unitary (trace_data t r) = true.
Proof.
  induction r as [|r IH]; cbn [trace_data]; [apply is_unitary_h_range|].
  now rewrite !is_unitary_app, IH, is_unitary_oracle_gates, is_unitary_diffusion.
Qed.

Lemma state_at_S t r :
  state_at t (S r) = run (diffusion (String.length t)) (oracle_state_at t r).
Proof. unfold state_at, oracle_state_at. cbn [trace_data]. now rewrite !run_app. Qed.

Lemma record_step_unitary name iteration n c gs idx :
  forallb is_unitary gs = true -> (1 <= n)%nat -> in_range n idx ->
  record_step name iteration (mkCircuit n c gs) idx
  = Ok (step_of name iteration n idx (run gs zero_state)).
Proof.
  intros Hu Hn Hidx. unfold record_step, Statevector_from_instruction.
  cbn [data num_qubits]. rewrite evolve_run by assumption. cbn [bind].
  unfold probabilities_of. rewrite map_map.
  rewrite (list_get_map_zrange (fun i => (Rabs (run gs zero_state i) ^ 2)%R))
    by exact Hidx.
  cbn [bind]. unfold step_of. f_equal. f_equal.
  now apply (dict_of_enumerate_format n (fun i => (Rabs (run gs zero_state i) ^ 2)%R)).
Qed.

Lemma iteration_body_round t (r : nat) steps :
  valid_target t ->
  iteration_body (String.length t)
                 (mkCircuit (String.length t) 0 (oracle_gates t))
                 (target_index_of t) (Z.of_nat r)
                 (mkCircuit (String.length t) 0 (trace_data t r), steps)
  = Ok (mkCircuit (String.length t) 0 (trace_data t (S r)),
        steps ++ round_steps t r).
Proof.
  intros Hv. pose proof (valid_target_bounds t Hv) as Hn.
  pose proof (target_index_range t) as Hidx.
  unfold iteration_body, qc_compose, qc_append. cbn [data num_qubits num_clbits].
  rewrite record_step_unitary; [|now rewrite is_unitary_app, is_unitary_trace_data,
    is_unitary_oracle_gates|lia|exact Hidx].
  cbn [bind].
  rewrite record_step_unitary; [|now rewrite !is_unitary_app, is_unitary_trace_data,
    is_unitary_oracle_gates, is_unitary_diffusion|lia|exact Hidx].
  cbn [bind]. f_equal. f_equal.
  - cbn [trace_data]. now rewrite <- app_assoc.
  - rewrite <- app_assoc. cbn [app]. f_equal. unfold round_steps. f_equal.
    + now rewrite run_app.
    + f_equal. unfold state_at. cbn [trace_data]. now rewrite <- app_assoc.
Qed.

Lemma iteration_loop t (k m : nat) steps :
  valid_target t ->
  for_each (map Z.of_nat (seq k m))
           (iteration_body (String.length t)
                           (mkCircuit (String.length t) 0 (oracle_gates t))
                           (target_index_of t))
           (mkCircuit (String.length t) 0 (trace_data t k), steps)
  = Ok (mkCircuit (String.length t) 0 (trace_data t (k + m)),
        steps ++ flat_map (round_steps t) (seq k m)).
Proof.
  intros Hv. revert k steps. induction m as [|m IH]; intros k steps.
  - cbn. now rewrite Nat.add_0_r, app_nil_r.
  - cbn [seq map for_each]. rewrite iteration_body_round by assumption.
    cbn [bind]. rewrite IH. cbn [flat_map]. rewrite <- app_assoc.
    now replace (S k + m)%nat with (k + S m)%nat by lia.
Qed.

Lemma list_last_cons_app {A : Type} (x : A) xs :
  exists y, list_last (x :: xs) = Ok y /\ In y (x :: xs).
Proof.
  unfold list_last. destruct (rev (x :: xs)) as [|y ys] eqn:E.
  - apply (f_equal (@List.length A)) in E. rewrite length_rev in E. discriminate.
  - exists y. split; [reflexivity|]. apply in_rev. rewrite E. now left.
Qed.

(** The trace endpoint on a valid target, in closed form. *)
Lemma get_grover_iterations_valid t :
  valid_target t ->
  exists amplification,
    get_grover_iterations t
    = Ok (mkIterationResponse
            t (String.length t) (iterations_table (String.length t))
            (2 ^ Z.of_nat (String.length t))
            (trace_steps t (Z.to_nat (iterations_table (String.length t))))
            amplification).
Proof.
  intros Hv. pose proof (valid_target_bounds t Hv) as Hn.
  pose proof (target_index_range t) as Hidx.
  unfold get_grover_iterations.
  assert (Hval : validate_target_state t = Ok tt).
  { unfold validate_target_state, MIN_QUBITS, MAX_QUBITS. destruct Hv as [H01 _].
    rewrite H01. destruct (Nat.eqb_spec (String.length t) 0); [lia|].
    destruct (Nat.ltb_spec (String.length t) 1); [lia|].
    destruct (Nat.ltb_spec 8 (String.length t)); [lia|]. reflexivity. }
  rewrite Hval. cbn [bind].
  destruct (optimal_iterations_default (String.length t) Hn) as [Hopt _].
  rewrite Hopt. cbn [bind]. rewrite int_base2_valid by assumption. cbn [bind].
  unfold qc_append at 1. cbn [data num_qubits num_clbits app].
  rewrite record_step_unitary; [|apply is_unitary_h_range|lia|exact Hidx].
  cbn [bind]. unfold build_simple_grover_oracle.
  rewrite build_oracle_valid by assumption. cbn [bind].
  unfold zrange.
  change (h_range (String.length t)) with (trace_data t 0) at 1.
  rewrite iteration_loop by assumption. cbn [bind Nat.add app].
  destruct (list_last_cons_app
              (step_of "Initial Superposition" 0 (String.length t)
                       (target_index_of t) (state_at t 0))
              (flat_map (round_steps t)
                 (seq 0 (Z.to_nat (iterations_table (String.length t))))))
    as [y [Hy _]].
  unfold trace_steps, state_at in Hy |- *. cbn [trace_data] in Hy |- *.
  rewrite Hy. cbn [bind except_500]. eexists. reflexivity.
Qed.

(** *** Normalisation *)

Lemma zrange_pow2_length (n : nat) :
  INR (List.length (zrange (2 ^ Z.of_nat n))) = (2 ^ n)%R.
Proof.
  rewrite zrange_length by (pose proof (pow2_pos n); lia).
  rewrite pow2_nat, Nat2Z.id, pow_INR. reflexivity.
Qed.

Lemma norm_sq_agree n psi phi : agree n psi phi -> norm_sq n psi = norm_sq n phi.
Proof.
  intros H. unfold norm_sq. apply Rsum_map_ext. intros i Hi.
  apply in_zrange in Hi. now rewrite (H i Hi).
Qed.

Lemma uniform_amplitude n j :
  in_range n j -> run (h_range n) zero_state j = (inv_sqrt2 ^ n)%R.
Proof.
  intros [H0 H1]. rewrite run_h_range_zero_state by assumption.
  destruct (Z.ltb_spec j (2 ^ Z.of_nat n)); [reflexivity|lia].
Qed.

Lemma norm_sq_uniform n : norm_sq n (run (h_range n) zero_state) = 1%R.
Proof.
  unfold norm_sq.
  rewrite (Rsum_map_ext _ (fun _ => (inv_sqrt2 ^ n * inv_sqrt2 ^ n)%R)).
  - rewrite Rsum_map_const, zrange_pow2_length, inv_sqrt2_pow_sq.
    field. apply pow_nonzero. lra.
  - intros i Hi. apply in_zrange in Hi. rewrite uniform_amplitude by exact Hi.
    rewrite pow2_abs. ring.
Qed.

Lemma norm_sq_oracle t psi :
  valid_target t ->
  norm_sq (String.length t) (run (oracle_gates t) psi)
  = norm_sq (String.length t) psi.
Proof.
  intros Hv. unfold norm_sq. apply Rsum_map_ext. intros i _.
  now apply run_oracle_gates_sq.
Qed.

Lemma norm_sq_negated_inversion n psi :
  norm_sq n (negated_inversion n psi) = norm_sq n psi.
Proof.
  unfold norm_sq, negated_inversion.
  assert (Hp : (2 ^ n <> 0)%R) by (apply pow_nonzero; lra).
  set (m := mean n psi).
  rewrite (Rsum_map_ext _ (fun i => (Rabs (psi i) ^ 2
                                     + ((- 4 * m) * psi i + 4 * m * m))%R)).
  - rewrite (Rsum_map_plus (fun i => (Rabs (psi i) ^ 2)%R)
                           (fun i => (- 4 * m * psi i + 4 * m * m)%R)).
    rewrite (Rsum_map_plus (fun i => (- 4 * m * psi i)%R)
                           (fun _ => (4 * m * m)%R)).
    rewrite (Rsum_map_scal (- 4 * m) psi), Rsum_map_const, zrange_pow2_length.
    fold (amplitude_sum n psi).
    replace (amplitude_sum n psi) with (m * 2 ^ n)%R
      by (unfold m, mean; field; assumption).
    ring.
  - intros i _. rewrite !pow2_abs. ring.
Qed.

Lemma norm_sq_diffusion n psi :
  (1 <= n)%nat -> norm_sq n (run (diffusion n) psi) = norm_sq n psi.
Proof.
  intros Hn. rewrite (norm_sq_agree n _ _ (run_diffusion n psi Hn)).
  apply norm_sq_negated_inversion.
Qed.

Lemma norm_sq_oracle_state_at t r :
  valid_target t ->
  norm_sq (String.length t) (oracle_state_at t r)
  = norm_sq (String.length t) (state_at t r).
Proof. intros Hv. now apply norm_sq_oracle. Qed.

Lemma norm_sq_state_at t r :
  valid_target t -> norm_sq (String.length t) (state_at t r) = 1%R.
Proof.
  intros Hv. pose proof (valid_target_bounds t Hv) as Hn.
  induction r as [|r IH].
  - apply norm_sq_uniform.
  - rewrite state_at_S, norm_sq_diffusion by lia.
    now rewrite norm_sq_oracle_state_at.
Qed.

(** *** The recorded steps *)

Lemma step_of_values name iteration n idx psi :
  Rsum (dict_values (probabilities (step_of name iteration n idx psi)))
  = norm_sq n psi.
Proof. unfold step_of, dict_values, norm_sq. cbn [probabilities]. now rewrite map_map. Qed.


Lemma step_of_probabilities_ext name1 name2 it1 it2 n idx psi phi :
  (forall j, (Rabs (psi j) ^ 2 = Rabs (phi j) ^ 2)%R) ->
  probabilities (step_of name1 it1 n idx psi)
  = probabilities (step_of name2 it2 n idx phi).
Proof.
  intros H. unfold step_of. cbn [probabilities]. apply map_ext. intros i.
  now rewrite H.
Qed.

Lemma in_trace_steps t k st :
  In st (trace_steps t k) ->
  exists name iteration psi,
    st = step_of name iteration (String.length t) (target_index_of t) psi
    /\ (valid_target t -> norm_sq (String.length t) psi = 1%R).
Proof.
  unfold trace_steps. intros [<-|Hin].
  - exists "Initial Superposition"%string, 0, (state_at t 0). split; [reflexivity|].
    intros Hv. now apply norm_sq_state_at.
  - apply in_flat_map in Hin as [r [_ Hin]]. unfold round_steps in Hin.
    destruct Hin as [<-|[<-|[]]].
    + eexists _, _, _. split; [reflexivity|]. intros Hv.
      rewrite norm_sq_oracle_state_at by assumption. now apply norm_sq_state_at.
    + eexists _, _, _. split; [reflexivity|]. intros Hv. now apply norm_sq_state_at.
Qed.

Lemma nth_error_round_steps t (a k r : nat) :
  (r < k)%nat ->
  nth_error (flat_map (round_steps t) (seq a k)) (2 * r)
  = Some (step_of "After Oracle" (Z.of_nat (a + r) + 1) (String.length t)
                  (target_index_of t) (oracle_state_at t (a + r)))
  /\ nth_error (flat_map (round_steps t) (seq a k)) (2 * r + 1)
     = Some (step_of "After Diffusion" (Z.of_nat (a + r) + 1) (String.length t)
                     (target_index_of t) (state_at t (S (a + r)))).
Proof.
  revert a r. induction k as [|k IH]; intros a r Hr; [lia|].
  cbn [seq flat_map round_steps app]. destruct r as [|r].
  - rewrite Nat.add_0_r. cbn. split; reflexivity.
  - replace (2 * S r)%nat with (S (S (2 * r))) by lia.
    replace (S (S (2 * r)) + 1)%nat with (S (S (2 * r + 1))) by lia.
    cbn [nth_error]. replace (a + S r)%nat with (S a + r)%nat by lia.
    apply IH. lia.
Qed.

Lemma trace_steps_length t k : List.length (trace_steps t k) = (1 + 2 * k)%nat.
Proof.
  assert (H : forall a,
             List.length (flat_map (round_steps t) (seq a k)) = (2 * k)%nat).
  { induction k as [|k IH]; intros a; [reflexivity|].
    cbn [seq flat_map round_steps app List.length]. rewrite IH. lia. }
  unfold trace_steps. cbn [List.length]. rewrite H. lia.
Qed.

(** *** Validation *)

Lemma validate_valid t : valid_target t -> validate_target_state t = Ok tt.
Proof.
  intros Hv. pose proof (valid_target_bounds t Hv) as Hn. destruct Hv as [H01 _].
  unfold validate_target_state, MIN_QUBITS, MAX_QUBITS. rewrite H01.
  destruct (Nat.eqb_spec (String.length t) 0); [lia|].
  destruct (Nat.ltb_spec (String.length t) 1); [lia|].
  destruct (Nat.ltb_spec 8 (String.length t)); [lia|]. reflexivity.
Qed.

Lemma validate_invalid t :
  t = EmptyString \/ all_01 t = false
  \/ (String.length t < MIN_QUBITS)%nat \/ (MAX_QUBITS < String.length t)%nat ->
  validate_target_state t = Raise (HTTPException 400).
Proof.
  intros H. unfold validate_target_state.
  destruct ((String.length t =? 0)%nat || negb (all_01 t))%bool eqn:E1;
    [reflexivity|].
  apply orb_false_iff in E1 as [E0 E01]. apply negb_false_iff in E01.
  apply Nat.eqb_neq in E0.
  destruct H as [->|[H|[H|H]]].
  - cbn in E0. lia.
  - congruence.
  - apply Nat.ltb_lt in H. now rewrite H.
  - apply Nat.ltb_lt in H. rewrite H. now rewrite orb_true_r.
Qed.

Lemma pattern_match_invalid t :
  t = EmptyString \/ all_01 t = false
  \/ (String.length t < MIN_QUBITS)%nat \/ (MAX_QUBITS < String.length t)%nat ->
  pattern_match t = false.
Proof.
  intros H. unfold pattern_match. destruct H as [->|[H|[H|H]]].
  - reflexivity.
  - now rewrite H.
  - apply Nat.leb_gt in H. rewrite H. apply andb_false_iff. left. apply andb_false_r.
  - apply Nat.leb_gt in H. rewrite H. apply andb_false_r.
Qed.

Lemma pattern_match_valid t : valid_target t <-> pattern_match t = true.
Proof.
  unfold valid_target, pattern_match. rewrite !andb_true_iff, !Nat.leb_le. tauto.
Qed.

Lemma get_route_invalid {A : Type} (handler : string -> result A) t :
  t = EmptyString \/ all_01 t = false
  \/ (String.length t < MIN_QUBITS)%nat \/ (MAX_QUBITS < String.length t)%nat ->
  get_route handler t
  = if segment_matches t then Response_error 422
    else if segment_matches (rstrip_slash t) then Response_redirect 307
    else Response_error 404.
Proof.
  intros H. unfold get_route. destruct (segment_matches t); [|reflexivity].
  now rewrite pattern_match_invalid.
Qed.

Lemma in_01_not_slash cs :
  forallb in_01 cs = true -> existsb (Ascii.eqb "/") cs = false.
Proof.
  induction cs as [|c cs IH]; [reflexivity|]. cbn [forallb existsb].
  intros H. apply andb_true_iff in H as [Hc H]. rewrite (IH H).
  unfold in_01 in Hc. apply orb_true_iff in Hc as [Hc|Hc];
    apply Ascii.eqb_eq in Hc; subst c; reflexivity.
Qed.

Lemma segment_matches_valid t : valid_target t -> segment_matches t = true.
Proof.
  intros Hv. pose proof (valid_target_bounds t Hv) as Hn. destruct Hv as [H01 _].
  unfold segment_matches, contains_slash.
  rewrite (in_01_not_slash _ H01).
  destruct (Nat.eqb_spec (String.length t) 0); [lia|reflexivity].
Qed.

Lemma get_route_valid {A : Type} (handler : string -> result A) t :
  valid_target t -> get_route handler t = respond (handler t).
Proof.
  intros Hv. unfold get_route. rewrite (segment_matches_valid t Hv).
  now rewrite (proj1 (pattern_match_valid t) Hv).
Qed.

(** *** The iteration count at the three call sites *)

Lemma float_fields_default (n : nat) :
  (1 <= n <= 8)%nat ->
  exists classical_average ops,
    int_truediv (2 ^ Z.of_nat n) 2 = Ok classical_average
    /\ float_of_int (iterations_table n) = Ok ops
    /\ PrimFloat.eqb ops 0%float = false.
Proof.
  intros Hn.
  assert (Hc : (n = 1 \/ n = 2 \/ n = 3 \/ n = 4 \/ n = 5 \/ n = 6
               \/ n = 7 \/ n = 8)%nat) by lia.
  destruct Hc as [->|[->|[->|[->|[->|[->|[->| ->]]]]]]];
    eexists _, _; repeat split; vm_compute; reflexivity.
Qed.

Lemma analyze_valid t :
  valid_target t ->
  exists a, analyze_target_state t = Ok a
            /\ an_optimal_iterations a = iterations_table (String.length t)
            /\ an_search_space_size a = 2 ^ Z.of_nat (String.length t).
Proof.
  intros Hv. pose proof (valid_target_bounds t Hv) as Hn.
  unfold analyze_target_state. rewrite validate_valid by assumption. cbn [bind].
  destruct (optimal_iterations_default _ Hn) as [Hopt _]. rewrite Hopt. cbn [bind].
  destruct (float_fields_default _ Hn) as [ca [ops [Hca [Hops Hz]]]].
  rewrite Hca. cbn [bind]. rewrite Hops. cbn [bind]. rewrite Hz. cbn [bind].
  eexists. split; [reflexivity|]. split; reflexivity.
Qed.

Lemma fold_left_shape {B : Type} (f : QuantumCircuit -> B -> QuantumCircuit)
  (xs : list B) (qc : QuantumCircuit) :
  (forall q b, num_qubits (f q b) = num_qubits q
               /\ num_clbits (f q b) = num_clbits q) ->
  num_qubits (fold_left f xs qc) = num_qubits qc
  /\ num_clbits (fold_left f xs qc) = num_clbits qc.
Proof.
  intros Hf. revert qc. induction xs as [|x xs IH]; intros qc; [now split|].
  cbn [fold_left]. destruct (IH (f qc x)) as [H1 H2]. destruct (Hf qc x) as [H3 H4].
  split; congruence.
Qed.

Lemma create_grover_circuit_valid t :
  valid_target t ->
  exists qc, create_grover_circuit t = Ok (qc, iterations_table (String.length t))
             /\ num_qubits qc = String.length t
             /\ num_clbits qc = String.length t.
Proof.
  intros Hv. pose proof (valid_target_bounds t Hv) as Hn.
  unfold create_grover_circuit.
  destruct (optimal_iterations_default _ Hn) as [_ Hopt]. rewrite Hopt. cbn [bind].
  destruct (Nat.eqb_spec (String.length t) 0) as [H0|_]; [lia|]. cbn [bind].
  unfold build_simple_grover_oracle. rewrite build_oracle_valid by assumption.
  cbn [bind]. eexists. split; [reflexivity|].
  match goal with
  | |- context [fold_left ?f ?xs ?qc] =>
      destruct (fold_left_shape f xs qc) as [H1 H2]; [intros q b; now split|]
  end.
  split; [exact H1|exact H2].
Qed.

Lemma get_circuit_info_valid t :
  valid_target t ->
  exists info, get_circuit_info t = Ok info
               /\ ci_optimal_iterations info = iterations_table (String.length t).
Proof.
  intros Hv. unfold get_circuit_info. rewrite validate_valid by assumption.
  cbn [bind]. destruct (create_grover_circuit_valid t Hv) as [qc [Hqc _]].
  rewrite Hqc. cbn [bind except_500]. eexists. split; reflexivity.
Qed.

(** *** The tally of the sampler *)

Lemma Zsum_cons x xs : Zsum (x :: xs) = x + Zsum xs.
Proof. reflexivity. Qed.

Lemma dict_values_cons {V : Type} k (v : V) d :
  dict_values ((k, v) :: d) = v :: dict_values d.
Proof. reflexivity. Qed.

Lemma dict_get_default_le_sum (d : dict Z) k :
  Forall (fun v => 0 <= v) (dict_values d) ->
  0 <= dict_get_default d k 0 <= Zsum (dict_values d).
Proof.
  unfold dict_get_default. induction d as [|[k' v'] d IH]; intros H.
  - vm_compute. split; discriminate.
  - rewrite dict_values_cons in H. apply Forall_cons_iff in H as [Hv H].
    specialize (IH H). rewrite dict_values_cons, Zsum_cons. cbn [dict_get].
    destruct (String.eqb k k'); [|destruct (dict_get d k)]; lia.
Qed.

Lemma dict_set_sum (d : dict Z) k w :
  Zsum (dict_values (dict_set k w d))
  = Zsum (dict_values d) - dict_get_default d k 0 + w.
Proof.
  unfold dict_get_default. induction d as [|[k' v'] d IH].
  - vm_compute Zsum at 2. cbn [dict_set dict_get].
    rewrite dict_values_cons, Zsum_cons. vm_compute Zsum. lia.
  - cbn [dict_set dict_get]. destruct (String.eqb k k').
    + rewrite !dict_values_cons, !Zsum_cons. lia.
    + rewrite !dict_values_cons, !Zsum_cons, IH. lia.
Qed.

Lemma dict_set_nonneg (d : dict Z) k w :
  0 <= w -> Forall (fun v => 0 <= v) (dict_values d) ->
  Forall (fun v => 0 <= v) (dict_values (dict_set k w d)).
Proof.
  intros Hw. induction d as [|[k' v'] d IH]; intros H.
  - cbn [dict_set]. rewrite dict_values_cons. constructor; [assumption|constructor].
  - rewrite dict_values_cons in H. apply Forall_cons_iff in H as [Hv H].
    cbn [dict_set]. destruct (String.eqb k k'); rewrite dict_values_cons;
      constructor; auto.
Qed.

Lemma dict_increment (d : dict Z) k :
  Forall (fun v => 0 <= v) (dict_values d) ->
  Zsum (dict_values (dict_set k (dict_get_default d k 0 + 1) d))
  = Zsum (dict_values d) + 1
  /\ Forall (fun v => 0 <= v)
            (dict_values (dict_set k (dict_get_default d k 0 + 1) d)).
Proof.
  intros H. pose proof (dict_get_default_le_sum d k H) as [Hget _]. split.
  - rewrite dict_set_sum. lia.
  - apply dict_set_nonneg; [lia|assumption].
Qed.

Lemma tally_sum uniform n probs shots :
  0 <= shots ->
  Zsum (dict_values (tally uniform n probs shots)) = shots
  /\ Forall (fun v => 0 <= v) (dict_values (tally uniform n probs shots)).
Proof.
  intros Hs. unfold tally.
  assert (H : forall ks (d : dict Z),
             Forall (fun v => 0 <= v) (dict_values d) ->
             let d' := fold_left
               (fun counts k =>
                  let key := format_bin n (inverse_cdf probs (uniform k) 0) in
                  dict_set key (dict_get_default counts key 0 + 1) counts) ks d in
             Zsum (dict_values d') = Zsum (dict_values d) + Z.of_nat (List.length ks)
             /\ Forall (fun v => 0 <= v) (dict_values d')).
  { induction ks as [|k ks IH]; intros d Hd.
    - cbn [fold_left List.length]. cbn zeta. change (Z.of_nat 0) with 0.
      split; [lia|assumption].
    - cbn [fold_left List.length].
      destruct (dict_increment d (format_bin n (inverse_cdf probs (uniform k) 0)) Hd)
        as [H1 H2].
      destruct (IH _ H2) as [H3 H4]. cbn zeta in H3, H4 |- *.
      split; [|exact H4]. rewrite H3, H1. lia. }
  destruct (H (seq 0 (Z.to_nat shots)) [] (Forall_nil _)) as [H1 H2].
  cbn zeta in H1, H2. split; [|exact H2].
  rewrite H1, length_seq. change (Zsum (dict_values [])) with 0. lia.
Qed.

Lemma is_unitary_filter gs : forallb is_unitary (filter is_unitary gs) = true.
Proof.
  apply forallb_forall. intros g Hg. now apply filter_In in Hg.
Qed.

Lemma int_truediv_ok a b :
  0 <= a <= b -> 0 < b -> exists f, int_truediv a b = Ok f.
Proof.
  intros Ha Hb. unfold int_truediv.
  destruct (Z.eqb_spec b 0); [lia|].
  assert (Ht : 2 <= float_overflow_threshold) by (vm_compute; discriminate).
  destruct (Z.leb_spec (float_overflow_threshold * Z.abs b) (Z.abs a)) as [Hle|].
  - exfalso. rewrite !Z.abs_eq in Hle by lia. nia.
  - eexists. reflexivity.
Qed.

Lemma run_grover_search_valid uniform request :
  request_valid request = true ->
  exists response,
    run_grover_search uniform request = Ok response
    /\ gr_shots response = rq_shots request
    /\ gr_optimal_iterations response
       = iterations_table (String.length (rq_target_state request))
    /\ Zsum (dict_values (gr_measurements response)) = rq_shots request
    /\ Forall (fun v => 0 <= v) (dict_values (gr_measurements response)).
Proof.
  intros Hrq. unfold request_valid in Hrq.
  apply andb_true_iff in Hrq as [Hrq _].
  apply andb_true_iff in Hrq as [Hrq Hhi]. apply Z.leb_le in Hhi.
  apply andb_true_iff in Hrq as [Hrq Hlo]. apply Z.leb_le in Hlo.
  apply andb_true_iff in Hrq as [Hrq _].
  apply pattern_match_valid in Hrq.
  unfold run_grover_search.
  destruct (create_grover_circuit_valid _ Hrq) as [qc [Hqc _]].
  rewrite Hqc. cbn [bind]. unfold simulator_run, Statevector_from_instruction.
  cbn [data num_qubits]. rewrite evolve_run by apply is_unitary_filter.
  cbn [bind].
  match goal with
  | |- context [tally uniform ?n ?p ?s] =>
      destruct (tally_sum uniform n p s) as [Hsum Hpos]; [lia|];
      pose proof (dict_get_default_le_sum (tally uniform n p s)
                    (rq_target_state request) Hpos) as Hget;
      rewrite Hsum in Hget;
      destruct (int_truediv_ok
                  (dict_get_default (tally uniform n p s)
                                    (rq_target_state request) 0)
                  (rq_shots request) Hget) as [f Hf]; [lia|]
  end.
  rewrite Hf. cbn [bind except_500]. eexists. split; [reflexivity|].
  cbn [gr_shots gr_optimal_iterations gr_measurements]. auto.
Qed.

(** *** More on keys and steps *)



Lemma dict_get_map_key (n : nat) (f : Z -> R) (idx : Z) :
  (1 <= n)%nat -> 0 <= idx < 2 ^ Z.of_nat n ->
  dict_get (map (fun i => (format_bin n i, f i)) (zrange (2 ^ Z.of_nat n)))
           (format_bin n idx)
  = Some (f idx).
Proof.
  intros Hn Hidx.
  assert (H : forall l, (forall i, In i l -> 0 <= i < 2 ^ Z.of_nat n) -> In idx l ->
             dict_get (map (fun i => (format_bin n i, f i)) l) (format_bin n idx)
             = Some (f idx)).
  { induction l as [|i l IH]; intros Hl Hin; [contradiction|].
    cbn [map dict_get].
    destruct (String.eqb_spec (format_bin n idx) (format_bin n i)) as [E|Hne].
    - apply format_bin_inj in E; [now subst|assumption|assumption|].
      apply Hl. now left.
    - destruct Hin as [->|Hin]; [contradiction|].
      apply IH; [|assumption]. intros j Hj. apply Hl. now right. }
  apply H.
  - intros i Hi. now apply in_zrange.
  - now apply in_zrange.
Qed.


Lemma nth_error_trace_steps_even t k (r : nat) :
  (r <= k)%nat ->
  exists name iteration,
    nth_error (trace_steps t k) (2 * r)
    = Some (step_of name iteration (String.length t) (target_index_of t)
                    (state_at t r)).
Proof.
  intros Hr. unfold trace_steps. destruct r as [|r].
  - eexists _, _. reflexivity.
  - replace (2 * S r)%nat with (S (2 * r + 1)) by lia. cbn [nth_error].
    destruct (nth_error_round_steps t 0 k r) as [_ H]; [lia|].
    rewrite H. eexists _, _. reflexivity.
Qed.

Lemma nth_error_trace_steps_odd t k (r : nat) :
  (r < k)%nat ->
  nth_error (trace_steps t k) (2 * r + 1)
  = Some (step_of "After Oracle" (Z.of_nat r + 1) (String.length t)
                  (target_index_of t) (oracle_state_at t r)).
Proof.
  intros Hr. unfold trace_steps.
  replace (2 * r + 1)%nat with (S (2 * r)) by lia. cbn [nth_error].
  destruct (nth_error_round_steps t 0 k r) as [H _]; [lia|]. exact H.
Qed.

(** *** The single-qubit run *)

Lemma amplitude_sum_1 psi : amplitude_sum 1 psi = (psi 0%Z + psi 1%Z)%R.
Proof.
  unfold amplitude_sum. change (zrange (2 ^ Z.of_nat 1)) with [0; 1].
  cbn [map]. rewrite !Rsum_cons, Rsum_nil. ring.
Qed.

Lemma valid_target_1 : valid_target "1".
Proof. split; [reflexivity|]. unfold MIN_QUBITS, MAX_QUBITS. cbn. lia. Qed.

Lemma state_at_1_target : (Rabs (state_at "1" 1 1%Z) ^ 2 = 1 / 2)%R.
Proof.
  rewrite pow2_abs, state_at_S.
  change (String.length "1") with 1%nat.
  rewrite (run_diffusion 1 (oracle_state_at "1" 0)) by (try lia; split; cbn; lia).
  unfold negated_inversion, mean. rewrite amplitude_sum_1.
  assert (Ho : forall j, 0 <= j < 2 ->
            oracle_state_at "1" 0 j
            = oracle_flip 1 (run (h_range 1) zero_state) j).
  { intros j Hj. unfold oracle_state_at.
    apply (run_oracle_gates "1" _ valid_target_1). exact Hj. }
  rewrite !Ho by lia. unfold oracle_flip.
  rewrite !uniform_amplitude by (split; cbn; lia).
  cbn [Z.eqb Pos.eqb pow].
  pose proof inv_sqrt2_sq as Hh. nra.
Qed.

Lemma field_validate_valid t :
  valid_target t -> field_validate_target_state t = Ok t.
Proof.
  intros Hv. pose proof (valid_target_bounds t Hv) as Hn. destruct Hv as [H01 _].
  unfold field_validate_target_state, MIN_QUBITS, MAX_QUBITS. rewrite H01.
  destruct (Nat.eqb_spec (String.length t) 0); [lia|].
  destruct (Nat.ltb_spec (String.length t) 1); [lia|].
  destruct (Nat.ltb_spec 8 (String.length t)); [lia|]. reflexivity.
Qed.

(** *** The amplitudes of the search, round by round *)

Lemma Rsum_two_valued_notin xs idx a b :
  ~ In idx xs ->
  Rsum (map (two_valued idx a b) xs) = (INR (List.length xs) * b)%R.
Proof.
  induction xs as [|x xs IH]; intros Hin.
  - cbn. ring.
  - cbn [map]. rewrite Rsum_cons, IH by (intros H; apply Hin; now right).
    unfold two_valued at 1. destruct (Z.eqb_spec x idx) as [->|_].
    + exfalso. apply Hin. now left.
    + cbn [List.length]. rewrite S_INR. ring.
Qed.

Lemma Rsum_two_valued xs idx a b :
  NoDup xs -> In idx xs ->
  Rsum (map (two_valued idx a b) xs) = (a + (INR (List.length xs) - 1) * b)%R.
Proof.
  induction xs as [|x xs IH]; intros Hnd Hin; [contradiction|].
  inversion Hnd as [|? ? Hx Hnd']; subst.
  cbn [map List.length]. rewrite Rsum_cons, S_INR. unfold two_valued at 1.
  destruct (Z.eqb_spec x idx) as [->|Hne].
  - rewrite Rsum_two_valued_notin by assumption. ring.
  - destruct Hin as [Hin|Hin]; [contradiction|]. rewrite IH by assumption. ring.
Qed.

Lemma amplitude_sum_two_valued n idx a b :
  in_range n idx ->
  amplitude_sum n (two_valued idx a b) = (a + (2 ^ n - 1) * b)%R.
Proof.
  intros Hidx. unfold amplitude_sum.
  rewrite Rsum_two_valued; [|apply NoDup_zrange|now apply in_zrange].
  now rewrite zrange_pow2_length.
Qed.

Lemma amplitude_sum_agree n psi phi :
  agree n psi phi -> amplitude_sum n psi = amplitude_sum n phi.
Proof.
  intros H. unfold amplitude_sum. apply Rsum_map_ext. intros i Hi.
  apply in_zrange in Hi. now apply H.
Qed.

Lemma oracle_flip_two_valued n idx psi a b :
  agree n psi (two_valued idx a b) ->
  agree n (oracle_flip idx psi) (two_valued idx (- a) b).
Proof.
  intros H j Hj. unfold oracle_flip. rewrite (H j Hj). unfold two_valued.
  now destruct (j =? idx).
Qed.

Lemma negated_inversion_two_valued n idx psi a b :
  in_range n idx ->
  agree n psi (two_valued idx a b) ->
  agree n (negated_inversion n psi)
        (two_valued idx (a - 2 * ((a + (2 ^ n - 1) * b) / 2 ^ n))
                        (b - 2 * ((a + (2 ^ n - 1) * b) / 2 ^ n))).
Proof.
  intros Hidx H j Hj. unfold negated_inversion, mean.
  rewrite (amplitude_sum_agree n _ _ H), amplitude_sum_two_valued by assumption.
  rewrite (H j Hj). unfold two_valued. now destruct (j =? idx).
Qed.

(** One round on a state with one amplitude at the target and another
    everywhere else. *)
Lemma round_two_valued t psi a b :
  valid_target t ->
  agree (String.length t) psi (two_valued (target_index_of t) a b) ->
  agree (String.length t)
        (run (diffusion (String.length t)) (run (oracle_gates t) psi))
        (two_valued (target_index_of t)
           (- a - 2 * ((- a + (2 ^ String.length t - 1) * b)
                       / 2 ^ String.length t))
           (b - 2 * ((- a + (2 ^ String.length t - 1) * b)
                     / 2 ^ String.length t))).
Proof.
  intros Hv H. pose proof (valid_target_bounds t Hv) as Hn.
  pose proof (target_index_range t) as Hidx.
  intros j Hj. rewrite (run_diffusion _ _ (proj1 Hn) j Hj).
  apply (negated_inversion_two_valued _ _ _ (- a) b); [exact Hidx| |exact Hj].
  intros i Hi. rewrite (run_oracle_gates t psi Hv i Hi).
  now apply (oracle_flip_two_valued (String.length t) _ _ a b).
Qed.

Lemma grover_numerators_S N r :
  grover_numerators N (S r)
  = (- (N - 2) * fst (grover_numerators N r)
     - 2 * (N - 1) * snd (grover_numerators N r),
     2 * fst (grover_numerators N r) - (N - 2) * snd (grover_numerators N r)).
Proof. cbn [grover_numerators]. now destruct (grover_numerators N r). Qed.

Lemma IZR_pow2 (n : nat) : IZR (2 ^ Z.of_nat n) = (2 ^ n)%R.
Proof. now rewrite <- pow_IZR. Qed.

(** After [r] rounds the target's amplitude is [A / (sqrt N * N^r)] and
    every other amplitude is [B / (sqrt N * N^r)], with [(A, B)] the
    integers of [grover_numerators]. *)
Lemma state_at_two_valued t r :
  valid_target t ->
  agree (String.length t) (state_at t r)
    (two_valued (target_index_of t)
       (IZR (fst (grover_numerators (2 ^ Z.of_nat (String.length t)) r))
        * inv_sqrt2 ^ String.length t / (2 ^ String.length t) ^ r)
       (IZR (snd (grover_numerators (2 ^ Z.of_nat (String.length t)) r))
        * inv_sqrt2 ^ String.length t / (2 ^ String.length t) ^ r)).
Proof.
  intros Hv. induction r as [|r IH].
  - intros j Hj. unfold state_at. cbn [trace_data grover_numerators fst snd pow].
    rewrite uniform_amplitude by exact Hj. unfold two_valued.
    destruct (j =? target_index_of t); field.
  - intros j Hj. rewrite state_at_S. unfold oracle_state_at.
    rewrite (round_two_valued t _ _ _ Hv IH j Hj).
    rewrite grover_numerators_S. cbn [fst snd].
    set (A := fst (grover_numerators _ r)). set (B := snd (grover_numerators _ r)).
    assert (Hp : (2 ^ String.length t <> 0)%R) by (apply pow_nonzero; lra).
    assert (Hq : ((2 ^ String.length t) ^ r <> 0)%R) by now apply pow_nonzero.
    unfold two_valued.
    repeat (rewrite minus_IZR || rewrite opp_IZR || rewrite mult_IZR).
    rewrite IZR_pow2. cbn [pow].
    destruct (j =? target_index_of t); field; auto.
Qed.

Lemma Rabs_sq x : (Rabs x ^ 2 = x * x)%R.
Proof. rewrite <- Rsqr_pow2, <- Rsqr_abs. reflexivity. Qed.

Lemma probability_of_numerator (n r : nat) (X : Z) :
  (Rabs (IZR X * inv_sqrt2 ^ n / (2 ^ n) ^ r) ^ 2
   = IZR (X ^ 2) / IZR ((2 ^ Z.of_nat n) ^ (2 * Z.of_nat r + 1)))%R.
Proof.
  rewrite Rabs_sq.
  assert (Hp : (2 ^ n <> 0)%R) by (apply pow_nonzero; lra).
  assert (Hq : ((2 ^ n) ^ r <> 0)%R) by now apply pow_nonzero.
  replace (2 * Z.of_nat r + 1) with (Z.of_nat (2 * r + 1)) by lia.
  rewrite <- pow_IZR, IZR_pow2.
  replace (X ^ 2) with (X * X) by ring. rewrite mult_IZR.
  replace (2 * r + 1)%nat with (r + r + 1)%nat by lia.
  rewrite !pow_add, pow_1.
  transitivity (IZR X * IZR X * (inv_sqrt2 ^ n * inv_sqrt2 ^ n)
                / ((2 ^ n) ^ r * (2 ^ n) ^ r))%R; [field; auto|].
  rewrite inv_sqrt2_pow_sq. field; auto.
Qed.

Lemma state_at_probability t r j :
  valid_target t -> in_range (String.length t) j ->
  (Rabs (state_at t r j) ^ 2)%R
  = if j =? target_index_of t
    then target_probability_after (String.length t) r
    else other_probability_after (String.length t) r.
Proof.
  intros Hv Hj. rewrite (state_at_two_valued t r Hv j Hj). unfold two_valued.
  destruct (j =? target_index_of t); apply probability_of_numerator.
Qed.

Lemma list_last_nth_error {A : Type} (xs : list A) (y : A) :
  nth_error xs (List.length xs - 1) = Some y -> list_last xs = Ok y.
Proof.
  intros H. unfold list_last.
  destruct xs as [|x xs] using rev_ind; [discriminate|].
  rewrite rev_app_distr. cbn [rev app]. rewrite length_app in H. cbn [List.length] in H.
  replace (List.length xs + 1 - 1)%nat with (List.length xs) in H by lia.
  rewrite nth_error_app2 in H by lia. rewrite Nat.sub_diag in H.
  cbn in H. now injection H as ->.
Qed.

Lemma format_bin_eqb_target t j :
  valid_target t -> in_range (String.length t) j ->
  String.eqb (format_bin (String.length t) j) t = (j =? target_index_of t).
Proof.
  intros Hv Hj. pose proof (valid_target_bounds t Hv) as Hn.
  destruct (Z.eqb_spec j (target_index_of t)) as [->|Hne].
  - rewrite format_bin_target_index by assumption. apply String.eqb_refl.
  - apply String.eqb_neq. intros Heq.
    rewrite <- (format_bin_target_index t Hv) in Heq at 2.
    apply format_bin_inj in Heq; [contradiction|apply Hn|exact Hj|].
    apply target_index_range.
Qed.

Lemma step_of_entries name iteration t psi key p :
  valid_target t ->
  In (key, p) (probabilities (step_of name iteration (String.length t)
                                      (target_index_of t) psi)) ->
  exists j, in_range (String.length t) j
            /\ key = format_bin (String.length t) j
            /\ p = (Rabs (psi j) ^ 2)%R
            /\ String.eqb key t = (j =? target_index_of t).
Proof.
  intros Hv Hin. unfold step_of in Hin. cbn [probabilities] in Hin.
  apply in_map_iff in Hin as [j [Hkp Hj]]. apply in_zrange in Hj.
  injection Hkp as <- <-. exists j. repeat split; try apply Hj.
  now apply format_bin_eqb_target.
Qed.

Lemma Z_ratio_le (p q a b : Z) :
  0 < q -> 0 < b -> p * b <= q * a -> (IZR p / IZR q <= IZR a / IZR b)%R.
Proof.
  intros Hq Hb H. apply IZR_lt in Hq, Hb. apply IZR_le in H.
  rewrite !mult_IZR in H.
  apply (Rmult_le_reg_r (IZR q * IZR b)); [now apply Rmult_lt_0_compat|].
  replace (IZR p / IZR q * (IZR q * IZR b))%R with (IZR p * IZR b)%R
    by (field; lra).
  replace (IZR a / IZR b * (IZR q * IZR b))%R with (IZR q * IZR a)%R
    by (field; lra).
  exact H.
Qed.

Lemma final_step_of_trace t :
  valid_target t ->
  exists response,
    get_grover_iterations t = Ok response
    /\ list_last (gi_steps response)
       = Ok (step_of "After Diffusion"
                     (iterations_table (String.length t)) (String.length t)
                     (target_index_of t)
                     (state_at t (Z.to_nat (iterations_table (String.length t))))).
Proof.
  intros Hv. pose proof (valid_target_bounds t Hv) as Hn.
  destruct (get_grover_iterations_valid t Hv) as [amp Hresp].
  eexists. split; [exact Hresp|]. cbn [gi_steps].
  apply list_last_nth_error. rewrite trace_steps_length.
  set (k := Z.to_nat (iterations_table (String.length t))).
  assert (Hk : (1 <= k)%nat).
  { subst k. assert (Hc : (String.length t = 1 \/ String.length t = 2
                           \/ String.length t = 3 \/ String.length t = 4
                           \/ String.length t = 5 \/ String.length t = 6
                           \/ String.length t = 7 \/ String.length t = 8)%nat)
      by lia.
    destruct Hc as [->|[->|[->|[->|[->|[->|[->| ->]]]]]]]; cbn; lia. }
  unfold trace_steps.
  replace (1 + 2 * k - 1)%nat with (S (2 * (k - 1) + 1)) by lia.
  cbn [nth_error].
  destruct (nth_error_round_steps t 0 k (k - 1)) as [_ H]; [lia|].
  rewrite H. cbn [Nat.add]. replace (S (k - 1)) with k by lia.
  replace (Z.of_nat (k - 1) + 1) with (iterations_table (String.length t));
    [reflexivity|].
  subst k. assert (0 <= iterations_table (String.length t)) by lia. lia.
Qed.

Lemma length_cases (n : nat) :
  (1 <= n <= 8)%nat ->
  (n = 1 \/ n = 2 \/ n = 3 \/ n = 4 \/ n = 5 \/ n = 6 \/ n = 7 \/ n = 8)%nat.
Proof. lia. Qed.

Lemma final_target_probability_bounds (n : nat) :
  (2 <= n <= 8)%nat ->
  (94 / 100
   <= target_probability_after n (Z.to_nat (iterations_table n)))%R.
Proof.
  intros Hn.
  assert (Hc : (n = 2 \/ n = 3 \/ n = 4 \/ n = 5 \/ n = 6 \/ n = 7 \/ n = 8)%nat)
    by lia.
  unfold target_probability_after.
  destruct Hc as [->|[->|[->|[->|[->|[->| ->]]]]]];
    apply Z_ratio_le; vm_compute; congruence.
Qed.

Lemma target_probability_two_qubits :
  target_probability_after 2 (Z.to_nat (iterations_table 2)) = 1%R.
Proof.
  unfold target_probability_after. vm_compute Z.to_nat.
  vm_compute (fst _ ^ 2).
  vm_compute ((2 ^ Z.of_nat 2) ^ (2 * Z.of_nat 1 + 1)). field.
Qed.

Lemma target_probability_step (n r : nat) :
  (1 <= n <= 8)%nat -> (r < Z.to_nat (iterations_table n))%nat ->
  (target_probability_after n r <= target_probability_after n (S r))%R.
Proof.
  intros Hn Hr. unfold target_probability_after.
  assert (H : Forall (fun r =>
              fst (grover_numerators (2 ^ Z.of_nat n) r) ^ 2
              * (2 ^ Z.of_nat n) ^ (2 * Z.of_nat (S r) + 1)
              <= (2 ^ Z.of_nat n) ^ (2 * Z.of_nat r + 1)
                 * fst (grover_numerators (2 ^ Z.of_nat n) (S r)) ^ 2)
            (seq 0 (Z.to_nat (iterations_table n)))).
  { destruct (length_cases n Hn) as [->|[->|[->|[->|[->|[->|[->| ->]]]]]]];
      vm_compute seq; repeat constructor; vm_compute; congruence. }
  rewrite Forall_forall in H.
  apply Z_ratio_le; [| |apply H; apply in_seq; lia];
    apply Z.pow_pos_nonneg; try lia; apply pow2_pos.
Qed.

Lemma target_probability_monotone (n r r' : nat) :
  (1 <= n <= 8)%nat -> (r <= r')%nat ->
  (r' <= Z.to_nat (iterations_table n))%nat ->
  (target_probability_after n r <= target_probability_after n r')%R.
Proof.
  intros Hn Hle. induction Hle as [|r' Hle IH]; intros Hk; [apply Rle_refl|].
  apply Rle_trans with (target_probability_after n r'); [apply IH; lia|].
  apply target_probability_step; [exact Hn|lia].
Qed.

Lemma step_of_target_probability name iteration t r :
  valid_target t ->
  target_probability (step_of name iteration (String.length t)
                              (target_index_of t) (state_at t r))
  = target_probability_after (String.length t) r.
Proof.
  intros Hv. unfold step_of. cbn [target_probability].
  rewrite state_at_probability by (try assumption; apply target_index_range).
  now rewrite Z.eqb_refl.
Qed.

Lemma within_tolerance (x y : R) : x = y -> (Rabs (x - y) <= 1 / 10 ^ 9)%R.
Proof.
  intros ->. rewrite Rminus_diag, Rabs_R0.
  apply Rlt_le, Rdiv_lt_0_compat; [lra|]. apply pow_lt. lra.
Qed.

Lemma tolerance_pos : (0 < 1 / 10 ^ 9)%R.
Proof. apply Rdiv_lt_0_compat; [lra|]. apply pow_lt. lra. Qed.


Lemma Z_ratio_add_le (a b p q c d : Z) :
  0 < b -> 0 < q -> 0 < d ->
  a * q * d + p * b * d <= c * b * q ->
  (IZR a / IZR b + IZR p / IZR q <= IZR c / IZR d)%R.
Proof.
  intros Hb Hq Hd H. apply IZR_lt in Hb, Hq, Hd. apply IZR_le in H.
  rewrite plus_IZR, !mult_IZR in H.
  apply (Rmult_le_reg_r (IZR b * IZR q * IZR d));
    [repeat apply Rmult_lt_0_compat; assumption|].
  replace ((IZR a / IZR b + IZR p / IZR q) * (IZR b * IZR q * IZR d))%R
    with (IZR a * IZR q * IZR d + IZR p * IZR b * IZR d)%R by (field; lra).
  replace (IZR c / IZR d * (IZR b * IZR q * IZR d))%R
    with (IZR c * IZR b * IZR q)%R by (field; lra).
  exact H.
Qed.

Lemma target_probability_margin (n r : nat) :
  (2 <= n <= 8)%nat -> (r < Z.to_nat (iterations_table n))%nat ->
  (target_probability_after n r + 1 / 100
   <= target_probability_after n (S r))%R.
Proof.
  intros Hn Hr. unfold target_probability_after.
  assert (H : Forall (fun r =>
              fst (grover_numerators (2 ^ Z.of_nat n) r) ^ 2 * 100
              * (2 ^ Z.of_nat n) ^ (2 * Z.of_nat (S r) + 1)
              + 1 * (2 ^ Z.of_nat n) ^ (2 * Z.of_nat r + 1)
                * (2 ^ Z.of_nat n) ^ (2 * Z.of_nat (S r) + 1)
              <= fst (grover_numerators (2 ^ Z.of_nat n) (S r)) ^ 2
                 * (2 ^ Z.of_nat n) ^ (2 * Z.of_nat r + 1) * 100)
            (seq 0 (Z.to_nat (iterations_table n)))).
  { assert (Hc : (n = 2 \/ n = 3 \/ n = 4 \/ n = 5 \/ n = 6 \/ n = 7
                  \/ n = 8)%nat) by lia.
    destruct Hc as [->|[->|[->|[->|[->|[->| ->]]]]]];
      vm_compute seq; repeat constructor; vm_compute; congruence. }
  rewrite Forall_forall in H.
  apply Z_ratio_add_le; [| | |apply H; apply in_seq; lia];
    try lia; apply Z.pow_pos_nonneg; try lia; apply pow2_pos.
Qed.

Lemma target_probability_strict (n r r' : nat) :
  (2 <= n <= 8)%nat -> (r < r')%nat ->
  (r' <= Z.to_nat (iterations_table n))%nat ->
  (target_probability_after n r + 1 / 100
   <= target_probability_after n r')%R.
Proof.
  intros Hn Hlt Hk.
  apply Rle_trans with (target_probability_after n (S r)).
  - apply target_probability_margin; [exact Hn|lia].
  - apply target_probability_monotone; [lia|lia|exact Hk].
Qed.

(** *** The keys of the counts *)





(** * The claims *)

(** C1.  For every valid target, the iteration count returned by the
    circuit builder, by the analysis and by the iteration trace is
    [max(1, floor(pi/4 * sqrt(N/M)))] over the reals, with [N = 2^n] and
    [M = 1]. *)
Theorem optimal_iterations_matches_formula (t : string) :
  valid_target t ->
  exists qc a r,
    create_grover_circuit t
    = Ok (qc, spec_optimal_iterations (2 ^ Z.of_nat (String.length t)) 1)
    /\ analyze_target_state t = Ok a
    /\ an_optimal_iterations a
       = spec_optimal_iterations (2 ^ Z.of_nat (String.length t)) 1
    /\ get_grover_iterations t = Ok r
    /\ gi_optimal_iterations r
       = spec_optimal_iterations (2 ^ Z.of_nat (String.length t)) 1.
Proof.
  intros Hv. pose proof (valid_target_bounds t Hv) as Hn.
  rewrite (spec_optimal_iterations_default _ Hn).
  destruct (create_grover_circuit_valid t Hv) as [qc [Hqc _]].
  destruct (analyze_valid t Hv) as [a [Ha [Hopt _]]].
  destruct (get_grover_iterations_valid t Hv) as [amp Hr].
  exists qc, a. eexists. repeat split; eauto.
Qed.

Lemma optimal_iterations_matches_formula_witness :
  exists qc a r,
    create_grover_circuit "101"
    = Ok (qc, spec_optimal_iterations (2 ^ Z.of_nat (String.length "101")) 1)
    /\ analyze_target_state "101" = Ok a
    /\ an_optimal_iterations a
       = spec_optimal_iterations (2 ^ Z.of_nat (String.length "101")) 1
    /\ get_grover_iterations "101" = Ok r
    /\ gi_optimal_iterations r
       = spec_optimal_iterations (2 ^ Z.of_nat (String.length "101")) 1.
Proof.
  apply (optimal_iterations_matches_formula "101").
  split; [reflexivity|]. unfold MIN_QUBITS, MAX_QUBITS. cbn. lia.
Defined.

(** C3, as the claim words it, fails: on one qubit, from the basis state
    with amplitude 1 at index 0, the diffusion network leaves amplitude
    [-1] at index 1, where inversion about the average gives [+1]. *)
Lemma diffusion_is_inversion_counterexample :
  valid_target "1"
  /\ exists phi,
       evolve (diffusion (String.length "1")) zero_state = Ok phi
       /\ phi 1 = (-1)%R
       /\ inversion_about_mean (String.length "1") zero_state 1 = 1%R
       /\ phi 1 <> inversion_about_mean (String.length "1") zero_state 1.
Proof.
  split; [exact valid_target_1|].
  exists (run (diffusion 1) zero_state).
  change (String.length "1") with 1%nat.
  assert (Hm : mean 1 zero_state = (1 / 2)%R).
  { unfold mean. rewrite amplitude_sum_1. unfold zero_state. cbn. lra. }
  assert (H1 : run (diffusion 1) zero_state 1 = (-1)%R).
  { rewrite (run_diffusion 1 zero_state) by (try lia; split; cbn; lia).
    unfold negated_inversion. rewrite Hm. unfold zero_state. cbn. lra. }
  assert (H2 : inversion_about_mean 1 zero_state 1 = 1%R).
  { unfold inversion_about_mean. rewrite Hm. unfold zero_state. cbn. lra. }
  split; [apply evolve_run, is_unitary_diffusion|].
  split; [exact H1|]. split; [exact H2|]. rewrite H1, H2. lra.
Qed.

(** C3, amended.  For every valid target and every state vector, the
    diffusion network computes the mean [m] of the [2^n] amplitudes of its
    input and sets every amplitude [a_i] to [a_i - 2 m], the inversion
    about the average with the opposite overall sign; the squared
    amplitudes are those of the inversion about the average. *)
Theorem diffusion_is_negated_inversion (t : string) :
  valid_target t ->
  forall psi : Statevector,
    exists phi,
      evolve (diffusion (String.length t)) psi = Ok phi
      /\ agree (String.length t) phi (negated_inversion (String.length t) psi)
      /\ forall j, 0 <= j < 2 ^ Z.of_nat (String.length t) ->
           phi j = (- inversion_about_mean (String.length t) psi j)%R
           /\ (Rabs (phi j) ^ 2
               = Rabs (inversion_about_mean (String.length t) psi j) ^ 2)%R.
Proof.
  intros Hv psi. pose proof (valid_target_bounds t Hv) as Hn.
  exists (run (diffusion (String.length t)) psi).
  split; [apply evolve_run, is_unitary_diffusion|].
  assert (Ha := run_diffusion (String.length t) psi (proj1 Hn)).
  split; [exact Ha|]. intros j Hj. rewrite (Ha j Hj).
  unfold negated_inversion, inversion_about_mean. split; [ring|].
  rewrite !pow2_abs. ring.
Qed.

Lemma diffusion_is_negated_inversion_witness :
  valid_target "101"
  /\ forall psi : Statevector,
    exists phi,
      evolve (diffusion (String.length "101")) psi = Ok phi
      /\ agree (String.length "101") phi
               (negated_inversion (String.length "101") psi)
      /\ forall j, 0 <= j < 2 ^ Z.of_nat (String.length "101") ->
           phi j = (- inversion_about_mean (String.length "101") psi j)%R
           /\ (Rabs (phi j) ^ 2
               = Rabs (inversion_about_mean (String.length "101") psi j) ^ 2)%R.
Proof.
  assert (Hv : valid_target "101").
  { split; [reflexivity|]. unfold MIN_QUBITS, MAX_QUBITS. cbn. lia. }
  split; [exact Hv|]. exact (diffusion_is_negated_inversion "101" Hv).
Defined.

(** C4.  For every valid target the trace succeeds, records one step for
    the initial superposition and one after every oracle and every
    diffusion application, and in each recorded step the probabilities
    sum to exactly 1 (in exact arithmetic, hence within any tolerance). *)
Theorem trace_probabilities_sum_to_one (t : string) :
  valid_target t ->
  exists r,
    get_grover_iterations t = Ok r
    /\ List.length (gi_steps r)
       = (1 + 2 * Z.to_nat (gi_optimal_iterations r))%nat
    /\ Forall (fun st =>
                 Rsum (dict_values (probabilities st)) = 1%R
                 /\ (Rabs (Rsum (dict_values (probabilities st)) - 1)
                     <= 1 / 10 ^ 9)%R)
              (gi_steps r).
Proof.
  intros Hv. destruct (get_grover_iterations_valid t Hv) as [amp Hr].
  eexists. split; [exact Hr|]. cbn [gi_steps gi_optimal_iterations].
  split; [apply trace_steps_length|].
  apply Forall_forall. intros st Hst.
  apply in_trace_steps in Hst as [name [it [psi [-> Hnorm]]]].
  rewrite step_of_values, (Hnorm Hv).
  split; [reflexivity|]. rewrite Rminus_diag, Rabs_R0.
  apply Rlt_le, Rdiv_lt_0_compat; [lra|]. apply pow_lt. lra.
Qed.

Lemma trace_probabilities_sum_to_one_witness :
  exists r,
    get_grover_iterations "101" = Ok r
    /\ List.length (gi_steps r)
       = (1 + 2 * Z.to_nat (gi_optimal_iterations r))%nat
    /\ Forall (fun st =>
                 Rsum (dict_values (probabilities st)) = 1%R
                 /\ (Rabs (Rsum (dict_values (probabilities st)) - 1)
                     <= 1 / 10 ^ 9)%R)
              (gi_steps r).
Proof.
  apply (trace_probabilities_sum_to_one "101").
  split; [reflexivity|]. unfold MIN_QUBITS, MAX_QUBITS. cbn. lia.
Defined.

(** C5.  On the target "1" the trace reports one optimal iteration, and
    the probability of the target in the last recorded step, after the
    diffusion of that round, is 1/2 to within [1e-9]: it misses the 1.0
    of the claim, which is also the "~100%" that the module's own
    documentation gives for two states, by more than the claimed
    tolerance. *)
Theorem single_qubit_final_probability :
  exists r final,
    get_grover_iterations "1" = Ok r
    /\ gi_optimal_iterations r = 1
    /\ list_last (gi_steps r) = Ok final
    /\ step_name final = "After Diffusion"%string
    /\ iteration_number final = 1
    /\ (Rabs (target_probability final - 1 / 2) <= 1 / 10 ^ 9)%R
    /\ (1 / 10 ^ 9 < Rabs (target_probability final - 1))%R.
Proof.
  destruct (get_grover_iterations_valid "1" valid_target_1) as [amp Hr].
  eexists. exists (step_of "After Diffusion" 1 1 1 (state_at "1" 1)).
  split; [exact Hr|]. cbn [gi_steps gi_optimal_iterations].
  split; [reflexivity|]. split; [reflexivity|]. split; [reflexivity|].
  split; [reflexivity|]. cbn [step_of target_probability].
  rewrite state_at_1_target. split; [now apply within_tolerance|].
  replace (1 / 2 - 1)%R with (- (1 / 2))%R by lra.
  rewrite Rabs_Ropp, Rabs_pos_eq by lra.
  apply Rlt_trans with (1 / 10 ^ 1)%R; [|cbn [pow]; lra].
  unfold Rdiv. rewrite !Rmult_1_l. apply Rinv_lt_contravar.
  - apply Rmult_lt_0_compat; apply pow_lt; lra.
  - apply Rlt_pow; [lra|lia].
Qed.



(** C7.  For every valid target the analysis, the iteration trace, the
    circuit builder and the circuit-info endpoint all succeed and report
    the same optimal iteration count: the builder's [sqrt(N / M)] path and
    the [sqrt(N)] path of the other two never differ. *)
Theorem optimal_iterations_agree (t : string) :
  valid_target t ->
  exists a r qc k info,
    analyze_target_state t = Ok a
    /\ get_grover_iterations t = Ok r
    /\ create_grover_circuit t = Ok (qc, k)
    /\ get_circuit_info t = Ok info
    /\ an_optimal_iterations a = gi_optimal_iterations r
    /\ k = an_optimal_iterations a
    /\ ci_optimal_iterations info = k
    /\ optimal_iterations_N_over_M (2 ^ Z.of_nat (String.length t)) 1
       = optimal_iterations_N (2 ^ Z.of_nat (String.length t)).
Proof.
  intros Hv. pose proof (valid_target_bounds t Hv) as Hn.
  destruct (analyze_valid t Hv) as [a [Ha [Hopt _]]].
  destruct (get_grover_iterations_valid t Hv) as [amp Hr].
  destruct (create_grover_circuit_valid t Hv) as [qc [Hqc _]].
  destruct (get_circuit_info_valid t Hv) as [info [Hinfo Hk]].
  destruct (optimal_iterations_default _ Hn) as [H1 H2].
  exists a. eexists. exists qc, (iterations_table (String.length t)), info.
  split; [exact Ha|]. split; [exact Hr|]. split; [exact Hqc|].
  split; [exact Hinfo|]. cbn [gi_optimal_iterations].
  split; [exact Hopt|]. split; [now rewrite Hopt|]. split; [exact Hk|].
  now rewrite H1, H2.
Qed.

Lemma optimal_iterations_agree_witness :
  exists a r qc k info,
    analyze_target_state "101" = Ok a
    /\ get_grover_iterations "101" = Ok r
    /\ create_grover_circuit "101" = Ok (qc, k)
    /\ get_circuit_info "101" = Ok info
    /\ an_optimal_iterations a = gi_optimal_iterations r
    /\ k = an_optimal_iterations a
    /\ ci_optimal_iterations info = k
    /\ optimal_iterations_N_over_M (2 ^ Z.of_nat (String.length "101")) 1
       = optimal_iterations_N (2 ^ Z.of_nat (String.length "101")).
Proof.
  apply (optimal_iterations_agree "101").
  split; [reflexivity|]. unfold MIN_QUBITS, MAX_QUBITS. cbn. lia.
Defined.

(** C8.  For every valid target, every shot count between 100 and 10000
    and every random source, the search endpoint answers 200 and the
    measurement counts it returns are non-negative integers that sum to
    the shot count. *)
Theorem search_counts_sum_to_shots (uniform : nat -> R) (t : string) (S : Z) :
  valid_target t -> 100 <= S <= 10000 ->
  exists response,
    POST_grover_search uniform (mkRequest t S "simulator")
    = Response_200 response
    /\ gr_shots response = S
    /\ Forall (fun v => 0 <= v) (dict_values (gr_measurements response))
    /\ Zsum (dict_values (gr_measurements response)) = S.
Proof.
  intros Hv HS.
  assert (Hrq : request_valid (mkRequest t S "simulator") = true).
  { unfold request_valid. cbn [rq_target_state rq_shots rq_backend].
    rewrite (proj1 (pattern_match_valid t) Hv), field_validate_valid by assumption.
    destruct (Z.leb_spec 100 S); [|lia]. destruct (Z.leb_spec S 10000); [|lia].
    reflexivity. }
  destruct (run_grover_search_valid uniform _ Hrq)
    as [response [Hrun [Hshots [_ [Hsum Hpos]]]]].
  exists response. unfold POST_grover_search. rewrite Hrq. cbn [negb].
  rewrite Hrun. cbn [respond]. cbn [rq_shots] in Hshots, Hsum. auto.
Qed.

Lemma search_counts_sum_to_shots_witness :
  exists response,
    POST_grover_search (fun _ => 0%R) (mkRequest "11" 1000 "simulator")
    = Response_200 response
    /\ gr_shots response = 1000
    /\ Forall (fun v => 0 <= v) (dict_values (gr_measurements response))
    /\ Zsum (dict_values (gr_measurements response)) = 1000.
Proof.
  apply (search_counts_sum_to_shots (fun _ => 0%R) "11" 1000).
  - split; [reflexivity|]. unfold MIN_QUBITS, MAX_QUBITS. cbn. lia.
  - lia.
Defined.

(** C9.  For every valid target and every round [r] of the trace, the
    step recorded after the oracle of round [r] carries exactly the
    probability mapping, and the target probability, of the step recorded
    just before it. *)
Theorem oracle_step_keeps_probabilities (t : string) :
  valid_target t ->
  exists resp,
    get_grover_iterations t = Ok resp
    /\ forall r : nat,
         (1 <= r)%nat -> Z.of_nat r <= gi_optimal_iterations resp ->
         exists prev cur,
           nth_error (gi_steps resp) (2 * r - 2) = Some prev
           /\ nth_error (gi_steps resp) (2 * r - 1) = Some cur
           /\ step_name cur = "After Oracle"%string
           /\ iteration_number cur = Z.of_nat r
           /\ probabilities cur = probabilities prev
           /\ target_probability cur = target_probability prev.
Proof.
  intros Hv. destruct (get_grover_iterations_valid t Hv) as [amp Hr].
  eexists. split; [exact Hr|]. cbn [gi_steps gi_optimal_iterations].
  intros r Hr1 Hr2.
  set (k := Z.to_nat (iterations_table (String.length t))).
  assert (Hrk : (r <= k)%nat) by (unfold k; lia).
  destruct (nth_error_trace_steps_even t k (r - 1)) as [name [it Hprev]]; [lia|].
  pose proof (nth_error_trace_steps_odd t k (r - 1)) as Hcur.
  replace (2 * (r - 1))%nat with (2 * r - 2)%nat in Hprev by lia.
  replace (2 * (r - 1) + 1)%nat with (2 * r - 1)%nat in Hcur by lia.
  eexists _, _. split; [exact Hprev|]. split; [apply Hcur; lia|].
  split; [reflexivity|]. split; [cbn [step_of iteration_number]; lia|].
  split.
  - apply step_of_probabilities_ext. intros j. unfold oracle_state_at.
    now apply run_oracle_gates_sq.
  - cbn [step_of target_probability]. unfold oracle_state_at.
    now apply run_oracle_gates_sq.
Qed.

Lemma oracle_step_keeps_probabilities_witness :
  exists resp,
    get_grover_iterations "101" = Ok resp
    /\ forall r : nat,
         (1 <= r)%nat -> Z.of_nat r <= gi_optimal_iterations resp ->
         exists prev cur,
           nth_error (gi_steps resp) (2 * r - 2) = Some prev
           /\ nth_error (gi_steps resp) (2 * r - 1) = Some cur
           /\ step_name cur = "After Oracle"%string
           /\ iteration_number cur = Z.of_nat r
           /\ probabilities cur = probabilities prev
           /\ target_probability cur = target_probability prev.
Proof.
  apply (oracle_step_keeps_probabilities "101").
  split; [reflexivity|]. unfold MIN_QUBITS, MAX_QUBITS. cbn. lia.
Defined.

(** C10, as the claim words it, fails: the parameter "2" holds a character
    other than '0' and '1', and each of the three routes answers it with
    status 422, not 400. *)
Lemma invalid_target_status_counterexample :
  all_01 "2" = false
  /\ GET_grover_analyze "2" = Response_error 422
  /\ GET_grover_circuit "2" = Response_error 422
  /\ GET_grover_iterations "2" = Response_error 422
  /\ GET_grover_analyze "2" <> Response_error 400
  /\ GET_grover_circuit "2" <> Response_error 400
  /\ GET_grover_iterations "2" <> Response_error 400.
Proof.
  assert (H : forall A (h : string -> result A),
             get_route h "2" = Response_error 422) by reflexivity.
  unfold GET_grover_analyze, GET_grover_circuit, GET_grover_iterations.
  rewrite !H. repeat split; try reflexivity; discriminate.
Qed.

(** C10, amended.  For every target that is empty, holds a character other
    than '0' and '1', or has a length outside the configured bounds: the
    validation at the head of the analyze, circuit-info and
    iteration-trace handlers raises an HTTP error of status 400, and each
    handler stops there, before it builds a circuit or a state vector.
    The three routes themselves never answer such a target with 400: a
    non-empty parameter without a slash is refused with 422, the declared
    pattern being checked before the handler runs; an empty parameter, or
    one that holds a slash, matches no route and is answered 404, or with
    a 307 redirect when stripping its trailing slashes leaves a non-empty
    parameter without a slash. *)
Theorem invalid_target_rejected (t : string) :
  t = EmptyString \/ all_01 t = false
  \/ (String.length t < MIN_QUBITS)%nat \/ (MAX_QUBITS < String.length t)%nat ->
  validate_target_state t = Raise (HTTPException 400)
  /\ analyze_target_state t = Raise (HTTPException 400)
  /\ get_circuit_info t = Raise (HTTPException 400)
  /\ get_grover_iterations t = Raise (HTTPException 400)
  /\ GET_grover_analyze t
     = (if negb (String.length t =? 0)%nat && negb (contains_slash t)
      then Response_error 422
      else if segment_matches (rstrip_slash t)
      then Response_redirect 307
      else Response_error 404)
  /\ GET_grover_circuit t
     = (if negb (String.length t =? 0)%nat && negb (contains_slash t)
      then Response_error 422
      else if segment_matches (rstrip_slash t)
      then Response_redirect 307
      else Response_error 404)
  /\ GET_grover_iterations t
     = (if negb (String.length t =? 0)%nat && negb (contains_slash t)
      then Response_error 422
      else if segment_matches (rstrip_slash t)
      then Response_redirect 307
      else Response_error 404)
  /\ GET_grover_analyze t <> Response_error 400
  /\ GET_grover_circuit t <> Response_error 400
  /\ GET_grover_iterations t <> Response_error 400.
Proof.
  intros H. pose proof (validate_invalid t H) as Hval.
  unfold analyze_target_state, get_circuit_info, get_grover_iterations.
  rewrite Hval. cbn [bind].
  unfold GET_grover_analyze, GET_grover_circuit, GET_grover_iterations.
  rewrite !get_route_invalid by assumption.
  fold (segment_matches t).
  repeat (split; [reflexivity|]).
  destruct (segment_matches t); [|destruct (segment_matches (rstrip_slash t))];
    repeat split; discriminate.
Qed.

Lemma invalid_target_rejected_witness :
  validate_target_state "2" = Raise (HTTPException 400)
  /\ analyze_target_state "2" = Raise (HTTPException 400)
  /\ get_circuit_info "2" = Raise (HTTPException 400)
  /\ get_grover_iterations "2" = Raise (HTTPException 400)
  /\ GET_grover_analyze "2"
     = (if negb (String.length "2" =? 0)%nat && negb (contains_slash "2")
      then Response_error 422
      else if segment_matches (rstrip_slash "2")
      then Response_redirect 307
      else Response_error 404)
  /\ GET_grover_circuit "2"
     = (if negb (String.length "2" =? 0)%nat && negb (contains_slash "2")
      then Response_error 422
      else if segment_matches (rstrip_slash "2")
      then Response_redirect 307
      else Response_error 404)
  /\ GET_grover_iterations "2"
     = (if negb (String.length "2" =? 0)%nat && negb (contains_slash "2")
      then Response_error 422
      else if segment_matches (rstrip_slash "2")
      then Response_redirect 307
      else Response_error 404)
  /\ GET_grover_analyze "2" <> Response_error 400
  /\ GET_grover_circuit "2" <> Response_error 400
  /\ GET_grover_iterations "2" <> Response_error 400.
Proof.
  apply (invalid_target_rejected "2"). right. left. reflexivity.
Defined.

(** * Further properties of the code *)

(** *** Validation layers and status codes *)

Lemma pattern_match_false_cases t :
  pattern_match t = false ->
  t = EmptyString \/ all_01 t = false
  \/ (String.length t < MIN_QUBITS)%nat \/ (MAX_QUBITS < String.length t)%nat.
Proof.
  unfold pattern_match. intros H.
  destruct (all_01 t); [|now right; left].
  destruct (Nat.leb_spec MIN_QUBITS (String.length t)); [|now right; right; left].
  destruct (Nat.leb_spec (String.length t) MAX_QUBITS); [discriminate|].
  now right; right; right.
Qed.

(** X1.  The declared pattern, the field validator of the search request
    and the check at the head of the GET handlers accept exactly the same
    strings.  Each of the three GET routes answers 200 on exactly the
    strings the pattern accepts.  Every other parameter is refused before
    the handler runs: with 422 when it is non-empty and holds no slash;
    otherwise it matches no route and gets 404, or a 307 redirect when
    stripping its trailing slashes leaves a non-empty parameter without a
    slash.  The handlers' status 400 is never sent and, under the default
    configuration, neither is 500. *)
Theorem get_routes_status_classification (t : string) :
  (pattern_match t = true <-> validate_target_state t = Ok tt)
  /\ (pattern_match t = true <-> field_validate_target_state t = Ok t)
  /\ (pattern_match t = true <->
      exists a, GET_grover_analyze t = Response_200 a)
  /\ (pattern_match t = true <->
      exists c, GET_grover_circuit t = Response_200 c)
  /\ (pattern_match t = true <->
      exists r, GET_grover_iterations t = Response_200 r)
  /\ (pattern_match t = false ->
      GET_grover_analyze t
      = (if segment_matches t then Response_error 422
         else if segment_matches (rstrip_slash t) then Response_redirect 307
         else Response_error 404)
      /\ GET_grover_circuit t
         = (if segment_matches t then Response_error 422
            else if segment_matches (rstrip_slash t) then Response_redirect 307
            else Response_error 404)
      /\ GET_grover_iterations t
         = (if segment_matches t then Response_error 422
            else if segment_matches (rstrip_slash t) then Response_redirect 307
            else Response_error 404))
  /\ GET_grover_analyze t <> Response_error 400
  /\ GET_grover_circuit t <> Response_error 400
  /\ GET_grover_iterations t <> Response_error 400
  /\ GET_grover_analyze t <> Response_error 500
  /\ GET_grover_circuit t <> Response_error 500
  /\ GET_grover_iterations t <> Response_error 500.
Proof.
  unfold GET_grover_analyze, GET_grover_circuit, GET_grover_iterations.
  destruct (pattern_match t) eqn:Hp.
  - pose proof (proj2 (pattern_match_valid t) Hp) as Hv.
    destruct (analyze_valid t Hv) as [a [Ha _]].
    destruct (get_circuit_info_valid t Hv) as [c [Hc _]].
    destruct (get_grover_iterations_valid t Hv) as [amp Hr].
    rewrite !get_route_valid by assumption. rewrite Ha, Hc, Hr. cbn [respond].
    repeat split; intros; try discriminate; eauto using validate_valid,
      field_validate_valid.
  - pose proof (pattern_match_false_cases t Hp) as Hi.
    rewrite !get_route_invalid by assumption.
    rewrite (validate_invalid t Hi).
    assert (Hf : field_validate_target_state t <> Ok t).
    { unfold field_validate_target_state. unfold pattern_match in Hp.
      destruct ((String.length t =? 0)%nat || negb (all_01 t))%bool eqn:E1;
        [discriminate|].
      apply orb_false_iff in E1 as [_ E1]. apply negb_false_iff in E1.
      rewrite E1 in Hp. cbn [andb] in Hp.
      destruct (Nat.ltb_spec (String.length t) MIN_QUBITS); [discriminate|].
      destruct (Nat.ltb_spec MAX_QUBITS (String.length t)); [discriminate|].
      destruct (Nat.leb_spec MIN_QUBITS (String.length t)); [|lia].
      destruct (Nat.leb_spec (String.length t) MAX_QUBITS); [discriminate|lia]. }
    destruct (segment_matches t);
      [|destruct (segment_matches (rstrip_slash t))];
      repeat split; intros; try discriminate; try reflexivity;
      try contradiction; try (destruct H; discriminate).
Qed.

Lemma request_valid_ok request :
  request_valid request = true <-> request_ok request.
Proof.
  unfold request_valid, request_ok. rewrite !andb_true_iff, !Z.leb_le.
  rewrite String.eqb_eq, <- pattern_match_valid. split.
  - intros [[[[Hp _] H1] H2] Hb]. auto.
  - intros [Hp [[H1 H2] Hb]].
    split; [split; [split; [split|]|]|]; auto.
    now rewrite (field_validate_valid _ Hp).
Qed.

(** X2.  Whatever the random source, the search route answers 200 when
    the request has a valid target, between 100 and 10000 shots and the
    backend "simulator", and 422 in every other case; the response echoes
    the target, its length and the shot count. *)
Theorem search_route_status_classification
  (uniform : nat -> R) (request : GroverRequest) :
  (request_ok request <->
   exists response,
     POST_grover_search uniform request = Response_200 response
     /\ gr_target_state response = rq_target_state request
     /\ gr_num_qubits response = String.length (rq_target_state request)
     /\ gr_shots response = rq_shots request)
  /\ (~ request_ok request <->
      POST_grover_search uniform request = Response_error 422).
Proof.
  unfold POST_grover_search. destruct (request_valid request) eqn:Hrq.
  - pose proof (proj1 (request_valid_ok request) Hrq) as Hok.
    destruct (run_grover_search_valid uniform request Hrq)
      as [response [Hrun [Hshots _]]].
    cbn [negb]. rewrite Hrun. cbn [respond]. split; split.
    + intros _. exists response. split; [reflexivity|].
      unfold run_grover_search in Hrun.
      destruct (create_grover_circuit (rq_target_state request)) as [[qc k]|];
        [|discriminate].
      cbn [bind] in Hrun.
      destruct (simulator_run uniform qc (rq_shots request)); [|discriminate].
      cbn [bind] in Hrun.
      destruct (int_truediv _ _); [|discriminate].
      cbn [bind except_500] in Hrun. injection Hrun as <-.
      cbn [gr_target_state gr_num_qubits gr_shots]. auto.
    + intros _. exact Hok.
    + intros H. contradiction.
    + discriminate.
  - assert (Hno : ~ request_ok request).
    { intros H. apply request_valid_ok in H. congruence. }
    cbn [negb]. split; split.
    + intros H. contradiction.
    + intros [response [H _]]. discriminate.
    + reflexivity.
    + intros _. exact Hno.
Qed.

(** *** The probabilities of the trace *)

(** X3.  In the trace of a valid target, the step after [r] complete
    rounds gives the target the probability [A^2 / N^(2r+1)] and every
    other basis string the probability [B^2 / N^(2r+1)], each to within
    [1e-9], where the integers [(A, B)] start at [(1, 1)] and one round
    turns them into [(-(N-2)A - 2(N-1)B, 2A - (N-2)B)]. *)
Theorem trace_probabilities_closed_form (t : string) :
  valid_target t ->
  exists response,
    get_grover_iterations t = Ok response
    /\ forall r : nat,
         Z.of_nat r <= gi_optimal_iterations response ->
         exists st,
           nth_error (gi_steps response) (2 * r) = Some st
           /\ (Rabs (target_probability st
                     - target_probability_after (String.length t) r)
               <= 1 / 10 ^ 9)%R
           /\ forall key p,
                In (key, p) (probabilities st) ->
                (Rabs (p - (if String.eqb key t
                            then target_probability_after (String.length t) r
                            else other_probability_after (String.length t) r))
                 <= 1 / 10 ^ 9)%R.
Proof.
  intros Hv. destruct (get_grover_iterations_valid t Hv) as [amp Hresp].
  eexists. split; [exact Hresp|]. cbn [gi_steps gi_optimal_iterations].
  intros r Hr.
  destruct (nth_error_trace_steps_even
              t (Z.to_nat (iterations_table (String.length t))) r)
    as [name [iteration Hnth]]; [lia|].
  eexists. split; [exact Hnth|]. split.
  - apply within_tolerance. now apply step_of_target_probability.
  - intros key p Hin. apply within_tolerance.
    destruct (step_of_entries _ _ _ _ _ _ Hv Hin) as [j [Hj [_ [-> ->]]]].
    now apply state_at_probability.
Qed.

Lemma trace_probabilities_closed_form_witness :
  exists response,
    get_grover_iterations "11" = Ok response
    /\ forall r : nat,
         Z.of_nat r <= gi_optimal_iterations response ->
         exists st,
           nth_error (gi_steps response) (2 * r) = Some st
           /\ (Rabs (target_probability st
                     - target_probability_after (String.length "11") r)
               <= 1 / 10 ^ 9)%R
           /\ forall key p,
                In (key, p) (probabilities st) ->
                (Rabs (p - (if String.eqb key "11"
                            then target_probability_after (String.length "11") r
                            else other_probability_after (String.length "11") r))
                 <= 1 / 10 ^ 9)%R.
Proof.
  apply (trace_probabilities_closed_form "11").
  split; [reflexivity|]. unfold MIN_QUBITS, MAX_QUBITS. cbn. lia.
Defined.

(** X4.  For every valid target of two or more bits the last step of the
    trace is the one recorded after the diffusion of the last round and
    gives the target a probability of at least 94%; for a two-bit target
    that probability is 1 to within [1e-9]. *)
Theorem final_target_probability_high (t : string) :
  valid_target t -> (2 <= String.length t)%nat ->
  exists response st,
    get_grover_iterations t = Ok response
    /\ list_last (gi_steps response) = Ok st
    /\ step_name st = "After Diffusion"%string
    /\ iteration_number st = gi_optimal_iterations response
    /\ (94 / 100 <= target_probability st)%R
    /\ (String.length t = 2%nat ->
        (Rabs (target_probability st - 1) <= 1 / 10 ^ 9)%R).
Proof.
  intros Hv H2. pose proof (valid_target_bounds t Hv) as Hn.
  destruct (final_step_of_trace t Hv) as [response [Hresp Hlast]].
  exists response. eexists. split; [exact Hresp|]. split; [exact Hlast|].
  split; [reflexivity|]. split.
  - destruct (get_grover_iterations_valid t Hv) as [amp Hresp'].
    rewrite Hresp' in Hresp. injection Hresp as <-. reflexivity.
  - rewrite step_of_target_probability by assumption. split.
    + apply final_target_probability_bounds. lia.
    + intros ->. apply within_tolerance, target_probability_two_qubits.
Qed.

Lemma final_target_probability_high_witness :
  exists response st,
    get_grover_iterations "101" = Ok response
    /\ list_last (gi_steps response) = Ok st
    /\ step_name st = "After Diffusion"%string
    /\ iteration_number st = gi_optimal_iterations response
    /\ (94 / 100 <= target_probability st)%R
    /\ (String.length "101" = 2%nat ->
        (Rabs (target_probability st - 1) <= 1 / 10 ^ 9)%R).
Proof.
  apply (final_target_probability_high "101").
  - split; [reflexivity|]. unfold MIN_QUBITS, MAX_QUBITS. cbn. lia.
  - cbn. lia.
Defined.

(** X5.  Along the trace of a valid target, the probability of the target
    after a complete round is not below its probability after an earlier
    round by more than [1e-9]; for two qubits and more it is above it by
    at least one percentage point.  In particular the last step is not
    below the initial superposition. *)
Theorem target_probability_never_decreases (t : string) :
  valid_target t ->
  exists response,
    get_grover_iterations t = Ok response
    /\ forall r r' : nat,
         (r <= r')%nat -> Z.of_nat r' <= gi_optimal_iterations response ->
         exists st st',
           nth_error (gi_steps response) (2 * r) = Some st
           /\ nth_error (gi_steps response) (2 * r') = Some st'
           /\ (target_probability st <= target_probability st' + 1 / 10 ^ 9)%R
           /\ ((2 <= String.length t)%nat -> (r < r')%nat ->
               (target_probability st + 1 / 100 <= target_probability st')%R).
Proof.
  intros Hv. pose proof (valid_target_bounds t Hv) as Hn.
  destruct (get_grover_iterations_valid t Hv) as [amp Hresp].
  eexists. split; [exact Hresp|]. cbn [gi_steps gi_optimal_iterations].
  intros r r' Hle Hk.
  set (k := Z.to_nat (iterations_table (String.length t))).
  assert (Hk' : (r' <= k)%nat) by (unfold k; lia).
  destruct (nth_error_trace_steps_even t k r) as [name [iteration Hnth]]; [lia|].
  destruct (nth_error_trace_steps_even t k r' Hk') as [name' [iteration' Hnth']].
  eexists. eexists. split; [exact Hnth|]. split; [exact Hnth'|].
  rewrite !step_of_target_probability by assumption. split.
  - pose proof (target_probability_monotone _ r r' Hn Hle Hk').
    pose proof tolerance_pos. lra.
  - intros H2 Hlt. apply target_probability_strict; [lia|exact Hlt|exact Hk'].
Qed.

Lemma target_probability_never_decreases_witness :
  exists response,
    get_grover_iterations "101" = Ok response
    /\ forall r r' : nat,
         (r <= r')%nat -> Z.of_nat r' <= gi_optimal_iterations response ->
         exists st st',
           nth_error (gi_steps response) (2 * r) = Some st
           /\ nth_error (gi_steps response) (2 * r') = Some st'
           /\ (target_probability st <= target_probability st' + 1 / 10 ^ 9)%R
           /\ ((2 <= String.length "101")%nat -> (r < r')%nat ->
               (target_probability st + 1 / 100 <= target_probability st')%R).
Proof.
  apply (target_probability_never_decreases "101").
  split; [reflexivity|]. unfold MIN_QUBITS, MAX_QUBITS. cbn. lia.
Defined.

(** *** The circuit of the search route *)

Lemma filter_all {A : Type} (p : A -> bool) xs :
  forallb p xs = true -> filter p xs = xs.
Proof.
  induction xs as [|x xs IH]; [reflexivity|]. cbn [forallb filter].
  intros H. apply andb_true_iff in H as [-> H]. now rewrite IH.
Qed.

Lemma filter_measures (qs : list nat) :
  filter is_unitary (map (fun q => Measure q q) qs) = [].
Proof. induction qs as [|q qs IH]; [reflexivity|exact IH]. Qed.

Lemma data_qc_append qc gs : data (qc_append qc gs) = data qc ++ gs.
Proof. reflexivity. Qed.

Lemma search_loop t (ks : list Z) (qc : QuantumCircuit) (r : nat) :
  filter is_unitary (data qc) = data qc ->
  run (data qc) zero_state = state_at t r ->
  let qc' :=
    fold_left
      (fun qc (_ : Z) =>
         let qc := qc_compose qc (mkCircuit (String.length t) 0 (oracle_gates t)) in
         let qc := qc_append qc (diffusion (String.length t)) in
         qc_append qc [Barrier])
      ks qc in
  filter is_unitary (data qc') = data qc'
  /\ run (data qc') zero_state = state_at t (r + List.length ks).
Proof.
  revert qc r. induction ks as [|k ks IH]; intros qc r Hf Hrun.
  - cbn [fold_left List.length]. now rewrite Nat.add_0_r.
  - cbn [fold_left List.length]. cbn zeta.
    replace (r + S (List.length ks))%nat with (S r + List.length ks)%nat by lia.
    apply IH.
    + unfold qc_compose, qc_append. cbn [data].
      rewrite !filter_app, Hf, (filter_all _ _ (is_unitary_oracle_gates t)),
        (filter_all _ _ (is_unitary_diffusion _)). reflexivity.
    + unfold qc_compose, qc_append. cbn [data]. rewrite !run_app, Hrun.
      rewrite state_at_S. reflexivity.
Qed.

Lemma create_grover_circuit_data t :
  valid_target t ->
  exists qc,
    create_grover_circuit t = Ok (qc, iterations_table (String.length t))
    /\ data qc = filter is_unitary (data qc)
                 ++ map (fun q => Measure q q) (range (String.length t))
    /\ run (filter is_unitary (data qc)) zero_state
       = state_at t (Z.to_nat (iterations_table (String.length t))).
Proof.
  intros Hv. pose proof (valid_target_bounds t Hv) as Hn.
  unfold create_grover_circuit.
  destruct (optimal_iterations_default _ Hn) as [_ Hopt]. rewrite Hopt. cbn [bind].
  destruct (Nat.eqb_spec (String.length t) 0) as [H0|_]; [lia|]. cbn [bind].
  unfold build_simple_grover_oracle. rewrite build_oracle_valid by assumption.
  cbn [bind]. eexists. split; [reflexivity|].
  match goal with
  | |- context [fold_left ?f ?xs ?qc] =>
      destruct (search_loop t xs qc 0) as [H1 H2]
  end.
  - unfold qc_append. cbn [data app]. apply filter_all, is_unitary_h_range.
  - reflexivity.
  - cbn zeta in H1, H2. rewrite data_qc_append.
    rewrite !filter_app, filter_measures, app_nil_r, H1. split; [reflexivity|].
    rewrite H2. cbn [Nat.add]. f_equal. unfold zrange.
    now rewrite length_map, length_seq.
Qed.

(** X6.  The circuit built for the search route is a list of unitary
    gates and barriers followed by the measurement of every qubit [q] into
    classical bit [q], and the state its unitary part prepares from
    [|0...0>] has, at every basis string, the probability that the last
    step of the trace of the same target reports. *)
Theorem search_circuit_prepares_final_trace_state (t : string) :
  valid_target t ->
  exists qc response st psi,
    create_grover_circuit t = Ok (qc, gi_optimal_iterations response)
    /\ get_grover_iterations t = Ok response
    /\ list_last (gi_steps response) = Ok st
    /\ data qc = filter is_unitary (data qc)
                 ++ map (fun q => Measure q q) (range (String.length t))
    /\ evolve (filter is_unitary (data qc)) zero_state = Ok psi
    /\ forall j, 0 <= j < 2 ^ Z.of_nat (String.length t) ->
         dict_get (probabilities st) (format_bin (String.length t) j)
         = Some (Rabs (psi j) ^ 2)%R.
Proof.
  intros Hv. pose proof (valid_target_bounds t Hv) as Hn.
  destruct (create_grover_circuit_data t Hv) as [qc [Hqc [Hdata Hrun]]].
  destruct (final_step_of_trace t Hv) as [response [Hresp Hlast]].
  destruct (get_grover_iterations_valid t Hv) as [amp Hresp'].
  assert (Hk : gi_optimal_iterations response
               = iterations_table (String.length t)).
  { rewrite Hresp' in Hresp. injection Hresp as <-. reflexivity. }
  exists qc, response. eexists. eexists.
  split; [now rewrite Hk|]. split; [exact Hresp|]. split; [exact Hlast|].
  split; [exact Hdata|].
  split; [apply evolve_run, is_unitary_filter|].
  intros j Hj. rewrite Hrun. unfold step_of. cbn [probabilities].
  apply (dict_get_map_key _ (fun i => (Rabs (state_at t _ i) ^ 2)%R));
    [apply Hn|exact Hj].
Qed.

Lemma search_circuit_prepares_final_trace_state_witness :
  exists qc response st psi,
    create_grover_circuit "101" = Ok (qc, gi_optimal_iterations response)
    /\ get_grover_iterations "101" = Ok response
    /\ list_last (gi_steps response) = Ok st
    /\ data qc = filter is_unitary (data qc)
                 ++ map (fun q => Measure q q) (range (String.length "101"))
    /\ evolve (filter is_unitary (data qc)) zero_state = Ok psi
    /\ forall j, 0 <= j < 2 ^ Z.of_nat (String.length "101") ->
         dict_get (probabilities st) (format_bin (String.length "101") j)
         = Some (Rabs (psi j) ^ 2)%R.
Proof.
  apply (search_circuit_prepares_final_trace_state "101").
  split; [reflexivity|]. unfold MIN_QUBITS, MAX_QUBITS. cbn. lia.
Defined.

(** *** The shape of the trace *)

Lemma state_at_0_probability t j :
  in_range (String.length t) j ->
  (Rabs (state_at t 0 j) ^ 2 = 1 / 2 ^ String.length t)%R.
Proof.
  intros Hj. unfold state_at. cbn [trace_data].
  rewrite uniform_amplitude by exact Hj. rewrite Rabs_sq.
  apply inv_sqrt2_pow_sq.
Qed.

(** X7.  The first step of the trace of a valid target is named
    "Initial Superposition", carries round number 0, and gives every one
    of the [2^n] basis strings, the target included, the probability
    [1 / 2^n] to within [1e-9]. *)
Theorem initial_step_is_uniform (t : string) :
  valid_target t ->
  exists response st,
    get_grover_iterations t = Ok response
    /\ nth_error (gi_steps response) 0 = Some st
    /\ step_name st = "Initial Superposition"%string
    /\ iteration_number st = 0
    /\ (Rabs (target_probability st - 1 / 2 ^ String.length t)
        <= 1 / 10 ^ 9)%R
    /\ List.length (probabilities st) = (2 ^ String.length t)%nat
    /\ forall key p, In (key, p) (probabilities st) ->
                     (Rabs (p - 1 / 2 ^ String.length t) <= 1 / 10 ^ 9)%R.
Proof.
  intros Hv. destruct (get_grover_iterations_valid t Hv) as [amp Hresp].
  eexists. eexists. split; [exact Hresp|]. cbn [gi_steps].
  split; [reflexivity|]. split; [reflexivity|]. split; [reflexivity|].
  split; [|split].
  - unfold step_of. cbn [target_probability]. apply within_tolerance.
    apply state_at_0_probability, target_index_range.
  - unfold step_of. cbn [probabilities].
    rewrite length_map, zrange_length by (pose proof (pow2_pos (String.length t)); lia).
    now rewrite pow2_nat, Nat2Z.id.
  - intros key p Hin. apply within_tolerance.
    destruct (step_of_entries _ _ _ _ _ _ Hv Hin) as [j [Hj [_ [-> _]]]].
    now apply state_at_0_probability.
Qed.

Lemma initial_step_is_uniform_witness :
  exists response st,
    get_grover_iterations "101" = Ok response
    /\ nth_error (gi_steps response) 0 = Some st
    /\ step_name st = "Initial Superposition"%string
    /\ iteration_number st = 0
    /\ (Rabs (target_probability st - 1 / 2 ^ String.length "101")
        <= 1 / 10 ^ 9)%R
    /\ List.length (probabilities st) = (2 ^ String.length "101")%nat
    /\ forall key p, In (key, p) (probabilities st) ->
                     (Rabs (p - 1 / 2 ^ String.length "101") <= 1 / 10 ^ 9)%R.
Proof.
  apply (initial_step_is_uniform "101").
  split; [reflexivity|]. unfold MIN_QUBITS, MAX_QUBITS. cbn. lia.
Defined.

(** X8.  The trace of a valid target has [2 * optimal_iterations + 1]
    steps.  Round [r + 1] contributes the steps at positions [2r + 1] and
    [2r + 2], named "After Oracle" and "After Diffusion" and both numbered
    [r + 1]; every step lists [2^n] probabilities. *)
Theorem trace_steps_layout (t : string) :
  valid_target t ->
  exists response,
    get_grover_iterations t = Ok response
    /\ gi_target_state response = t
    /\ gi_num_qubits response = String.length t
    /\ gi_search_space_size response = 2 ^ Z.of_nat (String.length t)
    /\ Z.of_nat (List.length (gi_steps response))
       = 2 * gi_optimal_iterations response + 1
    /\ (forall r : nat,
          Z.of_nat r < gi_optimal_iterations response ->
          exists oracle_step diffusion_step,
            nth_error (gi_steps response) (2 * r + 1) = Some oracle_step
            /\ nth_error (gi_steps response) (2 * r + 2) = Some diffusion_step
            /\ step_name oracle_step = "After Oracle"%string
            /\ step_name diffusion_step = "After Diffusion"%string
            /\ iteration_number oracle_step = Z.of_nat r + 1
            /\ iteration_number diffusion_step = Z.of_nat r + 1)
    /\ (forall st, In st (gi_steps response) ->
                   List.length (probabilities st) = (2 ^ String.length t)%nat).
Proof.
  intros Hv. pose proof (valid_target_bounds t Hv) as Hn.
  destruct (get_grover_iterations_valid t Hv) as [amp Hresp].
  eexists. split; [exact Hresp|].
  cbn [gi_target_state gi_num_qubits gi_search_space_size gi_steps
       gi_optimal_iterations].
  assert (Hk : 0 <= iterations_table (String.length t)).
  { destruct (length_cases _ Hn) as [->|[->|[->|[->|[->|[->|[->| ->]]]]]]];
      cbn; lia. }
  repeat (split; [reflexivity|]). split; [|split].
  - rewrite trace_steps_length. lia.
  - intros r Hr.
    destruct (nth_error_round_steps t 0 (Z.to_nat (iterations_table (String.length t))) r)
      as [H1 H2]; [lia|].
    eexists. eexists. unfold trace_steps.
    replace (2 * r + 1)%nat with (S (2 * r)) by lia.
    replace (2 * r + 2)%nat with (S (2 * r + 1)) by lia.
    cbn [nth_error]. split; [exact H1|]. split; [exact H2|].
    cbn [Nat.add]. repeat split.
  - intros st Hin. apply in_trace_steps in Hin as [name [iteration [psi [-> _]]]].
    unfold step_of. cbn [probabilities].
    rewrite length_map, zrange_length by (pose proof (pow2_pos (String.length t)); lia).
    now rewrite pow2_nat, Nat2Z.id.
Qed.

Lemma trace_steps_layout_witness :
  exists response,
    get_grover_iterations "101" = Ok response
    /\ gi_target_state response = "101"%string
    /\ gi_num_qubits response = String.length "101"
    /\ gi_search_space_size response = 2 ^ Z.of_nat (String.length "101")
    /\ Z.of_nat (List.length (gi_steps response))
       = 2 * gi_optimal_iterations response + 1
    /\ (forall r : nat,
          Z.of_nat r < gi_optimal_iterations response ->
          exists oracle_step diffusion_step,
            nth_error (gi_steps response) (2 * r + 1) = Some oracle_step
            /\ nth_error (gi_steps response) (2 * r + 2) = Some diffusion_step
            /\ step_name oracle_step = "After Oracle"%string
            /\ step_name diffusion_step = "After Diffusion"%string
            /\ iteration_number oracle_step = Z.of_nat r + 1
            /\ iteration_number diffusion_step = Z.of_nat r + 1)
    /\ (forall st, In st (gi_steps response) ->
                   List.length (probabilities st) = (2 ^ String.length "101")%nat).
Proof.
  apply (trace_steps_layout "101").
  split; [reflexivity|]. unfold MIN_QUBITS, MAX_QUBITS. cbn. lia.
Defined.

(** *** The oracle builder called on its own *)

Lemma ints_of_chars_digits cs :
  if forallb is_digit cs
  then exists bits, ints_of_chars cs = Ok bits
                    /\ List.length bits = List.length cs
  else ints_of_chars cs = Raise ValueError.
Proof.
  induction cs as [|c cs IH]; [now exists []|].
  cbn [forallb ints_of_chars]. unfold int_of_char. fold (is_digit c).
  destruct (is_digit c); cbn [andb bind]; [|reflexivity].
  destruct (forallb is_digit cs).
  - destruct IH as [bits [-> Hlen]]. cbn [bind]. eexists. split; [reflexivity|].
    cbn [List.length]. now rewrite Hlen.
  - now rewrite IH.
Qed.

Lemma forallb_rev_eq {A : Type} (p : A -> bool) xs :
  forallb p (rev xs) = forallb p xs.
Proof.
  induction xs as [|x xs IH]; [reflexivity|]. cbn [rev forallb].
  rewrite forallb_app, IH. cbn [forallb]. rewrite andb_true_r. apply andb_comm.
Qed.

Lemma build_oracle_shape t qc :
  build_generalized_grover_oracle t = Ok qc ->
  exists bits,
    List.length bits = String.length t /\ (1 <= String.length t <= 8)%nat
    /\ qc = mkCircuit (String.length t) 0
              (x_where_zero bits ++ multi_controlled_z (List.length bits)
                 ++ x_where_zero bits).
Proof.
  unfold build_generalized_grover_oracle, MIN_QUBITS, MAX_QUBITS.
  destruct (Nat.ltb_spec (String.length t) 1); [discriminate|].
  destruct (Nat.ltb_spec 8 (String.length t)); [discriminate|]. cbn [orb].
  pose proof (ints_of_chars_digits (rev (list_ascii_of_string t))) as Hd.
  destruct (forallb is_digit (rev (list_ascii_of_string t))).
  - destruct Hd as [bits [-> Hlen]]. cbn [bind]. intros Hq. injection Hq as <-.
    rewrite length_rev, <- string_length_chars in Hlen.
    exists bits. split; [exact Hlen|]. split; [lia|].
    unfold qc_append. cbn [num_qubits num_clbits data app].
    now rewrite Hlen, <- app_assoc.
  - rewrite Hd. discriminate.
Qed.

Lemma oracle_builder_result t :
  forallb is_digit (list_ascii_of_string t) = true ->
  (1 <= String.length t <= 8)%nat ->
  exists qc, build_generalized_grover_oracle t = Ok qc.
Proof.
  intros Hd Hn. unfold build_generalized_grover_oracle, MIN_QUBITS, MAX_QUBITS.
  destruct (Nat.ltb_spec (String.length t) 1); [lia|].
  destruct (Nat.ltb_spec 8 (String.length t)); [lia|]. cbn [orb].
  pose proof (ints_of_chars_digits (rev (list_ascii_of_string t))) as H'.
  rewrite forallb_rev_eq, Hd in H'. destruct H' as [bits [-> _]].
  cbn [bind]. eexists. reflexivity.
Qed.

(** X9.  Called on its own with a string of ASCII characters, the oracle
    builder returns a circuit exactly when the string has one to eight
    characters, all of them decimal digits (it reads each character with
    [int], so digits other than 0 and 1 pass), and raises [ValueError]
    for every other such string.  The circuit it returns has one qubit
    per character, no classical bit and no measurement. *)
Theorem oracle_builder_domain (t : string) :
  forallb is_ascii (list_ascii_of_string t) = true ->
  if forallb is_digit (list_ascii_of_string t)
     && (1 <=? String.length t)%nat && (String.length t <=? 8)%nat
  then exists qc,
         build_generalized_grover_oracle t = Ok qc
         /\ build_simple_grover_oracle t = Ok qc
         /\ num_qubits qc = String.length t
         /\ num_clbits qc = 0%nat
         /\ forallb is_unitary (data qc) = true
  else build_generalized_grover_oracle t = Raise ValueError
       /\ build_simple_grover_oracle t = Raise ValueError.
Proof.
  intros _.
  unfold build_simple_grover_oracle, build_generalized_grover_oracle,
    MIN_QUBITS, MAX_QUBITS.
  pose proof (ints_of_chars_digits (rev (list_ascii_of_string t))) as Hd.
  rewrite forallb_rev_eq in Hd.
  destruct (Nat.ltb_spec (String.length t) 1);
    destruct (Nat.leb_spec 1 (String.length t)); try lia;
    [now rewrite andb_false_r|].
  destruct (Nat.ltb_spec 8 (String.length t));
    destruct (Nat.leb_spec (String.length t) 8); try lia;
    [now rewrite andb_false_r|].
  cbn [orb]. rewrite !andb_true_r.
  destruct (forallb is_digit (list_ascii_of_string t)).
  - destruct Hd as [bits [-> Hlen]]. cbn [bind]. eexists.
    split; [reflexivity|]. split; [reflexivity|].
    unfold qc_append. cbn [num_qubits num_clbits data app].
    split; [reflexivity|]. split; [reflexivity|].
    now rewrite !is_unitary_app, !is_unitary_x_where_zero, is_unitary_mcz.
  - rewrite Hd. now split.
Qed.

Lemma oracle_builder_domain_witness :
  if forallb is_digit (list_ascii_of_string "12")
     && (1 <=? String.length "12")%nat && (String.length "12" <=? 8)%nat
  then exists qc,
         build_generalized_grover_oracle "12" = Ok qc
         /\ build_simple_grover_oracle "12" = Ok qc
         /\ num_qubits qc = String.length "12"
         /\ num_clbits qc = 0%nat
         /\ forallb is_unitary (data qc) = true
  else build_generalized_grover_oracle "12" = Raise ValueError
       /\ build_simple_grover_oracle "12" = Raise ValueError.
Proof.
  apply (oracle_builder_domain "12"). reflexivity.
Defined.

Lemma phase_phase b x : phase b (phase b x) = x.
Proof. destruct b; cbn [phase]; [apply Ropp_involutive|reflexivity]. Qed.

(** X10.  For every string of one to eight ASCII decimal digits the
    oracle builder returns a circuit that is its own inverse: composed
    with itself, its gates give back every amplitude of every state
    vector (the gates read as exact operators). *)
Theorem oracle_is_self_inverse (t : string) :
  forallb is_digit (list_ascii_of_string t) = true ->
  (1 <= String.length t <= 8)%nat ->
  exists qc,
    build_generalized_grover_oracle t = Ok qc
    /\ forall psi : Statevector,
         exists phi,
           evolve (data (qc_compose qc qc)) psi = Ok phi
           /\ forall j, phi j = psi j.
Proof.
  intros Hd Hn. pose proof (oracle_builder_result t Hd Hn) as [qc Hb].
  exists qc. split; [exact Hb|]. intros psi.
  destruct (build_oracle_shape t qc Hb) as [bits [Hlen [_ ->]]].
  unfold qc_compose, qc_append. cbn [data].
  rewrite evolve_run
    by now rewrite !is_unitary_app, !is_unitary_x_where_zero, is_unitary_mcz.
  eexists. split; [reflexivity|]. intros j.
  rewrite run_app, !run_x_mcz_x by lia. apply phase_phase.
Qed.

Lemma oracle_is_self_inverse_witness :
  exists qc,
    build_generalized_grover_oracle "101" = Ok qc
    /\ forall psi : Statevector,
         exists phi,
           evolve (data (qc_compose qc qc)) psi = Ok phi
           /\ forall j, phi j = psi j.
Proof.
  apply (oracle_is_self_inverse "101"); [reflexivity|cbn; lia].
Defined.

(** *** The diffusion block *)

Lemma amplitude_sum_negated_inversion n psi :
  amplitude_sum n (negated_inversion n psi) = (- amplitude_sum n psi)%R.
Proof.
  unfold negated_inversion, mean.
  set (m := (amplitude_sum n psi / 2 ^ n)%R).
  unfold amplitude_sum at 1.
  rewrite (Rsum_map_ext _ (fun j => (psi j + - (2 * m))%R))
    by (intros; ring).
  rewrite (Rsum_map_plus psi (fun _ => (- (2 * m))%R)), Rsum_map_const,
    zrange_pow2_length.
  fold (amplitude_sum n psi). subst m.
  assert (Hp : (2 ^ n <> 0)%R) by (apply pow_nonzero; lra). field. exact Hp.
Qed.

Lemma negated_inversion_involutive n psi phi :
  agree n phi (negated_inversion n psi) ->
  agree n (negated_inversion n phi) psi.
Proof.
  intros H j Hj. unfold negated_inversion at 1, mean.
  rewrite (amplitude_sum_agree n _ _ H), amplitude_sum_negated_inversion.
  rewrite (H j Hj). unfold negated_inversion, mean.
  assert (Hp : (2 ^ n <> 0)%R) by (apply pow_nonzero; lra). field. exact Hp.
Qed.

(** X11.  For any number of qubits from one up, applying the diffusion
    block twice gives back the amplitude of every basis state of every
    state vector: the block is its own inverse. *)
Theorem diffusion_is_self_inverse (n : nat) (psi : Statevector) :
  (1 <= n)%nat ->
  exists phi,
    evolve (diffusion n ++ diffusion n) psi = Ok phi
    /\ forall j, 0 <= j < 2 ^ Z.of_nat n -> phi j = psi j.
Proof.
  intros Hn. rewrite evolve_run by now rewrite is_unitary_app, is_unitary_diffusion.
  eexists. split; [reflexivity|]. intros j Hj. rewrite run_app.
  rewrite (run_diffusion n _ Hn j Hj).
  apply (negated_inversion_involutive n psi); [|exact Hj].
  now apply run_diffusion.
Qed.

Lemma diffusion_is_self_inverse_witness :
  (1 <= 3)%nat
  /\ forall psi, exists phi,
       evolve (diffusion 3 ++ diffusion 3) psi = Ok phi
       /\ forall j, 0 <= j < 2 ^ Z.of_nat 3 -> phi j = psi j.
Proof.
  split; [lia|]. intros psi. apply (diffusion_is_self_inverse 3). lia.
Defined.

(** *** The circuit sent to the hardware *)

Lemma in_01_cases c : in_01 c = true -> c = "0"%char \/ c = "1"%char.
Proof.
  unfold in_01. intros H. apply orb_true_iff in H as [H|H];
    apply Ascii.eqb_eq in H; auto.
Qed.

Lemma hardware_pattern_cases t :
  hardware_pattern_match t = true ->
  t = "00"%string \/ t = "01"%string \/ t = "10"%string \/ t = "11"%string.
Proof.
  unfold hardware_pattern_match, all_01. intros H.
  apply andb_true_iff in H as [H01 Hlen]. apply Nat.eqb_eq in Hlen.
  destruct t as [|c1 [|c2 [|c3 t]]]; try discriminate Hlen.
  cbn [list_ascii_of_string forallb] in H01.
  apply andb_true_iff in H01 as [H1 H2]. apply andb_true_iff in H2 as [H2 _].
  destruct (in_01_cases _ H1) as [-> | ->];
    destruct (in_01_cases _ H2) as [-> | ->]; auto.
Qed.

Lemma hardware_pattern_valid t :
  hardware_pattern_match t = true -> valid_target t /\ String.length t = 2%nat.
Proof.
  intros H.
  destruct (hardware_pattern_cases t H) as [->|[->|[->| ->]]];
    (split; [split; [reflexivity|]|reflexivity]);
    unfold MIN_QUBITS, MAX_QUBITS; cbn; lia.
Qed.

Lemma two_qubit_probabilities :
  target_probability_after 2 1 = 1%R /\ other_probability_after 2 1 = 0%R.
Proof.
  unfold target_probability_after, other_probability_after.
  vm_compute (fst _ ^ 2). vm_compute (snd _ ^ 2).
  vm_compute ((2 ^ Z.of_nat 2) ^ (2 * Z.of_nat 1 + 1)). split; field.
Qed.

(** X12.  For each of the two-bit targets the hardware route accepts, the
    circuit it builds by hand has, instruction for instruction, the
    gates, the barrier and the qubit-to-bit measurements of the circuit
    the simulator route builds for the same target with its one iteration
    (the names of the classical registers are not part of the model); run
    without noise, its gates leave probability 1 on the target string and
    0 on the three others. *)
Theorem hardware_circuit_is_simulator_circuit (t : string) :
  hardware_pattern_match t = true ->
  create_grover_circuit t = Ok (hardware_grover_circuit t, 1)
  /\ exists psi,
       evolve (filter is_unitary (data (hardware_grover_circuit t))) zero_state
       = Ok psi
       /\ forall j, 0 <= j < 4 ->
            (Rabs (psi j) ^ 2)%R
            = if String.eqb (format_bin 2 j) t then 1%R else 0%R.
Proof.
  intros H. destruct (hardware_pattern_valid t H) as [Hv Hlen].
  assert (Hc : create_grover_circuit t = Ok (hardware_grover_circuit t, 1)).
  { destruct (hardware_pattern_cases t H) as [->|[->|[->| ->]]];
      vm_compute; reflexivity. }
  split; [exact Hc|].
  destruct (create_grover_circuit_data t Hv) as [qc [Hqc [_ Hrun]]].
  rewrite Hc in Hqc. injection Hqc as <- _.
  rewrite evolve_run by apply is_unitary_filter.
  eexists. split; [reflexivity|]. intros j Hj. rewrite Hrun.
  assert (Hj' : in_range (String.length t) j) by (rewrite Hlen; exact Hj).
  replace (format_bin 2 j) with (format_bin (String.length t) j)
    by now rewrite Hlen.
  rewrite format_bin_eqb_target, state_at_probability by assumption.
  rewrite Hlen. change (Z.to_nat (iterations_table 2)) with 1%nat.
  destruct two_qubit_probabilities as [-> ->]. reflexivity.
Qed.

Lemma hardware_circuit_is_simulator_circuit_witness :
  create_grover_circuit "10" = Ok (hardware_grover_circuit "10", 1)
  /\ exists psi,
       evolve (filter is_unitary (data (hardware_grover_circuit "10")))
              zero_state
       = Ok psi
       /\ forall j, 0 <= j < 4 ->
            (Rabs (psi j) ^ 2)%R
            = if String.eqb (format_bin 2 j) "10" then 1%R else 0%R.
Proof.
  apply (hardware_circuit_is_simulator_circuit "10"). reflexivity.
Defined.

(** *** The tags and the counts of a hardware job *)

Lemma prefix_append_true s1 rest : String.prefix s1 (s1 ++ rest) = true.
Proof.
  induction s1 as [|a s1 IH]; [now destruct rest|].
  cbn [String.append String.prefix].
  destruct (ascii_dec a a); [exact IH|contradiction].
Qed.

(** X13.  The target read back from the tags the submission route puts
    on a job is the submitted target, whatever the target and the shot
    count, even when the target itself contains a colon. *)
Theorem job_tags_round_trip (target_state : string) (shots : Z) :
  target_of_tags (job_tags target_state shots) = Ok (Some target_state).
Proof.
  unfold job_tags. cbn [target_of_tags]. now rewrite prefix_append_true.
Qed.

Lemma prefix_append s1 s2 :
  String.prefix s1 s2 = true -> exists rest, s2 = (s1 ++ rest)%string.
Proof.
  revert s2. induction s1 as [|a s1 IH]; intros s2 H.
  - now exists s2.
  - destruct s2 as [|b s2]; [discriminate|]. cbn [String.prefix] in H.
    destruct (ascii_dec a b) as [->|]; [|discriminate].
    destruct (IH s2 H) as [rest ->]. now exists rest.
Qed.

Lemma target_of_tags_total tags : exists target, target_of_tags tags = Ok target.
Proof.
  induction tags as [|tag tags IH]; [now exists None|].
  cbn [target_of_tags]. destruct (String.prefix "target:" tag) eqn:Hp; [|exact IH].
  destruct (prefix_append _ _ Hp) as [rest ->]. now exists (Some rest).
Qed.

Lemma str_reverse_involutive s : str_reverse (str_reverse s) = s.
Proof.
  unfold str_reverse.
  now rewrite list_ascii_of_string_of_list_ascii, rev_involutive,
    string_of_list_ascii_of_string.
Qed.

Lemma str_reverse_inj s1 s2 : str_reverse s1 = str_reverse s2 -> s1 = s2.
Proof.
  intros H. rewrite <- (str_reverse_involutive s1), H.
  apply str_reverse_involutive.
Qed.

Lemma fold_left_map_arg {A B C : Type} (f : A -> C -> A) (g : B -> C) xs a :
  fold_left f (map g xs) a = fold_left (fun a x => f a (g x)) xs a.
Proof. revert a. induction xs as [|x xs IH]; intros a; [reflexivity|apply IH]. Qed.

Lemma reverse_count_keys_map (counts : dict Z) :
  NoDup (dict_keys counts) ->
  reverse_count_keys counts
  = map (fun kv => (str_reverse (fst kv), snd kv)) counts.
Proof.
  intros Hnd. unfold reverse_count_keys.
  transitivity
    (fold_left (fun (d : dict Z) kv => dict_set (fst kv) (snd kv) d)
               (map (fun kv : string * Z => (str_reverse (fst kv), snd kv)) counts)
               []).
  - now rewrite fold_left_map_arg.
  - rewrite fold_dict_set_fresh; [reflexivity|].
    cbn [dict_keys map app]. rewrite map_map. cbn [fst].
    rewrite <- (map_map fst str_reverse).
    apply NoDup_map_inj_in; [|exact Hnd].
    intros x y _ _. apply str_reverse_inj.
Qed.

Lemma dict_get_map_reverse (counts : dict Z) k :
  dict_get (map (fun kv => (str_reverse (fst kv), snd kv)) counts)
           (str_reverse k)
  = dict_get counts k.
Proof.
  induction counts as [|[k' v] counts IH]; [reflexivity|].
  cbn [map dict_get fst snd]. rewrite IH.
  destruct (String.eqb_spec k k') as [->|Hne].
  - now rewrite String.eqb_refl.
  - destruct (String.eqb_spec (str_reverse k) (str_reverse k')) as [He|_];
      [|reflexivity].
    apply str_reverse_inj in He. contradiction.
Qed.

Lemma reverse_count_keys_values (counts : dict Z) :
  NoDup (dict_keys counts) ->
  dict_values (reverse_count_keys counts) = dict_values counts.
Proof.
  intros Hnd. rewrite (reverse_count_keys_map counts Hnd).
  unfold dict_values. now rewrite map_map.
Qed.

(** X14.  On a counts dictionary (distinct keys) the key reversal of the
    status route keeps the order and the values, so the total number of
    shots is unchanged; the count stored under a reversed key is the one
    the job reported under the key; and reversing twice gives the
    dictionary back. *)
Theorem reverse_count_keys_properties (counts : dict Z) :
  NoDup (dict_keys counts) ->
  dict_keys (reverse_count_keys counts) = map str_reverse (dict_keys counts)
  /\ dict_values (reverse_count_keys counts) = dict_values counts
  /\ Zsum (dict_values (reverse_count_keys counts)) = Zsum (dict_values counts)
  /\ (forall k, dict_get (reverse_count_keys counts) (str_reverse k)
                = dict_get counts k)
  /\ reverse_count_keys (reverse_count_keys counts) = counts.
Proof.
  intros Hnd. pose proof (reverse_count_keys_map counts Hnd) as Hmap.
  assert (Hk : dict_keys (reverse_count_keys counts)
               = map str_reverse (dict_keys counts)).
  { rewrite Hmap. unfold dict_keys. now rewrite !map_map. }
  pose proof (reverse_count_keys_values counts Hnd) as Hv.
  split; [exact Hk|]. split; [exact Hv|]. split; [now rewrite Hv|]. split.
  - intros k. rewrite Hmap. apply dict_get_map_reverse.
  - rewrite (reverse_count_keys_map (reverse_count_keys counts)).
    + rewrite Hmap, map_map. cbn [fst snd]. rewrite <- (map_id counts) at 2.
      apply map_ext. intros [k v]. cbn [fst snd].
      now rewrite str_reverse_involutive.
    + rewrite Hk. apply NoDup_map_inj_in; [|exact Hnd].
      intros x y _ _. apply str_reverse_inj.
Qed.

Lemma reverse_count_keys_properties_witness :
  dict_keys (reverse_count_keys [("01"%string, 3); ("10"%string, 5)])
  = map str_reverse (dict_keys [("01"%string, 3); ("10"%string, 5)])
  /\ dict_values (reverse_count_keys [("01"%string, 3); ("10"%string, 5)])
     = dict_values [("01"%string, 3); ("10"%string, 5)]
  /\ Zsum (dict_values (reverse_count_keys [("01"%string, 3); ("10"%string, 5)]))
     = Zsum (dict_values [("01"%string, 3); ("10"%string, 5)])
  /\ (forall k,
        dict_get (reverse_count_keys [("01"%string, 3); ("10"%string, 5)])
                 (str_reverse k)
        = dict_get [("01"%string, 3); ("10"%string, 5)] k)
  /\ reverse_count_keys (reverse_count_keys [("01"%string, 3); ("10"%string, 5)])
     = [("01"%string, 3); ("10"%string, 5)].
Proof.
  apply (reverse_count_keys_properties [("01"%string, 3); ("10"%string, 5)]).
  repeat constructor; cbn; intuition discriminate.
Defined.

Lemma Zsum_nonneg vs : Forall (fun v => 0 <= v) vs -> 0 <= Zsum vs.
Proof.
  induction 1 as [|v vs Hv _ IH]; [cbn; lia|]. rewrite Zsum_cons. lia.
Qed.

(** X15.  For a finished job whose counts are non-negative, the status
    route drops the results exactly when the job carries a non-empty
    target tag and the counts add up to zero (the success rate would
    divide by zero).  In every other case the results hold the reversed
    counts, their total, the target of the first target tag, and a
    success rate that is 0.0 when no target is known. *)
Theorem job_results_dropped_iff (raw_counts : dict Z) (tags : list string) :
  NoDup (dict_keys raw_counts) ->
  Forall (fun v => 0 <= v) (dict_values raw_counts) ->
  (job_results_or_none raw_counts tags = None
   <-> Zsum (dict_values raw_counts) = 0
       /\ exists t, target_of_tags tags = Ok (Some t) /\ t <> EmptyString)
  /\ forall results,
       job_results_or_none raw_counts tags = Some results ->
       jr_counts results = reverse_count_keys raw_counts
       /\ jr_total_shots results = Zsum (dict_values raw_counts)
       /\ target_of_tags tags = Ok (jr_target_state results)
       /\ (jr_target_state results = None ->
           jr_success_rate results = 0%float).
Proof.
  intros Hnd Hpos.
  pose proof (reverse_count_keys_values raw_counts Hnd) as Hvals.
  assert (Hsum : Zsum (dict_values (reverse_count_keys raw_counts))
                 = Zsum (dict_values raw_counts)) by now rewrite Hvals.
  assert (Hpos' : Forall (fun v => 0 <= v)
                         (dict_values (reverse_count_keys raw_counts)))
    by now rewrite Hvals.
  pose proof (Zsum_nonneg _ Hpos) as Htot.
  destruct (target_of_tags_total tags) as [target Ht].
  unfold job_results_or_none, extract_job_results. rewrite Ht. cbn [bind].
  rewrite Hsum.
  destruct target as [t|].
  - destruct t as [|c t].
    + cbn [String.length Nat.eqb bind]. split.
      * split; [discriminate|]. intros [_ [t' [Heq Hne]]].
        injection Heq as <-. contradiction.
      * intros results Hr. injection Hr as <-.
        cbn [jr_counts jr_total_shots jr_target_state jr_success_rate].
        repeat split; try discriminate.
    + cbn [String.length Nat.eqb].
      destruct (Z.eq_dec (Zsum (dict_values raw_counts)) 0) as [Hz|Hnz].
      * rewrite Hz. unfold int_truediv. cbn [Z.eqb bind]. split.
        -- split; [|reflexivity]. intros _. split; [reflexivity|].
           exists (String c t). split; [reflexivity|discriminate].
        -- discriminate.
      * pose proof (dict_get_default_le_sum _ (String c t) Hpos') as Hget.
        rewrite Hsum in Hget.
        destruct (int_truediv_ok _ _ Hget) as [f Hf]; [lia|].
        rewrite Hf. cbn [bind]. split.
        -- split; [discriminate|]. intros [Hz _]. contradiction.
        -- intros results Hr. injection Hr as <-.
           cbn [jr_counts jr_total_shots jr_target_state jr_success_rate].
           repeat split; try discriminate.
  - cbn [bind]. split.
    + split; [discriminate|]. intros [_ [t' [Heq _]]]. discriminate.
    + intros results Hr. injection Hr as <-.
      cbn [jr_counts jr_total_shots jr_target_state jr_success_rate].
      repeat split.
Qed.

Lemma job_results_dropped_iff_witness :
  (job_results_or_none [("01"%string, 3); ("10"%string, 5)]
                       (job_tags "10" 8) = None
   <-> Zsum (dict_values [("01"%string, 3); ("10"%string, 5)]) = 0
       /\ exists t, target_of_tags (job_tags "10" 8) = Ok (Some t)
                    /\ t <> EmptyString)
  /\ forall results,
       job_results_or_none [("01"%string, 3); ("10"%string, 5)]
                           (job_tags "10" 8) = Some results ->
       jr_counts results
       = reverse_count_keys [("01"%string, 3); ("10"%string, 5)]
       /\ jr_total_shots results
          = Zsum (dict_values [("01"%string, 3); ("10"%string, 5)])
       /\ target_of_tags (job_tags "10" 8) = Ok (jr_target_state results)
       /\ (jr_target_state results = None ->
           jr_success_rate results = 0%float).
Proof.
  apply (job_results_dropped_iff [("01"%string, 3); ("10"%string, 5)]
                                 (job_tags "10" 8)).
  - repeat constructor; cbn; intuition discriminate.
  - repeat constructor; cbn; lia.
Defined.

(** *** The examples of [/info] and the analysis *)

(** X16.  Every example listed by [/info] names a target the routes
    accept, is filed under the key "<number of qubits>_qubit", and
    states the search space and the optimal iteration count that the
    analysis route computes for that target. *)
Theorem info_examples_agree_with_analysis :
  Forall
    (fun ex =>
       pattern_match (ex_target_state ex) = true
       /\ ex_name ex
          = (str_of_int (Z.of_nat (String.length (ex_target_state ex)))
             ++ "_qubit")%string
       /\ exists a,
            analyze_target_state (ex_target_state ex) = Ok a
            /\ an_search_space_size a = ex_search_space ex
            /\ an_optimal_iterations a = ex_optimal_iterations ex)
    get_info_examples.
Proof.
  unfold get_info_examples.
  repeat (apply Forall_cons || apply Forall_nil);
    (split; [reflexivity|]; split; [reflexivity|]; eexists;
     split; [vm_compute; reflexivity|split; reflexivity]).
Qed.

(** X17.  For every valid target the analysis reports as many quantum
    operations as optimal iterations, the classical average [N / 2]
    exactly, and a speed-up that is the correctly rounded quotient of the
    two and is never below 1. *)
Theorem analysis_speedup_at_least_one (t : string) :
  valid_target t ->
  exists a,
    analyze_target_state t = Ok a
    /\ an_target_state a = t
    /\ an_num_qubits a = String.length t
    /\ an_quantum_operations a = an_optimal_iterations a
    /\ float_of_int (2 ^ (Z.of_nat (String.length t) - 1))
       = Ok (an_classical_average_tries a)
    /\ int_truediv (2 ^ (Z.of_nat (String.length t) - 1))
                   (an_optimal_iterations a)
       = Ok (an_speedup a)
    /\ PrimFloat.leb 1%float (an_speedup a) = true.
Proof.
  intros Hv. pose proof (valid_target_bounds t Hv) as Hn.
  unfold analyze_target_state. rewrite validate_valid by assumption.
  cbn [bind].
  destruct (length_cases _ Hn) as [->|[->|[->|[->|[->|[->|[->| ->]]]]]]];
    (eexists; split; [vm_compute; reflexivity|];
     cbn [an_target_state an_num_qubits an_quantum_operations
          an_optimal_iterations an_classical_average_tries an_speedup];
     repeat split; vm_compute; reflexivity).
Qed.

Lemma analysis_speedup_at_least_one_witness :
  exists a,
    analyze_target_state "101" = Ok a
    /\ an_target_state a = "101"%string
    /\ an_num_qubits a = String.length "101"
    /\ an_quantum_operations a = an_optimal_iterations a
    /\ float_of_int (2 ^ (Z.of_nat (String.length "101") - 1))
       = Ok (an_classical_average_tries a)
    /\ int_truediv (2 ^ (Z.of_nat (String.length "101") - 1))
                   (an_optimal_iterations a)
       = Ok (an_speedup a)
    /\ PrimFloat.leb 1%float (an_speedup a) = true.
Proof.
  apply (analysis_speedup_at_least_one "101").
  split; [reflexivity|]. unfold MIN_QUBITS, MAX_QUBITS. cbn. lia.
Defined.

(** *** The oracle as an operator *)

(** X18.  Read as an operator on exact amplitudes (the ideal gates, not
    the floating-point simulation), the gate network the oracle builder
    emits for a valid target multiplies the amplitude at the target index
    (the target parsed in base 2) by [-1] and leaves each of the other
    [2^n - 1] amplitudes as it is, for every state vector. *)
Theorem oracle_is_sign_flip (t : string) :
  valid_target t ->
  exists oracle target_index,
    build_generalized_grover_oracle t = Ok oracle
    /\ num_qubits oracle = String.length t
    /\ int_base2 t = Ok target_index
    /\ forall psi : Statevector,
         exists phi,
           evolve (data oracle) psi = Ok phi
           /\ agree (String.length t) phi (oracle_flip target_index psi).
Proof.
  intros Hv. exists (mkCircuit (String.length t) 0 (oracle_gates t)).
  exists (target_index_of t). split; [now apply build_oracle_valid|].
  split; [reflexivity|]. split; [now apply int_base2_valid|].
  intros psi. exists (run (oracle_gates t) psi). cbn [data]. split.
  - apply evolve_run, is_unitary_oracle_gates.
  - now apply run_oracle_gates.
Qed.

Lemma oracle_is_sign_flip_witness :
  exists oracle target_index,
    build_generalized_grover_oracle "101" = Ok oracle
    /\ num_qubits oracle = String.length "101"
    /\ int_base2 "101" = Ok target_index
    /\ forall psi : Statevector,
         exists phi,
           evolve (data oracle) psi = Ok phi
           /\ agree (String.length "101") phi (oracle_flip target_index psi).
Proof.
  apply (oracle_is_sign_flip "101").
  split; [reflexivity|]. unfold MIN_QUBITS, MAX_QUBITS. cbn. lia.
Defined.
